(** * A shallow embedding of the Wren tokenizer port (class [Parser])

    The JavaScript class [Parser] is modelled as a record of its fields and
    every method as a function on that record.  JavaScript strings are
    sequences of UTF-16 code units, so a string is a [list Z]; the result of
    indexing a string ([this.source[i]]) is either a one-character string or
    [undefined], so a character is an [option Z].  Loops that the source
    writes with [while] or [for (;;)] take a fuel argument: [None] means that
    the fuel ran out before the loop ended.  A result obtained with some
    fuel is the result with any larger fuel ([nextTokens_fuel]), and a call
    that returns [None] with every fuel is a call that does not return.

    [this.current] and [this.previous] are references to token objects:
    the state holds the two objects that the constructor allocates and the
    two references, so that an assignment of one reference to the other
    makes them share an object, as in the source. *)

From Stdlib Require Import ZArith List Bool String Ascii Lia.
From Stdlib Require Import Decimal DecimalString.
Import ListNotations.
Local Open Scope Z_scope.

(** ** JavaScript values used by the tokenizer *)

Definition jsstring := list Z.

(** The code unit of an ASCII character. *)
Definition ch (a : ascii) : Z := Z.of_N (N_of_ascii a).

(** A string literal of the source, as code units. *)
Definition str (s : string) : jsstring := map ch (list_ascii_of_string s).

(** The double quote, written by its code so that literals stay readable. *)
Definition dquote : Z := 34.
Definition dquoteChar : ascii := ascii_of_nat 34.

Fixpoint jsstring_eqb (a b : jsstring) : bool :=
  match a, b with
  | [], [] => true
  | x :: a', y :: b' => (x =? y) && jsstring_eqb a' b'
  | _, _ => false
  end.

(** JavaScript numbers that occur here: integers and [NaN]. *)
Inductive jsnum : Type :=
| Num (z : Z)
| NaN.

Definition js_add (a b : jsnum) : jsnum :=
  match a, b with Num x, Num y => Num (x + y) | _, _ => NaN end.

Definition js_sub (a b : jsnum) : jsnum :=
  match a, b with Num x, Num y => Num (x - y) | _, _ => NaN end.

Definition js_mul (a b : jsnum) : jsnum :=
  match a, b with Num x, Num y => Num (x * y) | _, _ => NaN end.

(** [a == b] on numbers: [NaN] equals nothing. *)
Definition js_num_eqb (a b : jsnum) : bool :=
  match a, b with Num x, Num y => x =? y | _, _ => false end.

(** [a >= b] and [a <= b] on numbers: false as soon as one side is [NaN]. *)
Definition js_num_geb (a b : jsnum) : bool :=
  match a, b with Num x, Num y => y <=? x | _, _ => false end.

Definition js_num_leb (a b : jsnum) : bool :=
  match a, b with Num x, Num y => x <=? y | _, _ => false end.

(** ToInt32, with the wrap-around written out. *)
Definition ToInt32 (a : jsnum) : Z :=
  match a with
  | Num z => (z + 2 ^ 31) mod 2 ^ 32 - 2 ^ 31
  | NaN => 0
  end.

(** [a | b]. *)
Definition js_bitor (a b : jsnum) : jsnum :=
  Num (Z.lor (ToInt32 a) (ToInt32 b)).

(** White space and line terminators that the string-to-number conversion
    trims: TAB, LF, VT, FF, CR, SP, NBSP, the Unicode space separators,
    LS, PS and the byte order mark. *)
Definition isStrWhiteSpace (z : Z) : bool :=
  ((9 <=? z) && (z <=? 13)) || (z =? 32) || (z =? 160) || (z =? 5760)
  || ((8192 <=? z) && (z <=? 8202)) || (z =? 8232) || (z =? 8233)
  || (z =? 8239) || (z =? 8287) || (z =? 12288) || (z =? 65279).

(** ToNumber of a one-character string: a decimal digit is its value, a
    white-space character trims to the empty string, which is 0, and
    anything else is [NaN]. *)
Definition ToNumber_char (z : Z) : jsnum :=
  if (48 <=? z) && (z <=? 57) then Num (z - 48)
  else if isStrWhiteSpace z then Num 0
  else NaN.

(** ToNumber of what [source[i]] yields; [undefined] converts to [NaN]. *)
Definition ToNumber (c : option Z) : jsnum :=
  match c with
  | Some z => ToNumber_char z
  | None => NaN
  end.

(** ToString of what [source[i]] yields, as string concatenation does it. *)
Definition ToString (c : option Z) : jsstring :=
  match c with
  | Some z => [z]
  | None => str "undefined"
  end.

(** ToString of an integer-valued number. *)
Definition ToString_int (z : Z) : jsstring :=
  str (NilZero.string_of_int (Z.to_int z)).

(** [c == 'x'] for a character literal ['x']. *)
Definition eqc (c : option Z) (a : ascii) : bool :=
  match c with
  | Some z => z =? ch a
  | None => false
  end.

(** [c >= 'x'] and [c <= 'x']: two strings compare by code units, and
    [undefined] against a string compares as [NaN], which is false. *)
Definition gec (c : option Z) (a : ascii) : bool :=
  match c with
  | Some z => ch a <=? z
  | None => false
  end.

Definition lec (c : option Z) (a : ascii) : bool :=
  match c with
  | Some z => z <=? ch a
  | None => false
  end.

(** [s[i]]. *)
Definition charAt (s : jsstring) (i : Z) : option Z :=
  if i <? 0 then None else nth_error s (Z.to_nat i).

(** [s.substr(start, length)] with an integer [start] (a missing [start]
    counts as 0) and an integer [length]. *)
Definition substr (s : jsstring) (start : option Z) (len : Z) : jsstring :=
  let size := Z.of_nat (List.length s) in
  let st := match start with Some z => z | None => 0 end in
  let st := if st <? 0 then Z.max (size + st) 0 else Z.min st size in
  let ln := Z.min (Z.max len 0) size in
  let en := Z.min (st + ln) size in
  if en <=? st then []
  else firstn (Z.to_nat (en - st)) (skipn (Z.to_nat st) s).

(** Hexadecimal value of a run of decimal digits. *)
Fixpoint hexOfDigits (d : Decimal.uint) (acc : Z) : Z :=
  match d with
  | Nil => acc
  | D0 d' => hexOfDigits d' (16 * acc)
  | D1 d' => hexOfDigits d' (16 * acc + 1)
  | D2 d' => hexOfDigits d' (16 * acc + 2)
  | D3 d' => hexOfDigits d' (16 * acc + 3)
  | D4 d' => hexOfDigits d' (16 * acc + 4)
  | D5 d' => hexOfDigits d' (16 * acc + 5)
  | D6 d' => hexOfDigits d' (16 * acc + 6)
  | D7 d' => hexOfDigits d' (16 * acc + 7)
  | D8 d' => hexOfDigits d' (16 * acc + 8)
  | D9 d' => hexOfDigits d' (16 * acc + 9)
  end.

(** [parseInt(n, 16)] for an integer-valued number [n]: the argument is
    first converted to its decimal string, whose digits are then read in
    base 16. *)
Definition parseInt16 (n : Z) : jsnum :=
  match Z.to_int n with
  | Pos d => Num (hexOfDigits d 0)
  | Neg d => Num (- hexOfDigits d 0)
  end.

(** [parseFloat(n)] for an integer-valued number [n]: the decimal string
    of [n] parses back to [n]. *)
Definition parseFloat (n : Z) : jsnum := Num n.

(** ** Tokens *)

Inductive TokenType : Type :=
| TOKEN_LEFT_PAREN | TOKEN_RIGHT_PAREN
| TOKEN_LEFT_BRACKET | TOKEN_RIGHT_BRACKET
| TOKEN_LEFT_BRACE | TOKEN_RIGHT_BRACE
| TOKEN_COLON | TOKEN_DOT | TOKEN_DOTDOT | TOKEN_DOTDOTDOT
| TOKEN_COMMA | TOKEN_STAR | TOKEN_SLASH | TOKEN_PERCENT
| TOKEN_PLUS | TOKEN_MINUS | TOKEN_LTLT | TOKEN_GTGT
| TOKEN_PIPE | TOKEN_PIPEPIPE | TOKEN_CARET | TOKEN_AMP | TOKEN_AMPAMP
| TOKEN_BANG | TOKEN_TILDE | TOKEN_QUESTION
| TOKEN_EQ | TOKEN_LT | TOKEN_GT | TOKEN_LTEQ | TOKEN_GTEQ
| TOKEN_EQEQ | TOKEN_BANGEQ
| TOKEN_BREAK | TOKEN_CLASS | TOKEN_CONSTRUCT | TOKEN_ELSE | TOKEN_FALSE
| TOKEN_FOR | TOKEN_FOREIGN | TOKEN_IF | TOKEN_IMPORT | TOKEN_IN | TOKEN_IS
| TOKEN_NULL | TOKEN_RETURN | TOKEN_STATIC | TOKEN_SUPER | TOKEN_THIS
| TOKEN_TRUE | TOKEN_VAR | TOKEN_WHILE
| TOKEN_FIELD | TOKEN_STATIC_FIELD | TOKEN_NAME | TOKEN_NUMBER
| TOKEN_STRING | TOKEN_INTERPOLATION
| TOKEN_LINE | TOKEN_ERROR | TOKEN_EOF.

Definition isLINE (t : TokenType) : bool :=
  match t with TOKEN_LINE => true | _ => false end.

Definition isEOF (t : option TokenType) : bool :=
  match t with Some TOKEN_EOF => true | _ => false end.

(** What [current.value] can hold. *)
Inductive jsvalue : Type :=
| VUndefined
| VNumber (n : jsnum)
| VString (s : jsstring).

(** The token objects behind [this.current] and [this.previous].  The
    object literals of the constructor have no [start] property. *)
Module Token.
Record t : Type := mk {
  type : option TokenType;
  start : option Z;
  length : Z;
  line : Z;
  value : jsvalue
}.
End Token.

(** The entries that [makeToken] pushes on [this.tokens]. *)
Module Entry.
Record t : Type := mk {
  type : TokenType;
  value : jsstring;
  line : Z
}.
End Entry.

(** The constructor allocates two token objects; [this.current] and
    [this.previous] are references to them. *)
Inductive tokref : Type :=
| RefA
| RefB.

(** What the tokenizer writes on the console. *)
Inductive console_entry : Type :=
| Warn (line : Z) (message : jsstring)
| Log (n : Z).

(** ** The keyword table *)

Record Keyword : Type := mkKeyword {
  identifier : option jsstring;
  kw_length : Z;
  tokenType : TokenType
}.

Definition MAX_INTERPOLATION_NESTING : Z := 8.

Definition keywords : list Keyword :=
  [ mkKeyword (Some (str "break")) 5 TOKEN_BREAK;
    mkKeyword (Some (str "class")) 5 TOKEN_CLASS;
    mkKeyword (Some (str "construct")) 9 TOKEN_CONSTRUCT;
    mkKeyword (Some (str "else")) 4 TOKEN_ELSE;
    mkKeyword (Some (str "false")) 5 TOKEN_FALSE;
    mkKeyword (Some (str "for")) 3 TOKEN_FOR;
    mkKeyword (Some (str "foreign")) 7 TOKEN_FOREIGN;
    mkKeyword (Some (str "if")) 2 TOKEN_IF;
    mkKeyword (Some (str "import")) 6 TOKEN_IMPORT;
    mkKeyword (Some (str "in")) 2 TOKEN_IN;
    mkKeyword (Some (str "is")) 2 TOKEN_IS;
    mkKeyword (Some (str "null")) 4 TOKEN_NULL;
    mkKeyword (Some (str "return")) 6 TOKEN_RETURN;
    mkKeyword (Some (str "static")) 6 TOKEN_STATIC;
    mkKeyword (Some (str "super")) 5 TOKEN_SUPER;
    mkKeyword (Some (str "this")) 4 TOKEN_THIS;
    mkKeyword (Some (str "true")) 4 TOKEN_TRUE;
    mkKeyword (Some (str "var")) 3 TOKEN_VAR;
    mkKeyword (Some (str "while")) 5 TOKEN_WHILE;
    mkKeyword None 0 TOKEN_EOF ].

(** ** The state of a [Parser] *)

Record Parser : Type := mkParser {
  source : jsstring;
  tokenStart : Z;
  currentChar : Z;
  currentLine : Z;
  current : tokref;
  previous : tokref;
  objA : Token.t;
  objB : Token.t;
  parens : list (option jsnum);
  numParens : Z;
  tokens : list Entry.t;
  console : list console_entry
}.

Definition set_tokenStart (v : Z) (p : Parser) : Parser :=
  mkParser (source p) v (currentChar p) (currentLine p) (current p)
    (previous p) (objA p) (objB p) (parens p) (numParens p) (tokens p)
    (console p).

Definition set_currentChar (v : Z) (p : Parser) : Parser :=
  mkParser (source p) (tokenStart p) v (currentLine p) (current p)
    (previous p) (objA p) (objB p) (parens p) (numParens p) (tokens p)
    (console p).

Definition set_currentLine (v : Z) (p : Parser) : Parser :=
  mkParser (source p) (tokenStart p) (currentChar p) v (current p)
    (previous p) (objA p) (objB p) (parens p) (numParens p) (tokens p)
    (console p).

Definition set_previous (v : tokref) (p : Parser) : Parser :=
  mkParser (source p) (tokenStart p) (currentChar p) (currentLine p)
    (current p) v (objA p) (objB p) (parens p) (numParens p) (tokens p)
    (console p).

Definition set_parens (v : list (option jsnum)) (p : Parser) : Parser :=
  mkParser (source p) (tokenStart p) (currentChar p) (currentLine p)
    (current p) (previous p) (objA p) (objB p) v (numParens p) (tokens p)
    (console p).

Definition set_numParens (v : Z) (p : Parser) : Parser :=
  mkParser (source p) (tokenStart p) (currentChar p) (currentLine p)
    (current p) (previous p) (objA p) (objB p) (parens p) v (tokens p)
    (console p).

Definition set_tokens (v : list Entry.t) (p : Parser) : Parser :=
  mkParser (source p) (tokenStart p) (currentChar p) (currentLine p)
    (current p) (previous p) (objA p) (objB p) (parens p) (numParens p) v
    (console p).

Definition set_console (v : list console_entry) (p : Parser) : Parser :=
  mkParser (source p) (tokenStart p) (currentChar p) (currentLine p)
    (current p) (previous p) (objA p) (objB p) (parens p) (numParens p)
    (tokens p) v.

(** Reading and writing the object behind a reference. *)
Definition deref (r : tokref) (p : Parser) : Token.t :=
  match r with
  | RefA => objA p
  | RefB => objB p
  end.

Definition store (r : tokref) (t : Token.t) (p : Parser) : Parser :=
  match r with
  | RefA =>
      mkParser (source p) (tokenStart p) (currentChar p) (currentLine p)
        (current p) (previous p) t (objB p) (parens p) (numParens p)
        (tokens p) (console p)
  | RefB =>
      mkParser (source p) (tokenStart p) (currentChar p) (currentLine p)
        (current p) (previous p) (objA p) t (parens p) (numParens p)
        (tokens p) (console p)
  end.

(** [this.current] and [this.previous], dereferenced. *)
Definition currentToken (p : Parser) : Token.t := deref (current p) p.
Definition previousToken (p : Parser) : Token.t := deref (previous p) p.

(** Assignments to the properties of [this.current]. *)
Definition set_cur_type (ty : TokenType) (p : Parser) : Parser :=
  let t := currentToken p in
  store (current p)
    (Token.mk (Some ty) (Token.start t) (Token.length t) (Token.line t)
       (Token.value t)) p.

Definition set_cur_start (v : Z) (p : Parser) : Parser :=
  let t := currentToken p in
  store (current p)
    (Token.mk (Token.type t) (Some v) (Token.length t) (Token.line t)
       (Token.value t)) p.

Definition set_cur_length (v : Z) (p : Parser) : Parser :=
  let t := currentToken p in
  store (current p)
    (Token.mk (Token.type t) (Token.start t) v (Token.line t)
       (Token.value t)) p.

Definition set_cur_line (v : Z) (p : Parser) : Parser :=
  let t := currentToken p in
  store (current p)
    (Token.mk (Token.type t) (Token.start t) (Token.length t) v
       (Token.value t)) p.

Definition set_cur_value (v : jsvalue) (p : Parser) : Parser :=
  let t := currentToken p in
  store (current p)
    (Token.mk (Token.type t) (Token.start t) (Token.length t) (Token.line t)
       v) p.

(** ** JavaScript arrays with holes, for [this.parens] *)

(** [a[i]]: a hole or an index outside the array reads as [undefined]. *)
Definition array_get (a : list (option jsnum)) (i : Z) : option jsnum :=
  if i <? 0 then None
  else match nth_error a (Z.to_nat i) with
       | Some v => v
       | None => None
       end.

Fixpoint array_set_nat (a : list (option jsnum)) (i : nat) (v : jsnum)
  : list (option jsnum) :=
  match i, a with
  | O, [] => [Some v]
  | O, _ :: a' => Some v :: a'
  | S i', [] => None :: array_set_nat [] i' v
  | S i', x :: a' => x :: array_set_nat a' i' v
  end.

(** [a[i] = v]: an index past the end extends the array with holes.  A
    negative index would set a named property and leaves the elements as
    they are. *)
Definition array_set (a : list (option jsnum)) (i : Z) (v : jsnum)
  : list (option jsnum) :=
  if i <? 0 then a else array_set_nat a (Z.to_nat i) v.

(** ToNumber of an array element. *)
Definition elemNumber (e : option jsnum) : jsnum :=
  match e with
  | Some n => n
  | None => NaN
  end.

(** ** The methods of [Parser] *)

Arguments eqc c a%_char.
Arguments gec c a%_char.
Arguments lec c a%_char.

Notation "'do' x <- e ; k" :=
  (match e with Some x => k | None => None end)
  (at level 10, x pattern, e at level 100, k at level 200).

(** [while (cond) body], with fuel. *)
Fixpoint while (fuel : nat) (cond : Parser -> bool)
  (body : Parser -> Parser) (p : Parser) : option Parser :=
  match fuel with
  | O => None
  | S f => if cond p then while f cond body (body p) else Some p
  end.

Definition isName (c : option Z) : bool :=
  (gec c "a" && lec c "z") || (gec c "A" && lec c "Z") || eqc c "_".

Definition isDigit (c : option Z) : bool :=
  gec c "0" && lec c "9".

Definition peekChar (p : Parser) : option Z :=
  charAt (source p) (currentChar p).

Definition peekNextChar (p : Parser) : option Z :=
  charAt (source p) (currentChar p + 1).

Definition nextChar (p : Parser) : option Z * Parser :=
  let c := peekChar p in
  let p1 := set_currentChar (currentChar p + 1) p in
  (c, if eqc c "010" then set_currentLine (currentLine p1 + 1) p1 else p1).

(** [nextChar] called for its effect only. *)
Definition skipChar (p : Parser) : Parser := snd (nextChar p).

Definition matchChar (a : ascii) (p : Parser) : bool * Parser :=
  if negb (eqc (peekChar p) a) then (false, p) else (true, skipChar p).

Arguments matchChar a%_char p.

Definition lexError (format : jsstring) (p : Parser) : Parser :=
  set_console (console p ++ [Warn (currentLine p) format]) p.

Definition makeToken (type : TokenType) (p : Parser) : Parser :=
  let p := set_cur_type type p in
  let p := set_cur_start (tokenStart p) p in
  let p := set_cur_length (currentChar p - tokenStart p) p in
  let p := set_cur_line (currentLine p) p in
  let p :=
    if isLINE type then set_cur_line (Token.line (currentToken p) - 1) p
    else p in
  set_tokens
    (tokens p ++
       [Entry.mk type
          (substr (source p) (Token.start (currentToken p))
             (Token.length (currentToken p)))
          (Token.line (currentToken p))]) p.

Definition twoCharToken (a : ascii) (two one : TokenType) (p : Parser)
  : Parser :=
  let '(m, p) := matchChar a p in
  makeToken (if m then two else one) p.

Arguments twoCharToken a%_char two one p.

Definition skipLineComment (fuel : nat) (p : Parser) : option Parser :=
  while fuel
    (fun p => negb (eqc (peekChar p) "010") && negb (eqc (peekChar p) "000"))
    skipChar p.

Fixpoint skipBlockCommentLoop (fuel : nat) (nesting : Z) (p : Parser)
  : option Parser :=
  match fuel with
  | O => None
  | S f =>
      if 0 <? nesting then
        if eqc (peekChar p) "000" then
          Some (lexError (str "Unterminated block comment.") p)
        else if eqc (peekChar p) "/" && eqc (peekNextChar p) "*" then
          skipBlockCommentLoop f (nesting + 1) (skipChar (skipChar p))
        else if eqc (peekChar p) "*" && eqc (peekNextChar p) "/" then
          skipBlockCommentLoop f (nesting - 1) (skipChar (skipChar p))
        else skipBlockCommentLoop f nesting (skipChar p)
      else Some p
  end.

Definition skipBlockComment (fuel : nat) (p : Parser) : option Parser :=
  skipBlockCommentLoop fuel 1 p.

Definition readHexDigit (p : Parser) : jsnum * Parser :=
  let '(c, p) := nextChar p in
  if gec c "0" && lec c "9" then
    (js_sub (ToNumber c) (ToNumber (Some (ch "0"))), p)
  else if gec c "a" && lec c "f" then
    (js_add (js_sub (ToNumber c) (ToNumber (Some (ch "a")))) (Num 10), p)
  else if gec c "A" && lec c "F" then
    (js_add (js_sub (ToNumber c) (ToNumber (Some (ch "A")))) (Num 10), p)
  else (Num (-1), set_currentChar (currentChar p - 1) p).

Definition makeNumber (isHex : bool) (p : Parser) : Parser :=
  let p :=
    if isHex then set_cur_value (VNumber (parseInt16 (tokenStart p))) p
    else set_cur_value (VNumber (parseFloat (tokenStart p))) p in
  makeToken TOKEN_NUMBER p.

(** [while (this.readHexDigit() != -1) continue;] *)
Fixpoint readHexDigits (fuel : nat) (p : Parser) : option Parser :=
  match fuel with
  | O => None
  | S f =>
      let '(d, p) := readHexDigit p in
      if negb (js_num_eqb d (Num (-1))) then readHexDigits f p else Some p
  end.

Definition readHexNumber (fuel : nat) (p : Parser) : option Parser :=
  let p := skipChar p in
  do p <- readHexDigits fuel p;
  Some (makeNumber true p).

Definition skipDigits (fuel : nat) (p : Parser) : option Parser :=
  while fuel (fun p => isDigit (peekChar p)) skipChar p.

Definition readNumber (fuel : nat) (p : Parser) : option Parser :=
  do p <- skipDigits fuel p;
  do p <- (if eqc (peekChar p) "." && isDigit (peekNextChar p)
           then skipDigits fuel (skipChar p)
           else Some p);
  let '(m, p) :=
    let '(m1, p1) := matchChar "e" p in
    if m1 then (true, p1) else matchChar "E" p1 in
  do p <- (if m then
             let p := snd (matchChar "-" p) in
             let p :=
               if negb (isDigit (peekChar p))
               then lexError (str "Unterminated scientific notation.") p
               else p in
             skipDigits fuel p
           else Some p);
  Some (makeNumber false p).

(** The [for] loop of [readName] over the keyword table. *)
Fixpoint lookupKeyword (kws : list Keyword) (name : jsstring)
  (type : TokenType) : TokenType :=
  match kws with
  | [] => type
  | k :: kws' =>
      if (Z.of_nat (List.length name) =? kw_length k)
         && match identifier k with
            | Some s => jsstring_eqb name s
            | None => false
            end
      then tokenType k
      else lookupKeyword kws' name type
  end.

Definition readName (fuel : nat) (type : TokenType) (p : Parser)
  : option Parser :=
  do p <- while fuel
            (fun p => isName (peekChar p) || isDigit (peekChar p))
            skipChar p;
  let length := currentChar p - tokenStart p in
  let type :=
    lookupKeyword keywords (substr (source p) (Some (tokenStart p)) length)
      type in
  Some (makeToken type p).

(** The [for] loop of [readHexEscape], [n] iterations left. *)
Fixpoint readHexEscapeLoop (n : nat) (description : jsstring)
  (value : jsnum) (p : Parser) : jsnum * Parser :=
  match n with
  | O => (value, p)
  | S n' =>
      if eqc (peekChar p) dquoteChar || eqc (peekChar p) "000" then
        let p :=
          lexError (str "Incomplete " ++ description
                    ++ str " escape sequence.") p in
        (value, set_currentChar (currentChar p - 1) p)
      else
        let '(digit, p) := readHexDigit p in
        if js_num_eqb digit (Num (-1)) then
          (value,
           lexError (str "Invalid " ++ description
                     ++ str " escape sequence.") p)
        else
          readHexEscapeLoop n' description
            (js_bitor (js_mul value (Num 16)) digit) p
  end.

Definition readHexEscape (digits : nat) (description : jsstring)
  (p : Parser) : jsnum * Parser :=
  readHexEscapeLoop digits description (Num 0) p.

(** The [for (;;)] loop of [readString]; the result carries the local
    variable [type]. *)
Fixpoint readStringLoop (fuel : nat) (p : Parser)
  : option (TokenType * Parser) :=
  match fuel with
  | O => None
  | S f =>
      let '(c, p) := nextChar p in
      if eqc c dquoteChar then Some (TOKEN_STRING, p)
      else if eqc c "000" then
        let p := lexError (str "Unterminated string.") p in
        Some (TOKEN_STRING, set_currentChar (currentChar p - 1) p)
      else
        let percent :=
          if eqc c "%" then
            if numParens p <? MAX_INTERPOLATION_NESTING then
              let '(c2, p) := nextChar p in
              let p :=
                if negb (eqc c2 "(")
                then lexError (str "Expect '(' after '%%'.") p
                else p in
              let p :=
                set_parens (array_set (parens p) (numParens p) (Num 1)) p in
              let p := set_numParens (numParens p + 1) p in
              inl p
            else
              inr (lexError
                     (str "Interpolation may only nest "
                      ++ ToString_int MAX_INTERPOLATION_NESTING
                      ++ str " levels deep.") p)
          else inr p in
        match percent with
        | inl p => Some (TOKEN_INTERPOLATION, p)
        | inr p =>
            if eqc c "\" then
              let p := set_console (console p ++ [Log 123]) p in
              let '(e, p) := nextChar p in
              let p :=
                if eqc e "t" then set_cur_value (VString [9]) p
                else if eqc e "v" then set_cur_value (VString [11]) p
                else if eqc e "x" then
                  let '(v, p) := readHexEscape 2 (str "byte") p in
                  set_cur_value (VNumber v) p
                else
                  lexError
                    (str "Invalid escape character '"
                     ++ ToString_int (currentChar p - 1) ++ str "'.") p in
              readStringLoop f p
            else readStringLoop f p
        end
  end.

Definition readString (fuel : nat) (p : Parser) : option Parser :=
  do (type, p) <- readStringLoop fuel p;
  Some (makeToken type p).

(** How a [case] of the [switch] in [nextToken] ends: with [return], or
    with [break], which goes round the [while] loop again. *)
Inductive control : Type :=
| Return
| Break.

(** The [switch (c)] of [nextToken]. *)
Definition scanToken (fuel : nat) (c : option Z) (p : Parser)
  : option (control * Parser) :=
  if eqc c "(" then
    let p :=
      if 0 <? numParens p then
        set_parens
          (array_set (parens p) (numParens p - 1)
             (js_add (elemNumber (array_get (parens p) (numParens p - 1)))
                (Num 1))) p
      else p in
    Some (Return, makeToken TOKEN_LEFT_PAREN p)
  else if eqc c ")" then
    if 0 <? numParens p then
      let v :=
        js_sub (elemNumber (array_get (parens p) (numParens p - 1)))
          (Num 1) in
      let p := set_parens (array_set (parens p) (numParens p - 1) v) p in
      if js_num_eqb v (Num 0) then
        let p := set_numParens (numParens p - 1) p in
        do p <- readString fuel p;
        Some (Return, p)
      else Some (Return, makeToken TOKEN_RIGHT_PAREN p)
    else Some (Return, makeToken TOKEN_RIGHT_PAREN p)
  else if eqc c "[" then Some (Return, makeToken TOKEN_LEFT_BRACKET p)
  else if eqc c "]" then Some (Return, makeToken TOKEN_RIGHT_BRACKET p)
  else if eqc c "{" then Some (Return, makeToken TOKEN_LEFT_BRACE p)
  else if eqc c "}" then Some (Return, makeToken TOKEN_RIGHT_BRACE p)
  else if eqc c ":" then Some (Return, makeToken TOKEN_COLON p)
  else if eqc c "," then Some (Return, makeToken TOKEN_COMMA p)
  else if eqc c "*" then Some (Return, makeToken TOKEN_STAR p)
  else if eqc c "%" then Some (Return, makeToken TOKEN_PERCENT p)
  else if eqc c "^" then Some (Return, makeToken TOKEN_CARET p)
  else if eqc c "+" then Some (Return, makeToken TOKEN_PLUS p)
  else if eqc c "-" then Some (Return, makeToken TOKEN_MINUS p)
  else if eqc c "~" then Some (Return, makeToken TOKEN_TILDE p)
  else if eqc c "?" then Some (Return, makeToken TOKEN_QUESTION p)
  else if eqc c "|" then
    Some (Return, twoCharToken "|" TOKEN_PIPEPIPE TOKEN_PIPE p)
  else if eqc c "&" then
    Some (Return, twoCharToken "&" TOKEN_AMPAMP TOKEN_AMP p)
  else if eqc c "=" then
    Some (Return, twoCharToken "=" TOKEN_EQEQ TOKEN_EQ p)
  else if eqc c "!" then
    Some (Return, twoCharToken "=" TOKEN_BANGEQ TOKEN_BANG p)
  else if eqc c "." then
    let '(m, p) := matchChar "." p in
    if m then Some (Return, twoCharToken "." TOKEN_DOTDOTDOT TOKEN_DOTDOT p)
    else Some (Return, makeToken TOKEN_DOT p)
  else if eqc c "/" then
    let '(m, p) := matchChar "/" p in
    if m then
      do p <- skipLineComment fuel p;
      Some (Break, p)
    else
      let '(m, p) := matchChar "*" p in
      if m then
        do p <- skipBlockComment fuel p;
        Some (Break, p)
      else Some (Return, makeToken TOKEN_SLASH p)
  else if eqc c "<" then
    let '(m, p) := matchChar "<" p in
    if m then Some (Return, makeToken TOKEN_LTLT p)
    else Some (Return, twoCharToken "=" TOKEN_LTEQ TOKEN_LT p)
  else if eqc c ">" then
    let '(m, p) := matchChar ">" p in
    if m then Some (Return, makeToken TOKEN_GTGT p)
    else Some (Return, twoCharToken "=" TOKEN_GTEQ TOKEN_GT p)
  else if eqc c "010" then Some (Return, makeToken TOKEN_LINE p)
  else if eqc c " " || eqc c "013" || eqc c "009" then
    do p <- while fuel
              (fun p => eqc (peekChar p) " " || eqc (peekChar p) "013"
                        || eqc (peekChar p) "009")
              skipChar p;
    Some (Break, p)
  else if eqc c dquoteChar then
    do p <- readString fuel p;
    Some (Return, p)
  else if eqc c "_" then
    do p <- readName fuel
              (if eqc (peekChar p) "_" then TOKEN_STATIC_FIELD
               else TOKEN_FIELD) p;
    Some (Return, p)
  else if eqc c "0" then
    if eqc (peekChar p) "x" then
      do p <- readHexNumber fuel p;
      Some (Return, p)
    else
      do p <- readNumber fuel p;
      Some (Return, p)
  else if (currentLine p =? 1) && eqc c "#" && eqc (peekChar p) "!" then
    do p <- skipLineComment fuel p;
    Some (Break, p)
  else if isName c then
    do p <- readName fuel TOKEN_NAME p;
    Some (Return, p)
  else if isDigit c then
    do p <- readNumber fuel p;
    Some (Return, p)
  else
    let p :=
      if js_num_geb (ToNumber c) (Num 32) && js_num_leb (ToNumber c) (Num 126)
      then
        lexError (str "Invalid character '" ++ ToString c ++ str "'.") p
      else lexError (str "Invalid byte 0x" ++ ToString c ++ str ".") p in
    let p := set_cur_type TOKEN_ERROR p in
    let p := set_cur_length 0 p in
    Some (Return, p).

(** The [while (this.peekChar() != '\0')] loop of [nextToken] and the
    code after it. *)
Fixpoint nextTokenLoop (fuel : nat) (p : Parser) : option Parser :=
  match fuel with
  | O => None
  | S f =>
      if negb (eqc (peekChar p) "000") then
        let p := set_tokenStart (currentChar p) p in
        let '(c, p) := nextChar p in
        do (k, p) <- scanToken f c p;
        match k with
        | Return => Some p
        | Break => nextTokenLoop f p
        end
      else
        let p := set_tokenStart (currentChar p) p in
        Some (makeToken TOKEN_EOF p)
  end.

Definition nextToken (fuel : nat) (p : Parser) : option Parser :=
  let p := set_previous (current p) p in
  if isEOF (Token.type (currentToken p)) then Some p
  else nextTokenLoop fuel p.

(** [nextToken] called [n] times in a row. *)
Fixpoint nextTokens (n : nat) (fuel : nat) (p : Parser) : option Parser :=
  match n with
  | O => Some p
  | S n' =>
      do p <- nextToken fuel p;
      nextTokens n' fuel p
  end.

(** The field initialisers of the constructor, before its [for] loop. *)
Definition emptyToken : Token.t := Token.mk None None 0 0 VUndefined.

Definition initParser (source : jsstring) : Parser :=
  mkParser source 0 0 0 RefA RefB emptyToken emptyToken
    (repeat None (Z.to_nat MAX_INTERPOLATION_NESTING)) 0 [] [].

(** [new Parser(source)]. *)
Definition newParser (fuel : nat) (source : jsstring) : option Parser :=
  nextTokens 85 fuel (initParser source).

(** * Vocabulary of the properties *)

(** [frame p q]: going from [p] to [q] keeps the source, the start of the
    token, the two references, the recorded tokens, the type of the
    current token and the depth of the interpolation stack. *)
Record frame (p q : Parser) : Prop := mkFrame {
  fr_source : source q = source p;
  fr_tokenStart : tokenStart q = tokenStart p;
  fr_current : current q = current p;
  fr_previous : previous q = previous p;
  fr_tokens : tokens q = tokens p;
  fr_type : Token.type (currentToken q) = Token.type (currentToken p);
  fr_numParens : numParens q = numParens p
}.

(** [advances p q]: a frame in which the cursor does not move back. *)
Definition advances (p q : Parser) : Prop :=
  frame p q /\ currentChar p <= currentChar q.

(** [loose p q]: as [advances], but the interpolation stack may have been
    pushed or popped within its bound. *)
Record loose (p q : Parser) : Prop := mkLoose {
  lo_source : source q = source p;
  lo_tokenStart : tokenStart q = tokenStart p;
  lo_current : current q = current p;
  lo_previous : previous q = previous p;
  lo_tokens : tokens q = tokens p;
  lo_type : Token.type (currentToken q) = Token.type (currentToken p);
  lo_bound :
    0 <= numParens p <= MAX_INTERPOLATION_NESTING ->
    0 <= numParens q <= MAX_INTERPOLATION_NESTING;
  lo_cursor : currentChar p <= currentChar q
}.

(** The escape sequence after a backslash. *)
Definition readEscape (e : option Z) (p : Parser) : Parser :=
  if eqc e "t" then set_cur_value (VString [9]) p
  else if eqc e "v" then set_cur_value (VString [11]) p
  else if eqc e "x" then
    let '(v, p) := readHexEscape 2 (str "byte") p in
    set_cur_value (VNumber v) p
  else
    lexError
      (str "Invalid escape character '"
       ++ ToString_int (currentChar p - 1) ++ str "'.") p.

(** [emits ty p q]: from [p], the tokenizer scanned on and then made a token
    of type [ty], leaving the state [q]. *)
Record emits (ty : TokenType) (p q : Parser) : Prop := mkEmits {
  em_source : source q = source p;
  em_tokenStart : tokenStart q = tokenStart p;
  em_current : current q = current p;
  em_previous : previous q = previous p;
  em_bound :
    0 <= numParens p <= MAX_INTERPOLATION_NESTING ->
    0 <= numParens q <= MAX_INTERPOLATION_NESTING;
  em_cursor : currentChar p <= currentChar q;
  em_tokens :
    tokens q =
    tokens p ++
      [Entry.mk ty
         (substr (source q) (Some (tokenStart q))
            (currentChar q - tokenStart q))
         (Token.line (currentToken q))];
  em_type : Token.type (currentToken q) = Some ty;
  em_start : Token.start (currentToken q) = Some (tokenStart q);
  em_length : Token.length (currentToken q) = currentChar q - tokenStart q
}.

(** [fails p q]: the tokenizer turned the current token into a zero-length
    error token and recorded nothing. *)
Record fails (p q : Parser) : Prop := mkFails {
  fa_source : source q = source p;
  fa_tokenStart : tokenStart q = tokenStart p;
  fa_current : current q = current p;
  fa_previous : previous q = previous p;
  fa_numParens : numParens q = numParens p;
  fa_cursor : currentChar q = currentChar p;
  fa_tokens : tokens q = tokens p;
  fa_type : Token.type (currentToken q) = Some TOKEN_ERROR;
  fa_length : Token.length (currentToken q) = 0
}.

(** How one case of the [switch] in [nextToken] can end. *)
Inductive scanned (p q : Parser) : control -> Prop :=
| scanned_break : advances p q -> scanned p q Break
| scanned_token ty : ty <> TOKEN_EOF -> emits ty p q -> scanned p q Return
| scanned_error : fails p q -> scanned p q Return.

(** [produced p q]: the loop of [nextToken], started in [p], ended in [q]
    with a token that starts at or after the cursor of [p]: either a token
    recorded in [tokens], whose lexeme is the slice from [tokenStart] to the
    cursor, or a zero-length error token that is not recorded and for which
    one character was consumed. *)
Record produced (p q : Parser) : Prop := mkProduced {
  pr_source : source q = source p;
  pr_current : current q = current p;
  pr_previous : previous q = previous p;
  pr_bound :
    0 <= numParens p <= MAX_INTERPOLATION_NESTING ->
    0 <= numParens q <= MAX_INTERPOLATION_NESTING;
  pr_order : currentChar p <= tokenStart q <= currentChar q;
  pr_token :
    (exists ty,
        tokens q =
        tokens p ++
          [Entry.mk ty
             (substr (source q) (Some (tokenStart q))
                (currentChar q - tokenStart q))
             (Token.line (currentToken q))]
        /\ Token.type (currentToken q) = Some ty
        /\ Token.start (currentToken q) = Some (tokenStart q)
        /\ Token.length (currentToken q) = currentChar q - tokenStart q
        /\ (ty = TOKEN_EOF -> peekChar q = Some 0))
    \/ (tokens q = tokens p
        /\ Token.type (currentToken q) = Some TOKEN_ERROR
        /\ Token.length (currentToken q) = 0
        /\ currentChar q = tokenStart q + 1)
}.

(** The states that calls of [nextToken] reach from the initial state. *)
Inductive reachable (src : jsstring) : Parser -> Prop :=
| reach_init : reachable src (initParser src)
| reach_next fuel p q :
    reachable src p -> nextToken fuel p = Some q -> reachable src q.

(** The invariant of the tokenizer. *)
Record invariant (src : jsstring) (p : Parser) : Prop := mkInvariant {
  inv_source : source p = src;
  inv_current : current p = RefA;
  inv_depth : 0 <= numParens p <= MAX_INTERPOLATION_NESTING;
  inv_cursor : 0 <= tokenStart p <= currentChar p;
  inv_eof :
    isEOF (Token.type (currentToken p)) = true ->
    charAt src (currentChar p) = Some 0
}.

(** The lexeme of the current token: [source.substr(start, length)]. *)
Definition lexeme (p : Parser) : jsstring :=
  substr (source p) (Token.start (currentToken p))
    (Token.length (currentToken p)).

(** The types of the recorded tokens, in order. *)
Definition tokenTypes (p : Parser) : list TokenType :=
  map Entry.type (tokens p).

(** The lexemes of the recorded tokens, in order. *)
Definition tokenValues (p : Parser) : list jsstring :=
  map Entry.value (tokens p).

(** The messages written with [console.warn], in order. *)
Definition warnings (p : Parser) : list jsstring :=
  flat_map (fun e => match e with Warn _ m => [m] | Log _ => [] end)
    (console p).

(** A [")"] ends an interpolation when the stack is not empty and
    decrementing its top counter gives zero. *)
Definition closesInterpolation (p : Parser) : bool :=
  (0 <? numParens p)
  && js_num_eqb
       (js_sub (elemNumber (array_get (parens p) (numParens p - 1))) (Num 1))
       (Num 0).

(** The state in which the [switch] of [nextToken] looks at the character
    under the cursor of [p]. *)
Definition entered (p : Parser) : Parser :=
  skipChar (set_tokenStart (currentChar p) (set_previous (current p) p)).


(** The state after a call of [nextToken] that finds [undefined] under the
    cursor. *)
Definition pastEnd (p : Parser) : Parser :=
  set_cur_length 0
    (set_cur_type TOKEN_ERROR
       (lexError (str "Invalid byte 0xundefined.") (entered p))).

(** The span of the source that the last turn of the loop of [nextToken]
    went over: from [tokenStart] to the cursor. *)
Definition turnSpan (p : Parser) : jsstring :=
  substr (source p) (Some (tokenStart p)) (currentChar p - tokenStart p).

(** The loop of [nextToken] once more, now listing the spans of the source
    that it goes over: the span of every turn that ends with [break]
    (white space or a comment), then the span [made q] that stands for the
    token made: its [lexeme], or with [turnSpan] all that the turn went
    over. *)
Fixpoint nextTokenLoopSpans (made : Parser -> jsstring) (fuel : nat)
  (p : Parser) : option (list jsstring * Parser) :=
  match fuel with
  | O => None
  | S f =>
      if negb (eqc (peekChar p) "000") then
        let p := set_tokenStart (currentChar p) p in
        let '(c, p) := nextChar p in
        do (k, p) <- scanToken f c p;
        match k with
        | Return => Some ([made p], p)
        | Break =>
            do (l, q) <- nextTokenLoopSpans made f p;
            Some (turnSpan p :: l, q)
        end
      else
        let p := set_tokenStart (currentChar p) p in
        let q := makeToken TOKEN_EOF p in
        Some ([made q], q)
  end.

Definition nextTokenSpans (made : Parser -> jsstring) (fuel : nat)
  (p : Parser) : option (list jsstring * Parser) :=
  let p := set_previous (current p) p in
  if isEOF (Token.type (currentToken p)) then Some ([], p)
  else nextTokenLoopSpans made fuel p.

(** The spans that [n] calls of [nextToken] go over. *)
Fixpoint scanSpans (made : Parser -> jsstring) (n : nat) (fuel : nat)
  (p : Parser) : option (list jsstring * Parser) :=
  match n with
  | O => Some ([], p)
  | S n' =>
      do (l, p1) <- nextTokenSpans made fuel p;
      do (l', q) <- scanSpans made n' fuel p1;
      Some (l ++ l', q)
  end.


(** ** The inputs of the examples *)

(** ["a %(1+2) b"], with its quotes. *)
Definition interpolated : jsstring := dquote :: str "a %(1+2) b" ++ [dquote].


(** Nine strings nested through [%(], then [+ 1]:
    ["%("%("%("%("%("%("%("%("%(x)")")")")")")")")" + 1]. *)
Definition nineDeep : jsstring :=
  List.concat (repeat (dquote :: str "%(") 8)
  ++ (dquote :: str "%(x)" ++ [dquote])
  ++ List.concat (repeat (str ")" ++ [dquote]) 8)
  ++ str " + 1".



(** A source that starts with a shebang line. *)
Definition shebang : jsstring := str "#!x" ++ [10] ++ str "y".

(** The same line as the second line of the source. *)
Definition shebangSecond : jsstring :=
  str "y" ++ [10] ++ str "#!x" ++ [10] ++ str "z".

(** A hundred names, each followed by a space. *)
Definition hundredNames : jsstring := List.concat (repeat (str "a ") 100).

(** ** Vocabulary for the parts of the source *)

(** The part of the source from the cursor on. *)
Definition rest (p : Parser) : jsstring :=
  skipn (Z.to_nat (currentChar p)) (source p).

(** [n] calls of [nextChar] in a row. *)
Fixpoint skipChars (n : nat) (p : Parser) : Parser :=
  match n with
  | O => p
  | S n' => skipChars n' (skipChar p)
  end.

(** The number of newlines in a string. *)
Definition newlines (s : jsstring) : Z :=
  Z.of_nat (count_occ Z.eq_dec s 10).

(** What [source[i]] yields for the first character of a string. *)
Definition first (s : jsstring) : option Z := hd_error s.

(** [yields ty lex p q]: the call that led from [p] to [q] recorded one
    token of type [ty] with the lexeme [lex], which starts under the cursor
    of [p] and ends under the cursor of [q], and wrote nothing on the
    console. *)
Record yields (ty : TokenType) (lex : jsstring) (p q : Parser) : Prop :=
  mkYields {
  yi_tokens :
    tokens q = tokens p ++ [Entry.mk ty lex (Token.line (currentToken q))];
  yi_type : Token.type (currentToken q) = Some ty;
  yi_start : Token.start (currentToken q) = Some (currentChar p);
  yi_length : Token.length (currentToken q) = Z.of_nat (List.length lex);
  yi_line : Token.line (currentToken q) =
            if isLINE ty then currentLine q - 1 else currentLine q;
  yi_cursor : currentChar q = currentChar p + Z.of_nat (List.length lex);
  yi_source : source q = source p;
  yi_console : console q = console p;
  yi_depth : numParens q = numParens p
}.

(** The cases of the [switch] of [nextToken] that make a token of one
    character without looking further. *)
Definition singleCharTokens : list (Z * TokenType) :=
  [ (ch "[", TOKEN_LEFT_BRACKET); (ch "]", TOKEN_RIGHT_BRACKET);
    (ch "{", TOKEN_LEFT_BRACE); (ch "}", TOKEN_RIGHT_BRACE);
    (ch ":", TOKEN_COLON); (ch ",", TOKEN_COMMA); (ch "*", TOKEN_STAR);
    (ch "%", TOKEN_PERCENT); (ch "^", TOKEN_CARET); (ch "+", TOKEN_PLUS);
    (ch "-", TOKEN_MINUS); (ch "~", TOKEN_TILDE); (ch "?", TOKEN_QUESTION) ].

(** The characters that have a [case] of their own in the [switch] of
    [nextToken]. *)
Definition caseChars : list Z :=
  map ch
    [ "("; ")"; "["; "]"; "{"; "}"; ":"; ","; "*"; "%"; "^"; "+"; "-";
      "~"; "?"; "|"; "&"; "="; "!"; "."; "/"; "<"; ">"; "010"; " ";
      "013"; "009"; dquoteChar; "_"; "0" ]%char.

(** The characters with which some token, white space or a comment
    starts: those with a [case] of their own, the letters and the
    digits. *)
Definition startsSomething (c : Z) : bool :=
  existsb (Z.eqb c) caseChars || isName (Some c) || isDigit (Some c).

(** The state [p] with the cursor at [c] and the line counter at [l]. *)
Definition moveTo (c l : Z) (p : Parser) : Parser :=
  set_currentLine l (set_currentChar c p).

(** The characters that go on a name: what the loop of [readName] tests. *)
Definition nameChar (c : option Z) : bool := isName c || isDigit c.

(** The white space that the [switch] of [nextToken] skips: space,
    carriage return and tab. *)
Definition blank (c : option Z) : bool :=
  eqc c " " || eqc c "013" || eqc c "009".

(** The type with which [nextToken] calls [readName] for a name that
    starts with [c] and goes on with [s]. *)
Definition nameType (c : Z) (s : jsstring) : TokenType :=
  if c =? ch "_" then
    if eqc (first s) "_" then TOKEN_STATIC_FIELD else TOKEN_FIELD
  else TOKEN_NAME.

(** The state in which the [switch] of [nextToken] looks at the character
    under the cursor of [p], in a turn of the loop that starts in [p]. *)
Definition turned (p : Parser) : Parser :=
  skipChar (set_tokenStart (currentChar p) p).

(** [sameScan r q]: [q] is where the scan [r] stands: the two states
    differ at most in the current token and in the two references. *)
Record sameScan (r q : Parser) : Prop := mkSameScan {
  ss_source : source q = source r;
  ss_tokenStart : tokenStart q = tokenStart r;
  ss_currentChar : currentChar q = currentChar r;
  ss_currentLine : currentLine q = currentLine r;
  ss_parens : parens q = parens r;
  ss_numParens : numParens q = numParens r;
  ss_tokens : tokens q = tokens r;
  ss_console : console q = console r
}.

(** The operators that the [switch] of [nextToken] makes with [matchChar]
    and [twoCharToken]: the lexeme, the characters that must not follow
    for the lexeme to end there, and the type of the token. *)
Definition operators : list (jsstring * list Z * TokenType) :=
  [ (str "|", [ch "|"], TOKEN_PIPE);
    (str "||", [], TOKEN_PIPEPIPE);
    (str "&", [ch "&"], TOKEN_AMP);
    (str "&&", [], TOKEN_AMPAMP);
    (str "=", [ch "="], TOKEN_EQ);
    (str "==", [], TOKEN_EQEQ);
    (str "!", [ch "="], TOKEN_BANG);
    (str "!=", [], TOKEN_BANGEQ);
    (str ".", [ch "."], TOKEN_DOT);
    (str "..", [ch "."], TOKEN_DOTDOT);
    (str "...", [], TOKEN_DOTDOTDOT);
    (str "/", [ch "/"; ch "*"], TOKEN_SLASH);
    (str "<", [ch "<"; ch "="], TOKEN_LT);
    (str "<<", [], TOKEN_LTLT);
    (str "<=", [], TOKEN_LTEQ);
    (str ">", [ch ">"; ch "="], TOKEN_GT);
    (str ">>", [], TOKEN_GTGT);
    (str ">=", [], TOKEN_GTEQ) ].

(** What [source[i + 1]] yields for the second character of a string. *)
Definition second (s : jsstring) : option Z := nth_error s 1.

(** A run of decimal digits. *)
Definition digits (s : jsstring) : Prop :=
  Forall (fun c => isDigit (Some c) = true) s.

(** The fraction of a number literal: nothing, or a point and at least one
    digit. *)
Definition fractionPart (s : jsstring) : Prop :=
  s = [] \/ exists f fs, s = ch "." :: f :: fs /\ digits (f :: fs).

(** The sign of an exponent: nothing, or a minus. *)
Definition signPart (s : jsstring) : Prop := s = [] \/ s = [ch "-"].

(** The exponent of a number literal: nothing, or [e] or [E], a sign and
    at least one digit. *)
Definition exponentPart (s : jsstring) : Prop :=
  s = []
  \/ exists e sign d ds,
      s = e :: sign ++ d :: ds
      /\ (e = ch "e" \/ e = ch "E") /\ signPart sign /\ digits (d :: ds).

(** The characters that [readHexDigit] takes for hexadecimal digits. *)
Definition hexChar (c : option Z) : bool :=
  (gec c "0" && lec c "9") || (gec c "a" && lec c "f")
  || (gec c "A" && lec c "F").

(** The test of the loop of [skipLineComment]: neither a newline nor a
    NUL.  It holds of [undefined]. *)
Definition inLine (c : option Z) : bool :=
  negb (eqc c "010") && negb (eqc c "000").

(** [commentText closed n s]: [s] is text of a block comment, read from
    inside [n] open levels.  With [closed] it goes up to the [*/] that
    closes the outermost level; without, it stops where [n] levels, at
    least one, are still open.  A [/*] opens a level, a [*/] closes one,
    and any other character but NUL is passed over. *)
Inductive commentText : bool -> nat -> jsstring -> Prop :=
| ct_closed : commentText true 0 []
| ct_cut n : commentText false (S n) []
| ct_open b n s :
    commentText b (S (S n)) s ->
    commentText b (S n) (ch "/" :: ch "*" :: s)
| ct_close b n s :
    commentText b n s ->
    commentText b (S n) (ch "*" :: ch "/" :: s)
| ct_char b n c s :
    c <> 0 ->
    (c = ch "/" -> first s <> Some (ch "*")) ->
    (c = ch "*" -> first s <> Some (ch "/")) ->
    commentText b (S n) s ->
    commentText b (S n) (c :: s).

(** What follows the text of a comment: anything when the comment is
    closed, a NUL when it is not. *)
Definition after (b : bool) (tail : jsstring) : jsstring :=
  if b then tail else 0 :: tail.

(** [scansTo ty lex p q]: as [yields], but for what the call wrote on the
    console and did to the interpolation stack, which is left open. *)
Record scansTo (ty : TokenType) (lex : jsstring) (p q : Parser) : Prop :=
  mkScansTo {
  sc_tokens :
    tokens q = tokens p ++ [Entry.mk ty lex (Token.line (currentToken q))];
  sc_type : Token.type (currentToken q) = Some ty;
  sc_start : Token.start (currentToken q) = Some (currentChar p);
  sc_length : Token.length (currentToken q) = Z.of_nat (List.length lex);
  sc_line : Token.line (currentToken q) =
            if isLINE ty then currentLine q - 1 else currentLine q;
  sc_cursor : currentChar q = currentChar p + Z.of_nat (List.length lex);
  sc_source : source q = source p
}.

(** The characters that the loop of [readString] passes over without
    looking further: all but the quote, NUL, [%] and the backslash. *)
Definition stringChar (c : Z) : bool :=
  negb (eqc (Some c) dquoteChar) && negb (eqc (Some c) "000")
  && negb (eqc (Some c) "%") && negb (eqc (Some c) "\").

(** What a hexadecimal digit adds to the value of an escape: a decimal
    digit its value, and a letter nothing, since [c - 'a' + 10] is [NaN]
    for a one-character string [c], which counts as 0 under [|]. *)
Definition hexDigitValue (c : Z) : Z :=
  if isDigit (Some c) then c - ch "0" else 0.

(** [guarded n src]: the source holds a NUL at the offset [n], and the
    character before it is neither a backslash nor a [%], the two
    characters after which [readString] consumes a character unseen. *)
Record guarded (n : Z) (src : jsstring) : Prop := mkGuarded {
  gd_nul : charAt src n = Some 0;
  gd_backslash : charAt src (n - 1) <> Some (ch "\");
  gd_percent : charAt src (n - 1) <> Some (ch "%")
}.

(** [inside n src r]: the state [r] scans the source [src], and its cursor
    stands at or before the offset [n]. *)
Definition inside (n : Z) (src : jsstring) (r : Parser) : Prop :=
  source r = src /\ 0 <= currentChar r <= n.

(** [stackOK p]: every level of the interpolation stack that is in use
    holds a number, the count of its unmatched left parentheses, which is
    at least 1. *)
Definition stackOK (p : Parser) : Prop :=
  0 <= numParens p
  /\ forall i, 0 <= i < numParens p ->
       exists k, array_get (parens p) i = Some (Num k) /\ 1 <= k.

(** [keeps r q]: going from [r] to [q] leaves the interpolation stack as
    it is. *)
Definition keeps (r q : Parser) : Prop :=
  parens q = parens r /\ numParens q = numParens r.




(** * Lemmas *)

(** The methods are unfolded by name in the proofs below, not by [simpl]. *)
#[local] Arguments nextChar : simpl never.
#[local] Arguments skipChar : simpl never.
#[local] Arguments matchChar : simpl never.
#[local] Arguments lexError : simpl never.
#[local] Arguments makeToken : simpl never.
#[local] Arguments twoCharToken : simpl never.
#[local] Arguments makeNumber : simpl never.
#[local] Arguments readHexDigit : simpl never.
#[local] Arguments readHexEscape : simpl never.
#[local] Arguments set_cur_value : simpl never.
#[local] Arguments set_cur_type : simpl never.
#[local] Arguments set_cur_length : simpl never.
#[local] Arguments str : simpl never.
#[local] Arguments substr : simpl never.
#[local] Arguments ToString_int : simpl never.

(** ** How the methods move through the state *)

Lemma frame_refl p : frame p p.
Proof. constructor; auto. Qed.

Lemma frame_trans p q r : frame p q -> frame q r -> frame p r.
Proof.
  intros [] []; constructor; try congruence; auto.
Qed.

Lemma advances_refl p : advances p p.
Proof. split; [apply frame_refl | lia]. Qed.

Lemma advances_trans p q r : advances p q -> advances q r -> advances p r.
Proof.
  intros [F1 C1] [F2 C2]; split; [eapply frame_trans; eauto | lia].
Qed.

Lemma frame_set_currentChar v p : frame p (set_currentChar v p).
Proof. constructor; auto. Qed.

Lemma frame_lexError m p : frame p (lexError m p).
Proof. constructor; auto. Qed.

Lemma frame_set_console v p : frame p (set_console v p).
Proof. constructor; auto. Qed.

Lemma frame_set_cur_value v p : frame p (set_cur_value v p).
Proof.
  constructor; unfold set_cur_value, currentToken, store, deref;
    destruct (current p) eqn:E; simpl; auto; rewrite E; reflexivity.
Qed.

Lemma currentChar_set_cur_value v p :
  currentChar (set_cur_value v p) = currentChar p.
Proof. unfold set_cur_value, store; destruct (current p); reflexivity. Qed.

Lemma frame_nextChar p : frame p (snd (nextChar p)).
Proof.
  unfold nextChar; simpl.
  destruct (eqc (peekChar p) "010"); constructor; auto.
Qed.

Lemma currentChar_nextChar p :
  currentChar (snd (nextChar p)) = currentChar p + 1.
Proof.
  unfold nextChar; simpl. destruct (eqc (peekChar p) "010"); reflexivity.
Qed.

Lemma advances_skipChar p : advances p (skipChar p).
Proof.
  split; [apply frame_nextChar |].
  unfold skipChar; rewrite currentChar_nextChar; lia.
Qed.

Lemma advances_lexError m p : advances p (lexError m p).
Proof. split; [apply frame_lexError | simpl; lia]. Qed.

Lemma advances_set_cur_value v p : advances p (set_cur_value v p).
Proof.
  split; [apply frame_set_cur_value | rewrite currentChar_set_cur_value; lia].
Qed.

Lemma advances_matchChar a p : advances p (snd (matchChar a p)).
Proof.
  unfold matchChar. destruct (negb (eqc (peekChar p) a)); simpl.
  - apply advances_refl.
  - apply advances_skipChar.
Qed.

(** A [while] loop whose body advances, advances. *)
Lemma advances_while cond body :
  (forall p, advances p (body p)) ->
  forall fuel p q, while fuel cond body p = Some q -> advances p q.
Proof.
  intros Hbody; induction fuel as [| f IH]; intros p q H; simpl in H.
  - discriminate.
  - destruct (cond p).
    + eapply advances_trans; [apply Hbody | apply IH, H].
    + injection H as <-; apply advances_refl.
Qed.

Lemma advances_skipLineComment fuel p q :
  skipLineComment fuel p = Some q -> advances p q.
Proof. apply advances_while, advances_skipChar. Qed.

Lemma advances_skipDigits fuel p q :
  skipDigits fuel p = Some q -> advances p q.
Proof. apply advances_while, advances_skipChar. Qed.

Lemma advances_skipBlockCommentLoop :
  forall fuel n p q, skipBlockCommentLoop fuel n p = Some q -> advances p q.
Proof.
  induction fuel as [| f IH]; intros n p q H; simpl in H; [discriminate |].
  destruct (0 <? n).
  - destruct (eqc (peekChar p) "000").
    + injection H as <-; apply advances_lexError.
    + assert (A2 : advances p (skipChar (skipChar p))) by
        (eapply advances_trans; apply advances_skipChar).
      destruct (eqc (peekChar p) "/" && eqc (peekNextChar p) "*");
        [| destruct (eqc (peekChar p) "*" && eqc (peekNextChar p) "/")];
        apply IH in H;
        (eapply advances_trans; [| exact H]);
        first [exact A2 | apply advances_skipChar].
  - injection H as <-; apply advances_refl.
Qed.

Lemma advances_readHexDigit p : advances p (snd (readHexDigit p)).
Proof.
  unfold readHexDigit.
  destruct (nextChar p) as [c p1] eqn:E.
  assert (F : frame p p1) by (replace p1 with (snd (nextChar p)) by
    (rewrite E; reflexivity); apply frame_nextChar).
  assert (C : currentChar p1 = currentChar p + 1) by
    (replace p1 with (snd (nextChar p)) by (rewrite E; reflexivity);
     apply currentChar_nextChar).
  destruct (gec c "0" && lec c "9"); [split; [exact F | simpl; lia] |].
  destruct (gec c "a" && lec c "f"); [split; [exact F | simpl; lia] |].
  destruct (gec c "A" && lec c "F"); [split; [exact F | simpl; lia] |].
  split; simpl; [| lia].
  eapply frame_trans; [exact F | apply frame_set_currentChar].
Qed.

Lemma advances_readHexDigits :
  forall fuel p q, readHexDigits fuel p = Some q -> advances p q.
Proof.
  induction fuel as [| f IH]; intros p q H; simpl in H; [discriminate |].
  pose proof (advances_readHexDigit p) as A.
  destruct (readHexDigit p) as [d p1]; simpl in A.
  destruct (negb (js_num_eqb d (Num (-1)))).
  - eapply advances_trans; [exact A | apply IH, H].
  - injection H as <-; exact A.
Qed.

(** [readHexEscape] may step back over the character before it, and no
    further. *)
Lemma frame_readHexEscapeLoop :
  forall n d v p,
    frame p (snd (readHexEscapeLoop n d v p)) /\
    currentChar p - 1 <= currentChar (snd (readHexEscapeLoop n d v p)).
Proof.
  induction n as [| n IH]; intros d v p; simpl.
  - split; [apply frame_refl | lia].
  - destruct (eqc (peekChar p) dquoteChar || eqc (peekChar p) "000"); simpl.
    + split; [constructor; auto | lia].
    + pose proof (advances_readHexDigit p) as [F C].
      destruct (readHexDigit p) as [digit p1]; simpl in F, C.
      destruct (js_num_eqb digit (Num (-1))); simpl.
      * split; [eapply frame_trans; [exact F | apply frame_lexError] | lia].
      * destruct (IH d (js_bitor (js_mul v (Num 16)) digit) p1) as [F' C'].
        split; [eapply frame_trans; eauto | lia].
Qed.

(** ** Reading the fields back after a write to the current token *)

Lemma source_store r t p : source (store r t p) = source p.
Proof. destruct r; reflexivity. Qed.

Lemma tokenStart_store r t p : tokenStart (store r t p) = tokenStart p.
Proof. destruct r; reflexivity. Qed.

Lemma currentChar_store r t p : currentChar (store r t p) = currentChar p.
Proof. destruct r; reflexivity. Qed.

Lemma currentLine_store r t p : currentLine (store r t p) = currentLine p.
Proof. destruct r; reflexivity. Qed.

Lemma current_store r t p : current (store r t p) = current p.
Proof. destruct r; reflexivity. Qed.

Lemma previous_store r t p : previous (store r t p) = previous p.
Proof. destruct r; reflexivity. Qed.

Lemma parens_store r t p : parens (store r t p) = parens p.
Proof. destruct r; reflexivity. Qed.

Lemma numParens_store r t p : numParens (store r t p) = numParens p.
Proof. destruct r; reflexivity. Qed.

Lemma tokens_store r t p : tokens (store r t p) = tokens p.
Proof. destruct r; reflexivity. Qed.

Lemma console_store r t p : console (store r t p) = console p.
Proof. destruct r; reflexivity. Qed.

Lemma deref_store r t p : deref r (store r t p) = t.
Proof. destruct r; reflexivity. Qed.

Lemma currentToken_store t p : currentToken (store (current p) t p) = t.
Proof. unfold currentToken. rewrite current_store. apply deref_store. Qed.

Lemma currentToken_set_tokens v p :
  currentToken (set_tokens v p) = currentToken p.
Proof. unfold currentToken; destruct (current p) eqn:E; simpl; rewrite E; reflexivity. Qed.

Create Rewrite HintDb parser.
#[local] Hint Rewrite source_store tokenStart_store currentChar_store
  currentLine_store current_store previous_store parens_store
  numParens_store tokens_store console_store currentToken_store
  currentToken_set_tokens : parser.

(** The state after [makeToken]: one write to the current token and one
    push on [tokens]. *)
Lemma makeToken_eq type p :
  makeToken type p =
  let t :=
    Token.mk (Some type) (Some (tokenStart p))
      (currentChar p - tokenStart p)
      (if isLINE type then currentLine p - 1 else currentLine p)
      (Token.value (currentToken p)) in
  set_tokens
    (tokens p ++
       [Entry.mk type
          (substr (source p) (Some (tokenStart p))
             (currentChar p - tokenStart p))
          (Token.line t)])
    (store (current p) t p).
Proof.
  destruct p as [src ts cc cl cur prev a b ps np toks con].
  destruct cur; destruct type; reflexivity.
Qed.

Lemma loose_of_advances p q : advances p q -> loose p q.
Proof.
  intros [[] C]; constructor; auto; congruence.
Qed.

Lemma loose_refl p : loose p p.
Proof. apply loose_of_advances, advances_refl. Qed.

Lemma loose_trans p q r : loose p q -> loose q r -> loose p r.
Proof.
  intros [] []; constructor; try congruence; auto; lia.
Qed.

Ltac name_nextChar p c p1 F C :=
  let E := fresh "E" in
  destruct (nextChar p) as [c p1] eqn:E;
  assert (F : frame p p1) by
    (replace p1 with (snd (nextChar p)) by (rewrite E; reflexivity);
     apply frame_nextChar);
  assert (C : currentChar p1 = currentChar p + 1) by
    (replace p1 with (snd (nextChar p)) by (rewrite E; reflexivity);
     apply currentChar_nextChar);
  clear E.

(** Pushing a level on the interpolation stack, under the guard of
    [readString]. *)
Lemma loose_push p v :
  numParens p < MAX_INTERPOLATION_NESTING ->
  loose p (set_numParens (numParens p + 1)
             (set_parens (array_set (parens p) (numParens p) v) p)).
Proof.
  intros N; constructor; simpl; auto; try lia.
Qed.

Lemma frame_readEscape e p :
  frame p (readEscape e p) /\
  currentChar p - 1 <= currentChar (readEscape e p).
Proof.
  unfold readEscape.
  destruct (eqc e "t");
    [split; [apply frame_set_cur_value
            | rewrite currentChar_set_cur_value; lia] |].
  destruct (eqc e "v");
    [split; [apply frame_set_cur_value
            | rewrite currentChar_set_cur_value; lia] |].
  destruct (eqc e "x").
  - unfold readHexEscape.
    destruct (frame_readHexEscapeLoop 2 (str "byte") (Num 0) p) as [F C].
    destruct (readHexEscapeLoop 2 (str "byte") (Num 0) p) as [v p1].
    simpl in F, C. split.
    + eapply frame_trans; [exact F | apply frame_set_cur_value].
    + rewrite currentChar_set_cur_value; lia.
  - split; [apply frame_lexError | simpl; lia].
Qed.

(** The body of a string: the loop of [readString] keeps the loose frame,
    and ends with one of the two string token types. *)
Lemma loose_readStringLoop :
  forall fuel p ty q,
    readStringLoop fuel p = Some (ty, q) ->
    loose p q /\ (ty = TOKEN_STRING \/ ty = TOKEN_INTERPOLATION).
Proof.
  induction fuel as [| f IH]; intros p ty q H; [discriminate |].
  cbn [readStringLoop] in H.
  name_nextChar p c p1 F1 C1.
  destruct (eqc c dquoteChar).
  { injection H as <- <-.
    split; [apply loose_of_advances; split; [exact F1 | lia] | auto]. }
  destruct (eqc c "000").
  { injection H as <- <-. split; [| auto].
    apply loose_of_advances; split; simpl; [| lia].
    eapply frame_trans; [exact F1 | constructor; auto]. }
  assert (A1 : loose p p1) by
    (apply loose_of_advances; split; [exact F1 | lia]).
  assert (Tail : forall p2,
             advances p1 p2 ->
             (if eqc c "\" then
                let p3 := set_console (console p2 ++ [Log 123]) p2 in
                let '(e, p4) := nextChar p3 in
                readStringLoop f (readEscape e p4)
              else readStringLoop f p2) = Some (ty, q) ->
             loose p q /\ (ty = TOKEN_STRING \/ ty = TOKEN_INTERPOLATION)).
  { intros p2 [F2 C2] H2.
    destruct (eqc c "\").
    - cbv zeta in H2.
      name_nextChar (set_console (console p2 ++ [Log 123]) p2) e p4 F4 C4.
      simpl in C4.
      destruct (frame_readEscape e p4) as [F5 C5].
      apply IH in H2 as [L T]. split; [| exact T].
      eapply loose_trans; [exact A1 |].
      eapply loose_trans; [| exact L].
      apply loose_of_advances; split; [| lia].
      eapply frame_trans; [exact F2 |].
      eapply frame_trans; [apply frame_set_console |].
      eapply frame_trans; [exact F4 | exact F5].
    - apply IH in H2 as [L T]. split; [| exact T].
      eapply loose_trans; [exact A1 |].
      eapply loose_trans; [| exact L].
      apply loose_of_advances; split; [exact F2 | lia]. }
  destruct (eqc c "%").
  - destruct (numParens p1 <? MAX_INTERPOLATION_NESTING) eqn:N.
    + name_nextChar p1 c2 p2 F2 C2.
      injection H as <- <-. split; [| auto].
      apply Z.ltb_lt in N.
      eapply loose_trans; [exact A1 |].
      assert (A2 : advances p1
                (if negb (eqc c2 "(")
                 then lexError (str "Expect '(' after '%%'.") p2 else p2)).
      { split.
        - destruct (negb (eqc c2 "("));
            [eapply frame_trans; [exact F2 | apply frame_lexError]
            | exact F2].
        - destruct (negb (eqc c2 "(")); simpl; lia. }
      eapply loose_trans; [apply loose_of_advances, A2 |].
      apply loose_push. destruct A2 as [[] _]. lia.
    + eapply Tail; [apply advances_lexError | exact H].
  - apply (Tail _ (advances_refl p1)). exact H.
Qed.

(** ** What a call of [makeToken] leaves behind *)

Lemma emits_makeToken ty p r : loose p r -> emits ty p (makeToken ty r).
Proof.
  intros [].
  rewrite makeToken_eq; cbv zeta.
  constructor; simpl; autorewrite with parser; simpl; auto; congruence.
Qed.

Lemma scanned_makeToken ty p r :
  ty <> TOKEN_EOF -> loose p r -> scanned p (makeToken ty r) Return.
Proof.
  intros N L. apply scanned_token with ty; [exact N |].
  apply emits_makeToken, L.
Qed.

Lemma scanned_twoCharToken a two one p r :
  two <> TOKEN_EOF -> one <> TOKEN_EOF -> loose p r ->
  scanned p (twoCharToken a two one r) Return.
Proof.
  intros N2 N1 L. unfold twoCharToken.
  pose proof (advances_matchChar a r) as A.
  destruct (matchChar a r) as [m r1]; simpl in A.
  apply scanned_makeToken; [destruct m; assumption |].
  eapply loose_trans; [exact L | apply loose_of_advances, A].
Qed.

Lemma scanned_makeNumber isHex p r :
  loose p r -> scanned p (makeNumber isHex r) Return.
Proof.
  intros L. unfold makeNumber. apply scanned_makeToken; [discriminate |].
  eapply loose_trans; [exact L |].
  destruct isHex; apply loose_of_advances, advances_set_cur_value.
Qed.

Lemma scanned_readHexNumber fuel p r q :
  loose p r -> readHexNumber fuel r = Some q -> scanned p q Return.
Proof.
  intros L H. unfold readHexNumber in H.
  destruct (readHexDigits fuel (skipChar r)) as [r1 |] eqn:E;
    [| discriminate].
  injection H as <-. apply scanned_makeNumber.
  eapply loose_trans; [exact L |].
  apply loose_of_advances.
  eapply advances_trans; [apply advances_skipChar |].
  eapply advances_readHexDigits, E.
Qed.

Lemma scanned_readNumber fuel p r q :
  loose p r -> readNumber fuel r = Some q -> scanned p q Return.
Proof.
  intros L H. unfold readNumber in H.
  destruct (skipDigits fuel r) as [r1 |] eqn:E1; [| discriminate].
  apply advances_skipDigits in E1.
  match type of H with
  | match ?e with _ => _ end = _ => destruct e as [r2 |] eqn:E2
  end; [| discriminate].
  assert (A2 : advances r1 r2).
  { destruct (eqc (peekChar r1) "." && isDigit (peekNextChar r1)).
    - eapply advances_trans;
        [apply advances_skipChar | eapply advances_skipDigits, E2].
    - injection E2 as <-; apply advances_refl. }
  clear E2.
  pose proof (advances_matchChar "e" r2) as A3.
  destruct (matchChar "e" r2) as [m1 r3]; simpl in A3.
  assert (exists m r4,
            (if m1 then (true, r3) else matchChar "E" r3) = (m, r4)
            /\ advances r3 r4) as (m & r4 & Em & A4).
  { destruct m1.
    - exists true, r3; split; [reflexivity | apply advances_refl].
    - pose proof (advances_matchChar "E" r3) as A.
      destruct (matchChar "E" r3) as [m r4]; simpl in A.
      exists m, r4; split; [reflexivity | exact A]. }
  rewrite Em in H. clear Em.
  match type of H with
  | match ?e with _ => _ end = _ => destruct e as [r5 |] eqn:E5
  end; [| discriminate].
  injection H as <-. apply scanned_makeNumber.
  eapply loose_trans; [exact L |]. apply loose_of_advances.
  eapply advances_trans; [exact E1 |].
  eapply advances_trans; [exact A2 |].
  eapply advances_trans; [exact A3 |].
  eapply advances_trans; [exact A4 |].
  destruct m.
  - apply advances_skipDigits in E5.
    eapply advances_trans; [apply (advances_matchChar "-") |].
    eapply advances_trans; [| exact E5].
    destruct (negb (isDigit (peekChar (snd (matchChar "-" r4)))));
      [apply advances_lexError | apply advances_refl].
  - injection E5 as <-; apply advances_refl.
Qed.

(** The sentinel of the keyword table never matches: no name is [null]. *)
Lemma lookupKeyword_not_EOF kws name ty :
  Forall (fun k => identifier k = None \/ tokenType k <> TOKEN_EOF) kws ->
  ty <> TOKEN_EOF -> lookupKeyword kws name ty <> TOKEN_EOF.
Proof.
  intros F N. induction F as [| k kws [Hk | Hk] _ IH]; simpl; auto.
  - rewrite Hk, andb_false_r. exact IH.
  - destruct (_ && _); auto.
Qed.

Lemma keywords_not_EOF :
  Forall (fun k => identifier k = None \/ tokenType k <> TOKEN_EOF) keywords.
Proof.
  unfold keywords.
  repeat (constructor; [simpl; first [right; discriminate | left; reflexivity] |]).
  constructor.
Qed.

Lemma scanned_readName fuel ty p r q :
  ty <> TOKEN_EOF -> loose p r -> readName fuel ty r = Some q ->
  scanned p q Return.
Proof.
  intros N L H. unfold readName in H.
  match type of H with
  | match ?e with _ => _ end = _ => destruct e as [r1 |] eqn:E1
  end; [| discriminate].
  apply advances_while in E1; [| apply advances_skipChar].
  injection H as <-. apply scanned_makeToken.
  - exact (lookupKeyword_not_EOF keywords _ ty keywords_not_EOF N).
  - eapply loose_trans; [exact L | apply loose_of_advances, E1].
Qed.

Lemma scanned_readString fuel p r q :
  loose p r -> readString fuel r = Some q ->
  exists ty, (ty = TOKEN_STRING \/ ty = TOKEN_INTERPOLATION) /\ emits ty p q.
Proof.
  intros L H. unfold readString in H.
  destruct (readStringLoop fuel r) as [[ty r1] |] eqn:E; [| discriminate].
  injection H as <-. apply loose_readStringLoop in E as [L1 T].
  exists ty; split; [exact T |].
  apply emits_makeToken. eapply loose_trans; eauto.
Qed.

Lemma loose_set_parens v p : loose p (set_parens v p).
Proof. constructor; simpl; auto; lia. Qed.

Lemma loose_pop v n p :
  0 < numParens p -> n = numParens p - 1 ->
  loose p (set_numParens n (set_parens v p)).
Proof. intros N ->; constructor; simpl; auto; lia. Qed.

Lemma fails_error m p :
  fails p (set_cur_length 0 (set_cur_type TOKEN_ERROR (lexError m p))).
Proof.
  unfold set_cur_length, set_cur_type, lexError.
  constructor; autorewrite with parser; reflexivity.
Qed.

(** Chains the [advances] facts of the context. *)
Ltac chain :=
  first
    [ apply advances_refl
    | eassumption
    | eapply advances_trans; [eassumption | chain] ].

Ltac looseness :=
  first
    [ apply loose_refl
    | apply loose_set_parens
    | apply loose_pop; [assumption | reflexivity]
    | apply loose_of_advances; chain ].

Ltac finish :=
  match goal with
  | |- scanned _ (makeToken _ (if ?b then _ else _)) Return =>
      destruct b; (apply scanned_makeToken; [discriminate | looseness])
  | |- scanned _ (makeToken _ _) Return =>
      apply scanned_makeToken; [discriminate | looseness]
  | |- scanned _ (twoCharToken _ _ _ _) Return =>
      apply scanned_twoCharToken; [discriminate | discriminate | looseness]
  | E : readName ?f ?ty ?r = Some ?q |- scanned ?p ?q Return =>
      apply (scanned_readName f ty p r q);
      [ try destruct (eqc (peekChar r) "_"); discriminate
      | looseness | exact E ]
  | E : readNumber ?f ?r = Some ?q |- scanned ?p ?q Return =>
      apply (scanned_readNumber f p r q); [looseness | exact E]
  | E : readHexNumber ?f ?r = Some ?q |- scanned ?p ?q Return =>
      apply (scanned_readHexNumber f p r q); [looseness | exact E]
  | E : readString ?f ?r = Some ?q |- scanned ?p ?q Return =>
      let ty := fresh "ty" in
      let Em := fresh "Em" in
      destruct (scanned_readString f p r q ltac:(looseness) E)
        as (ty & [-> | ->] & Em);
      [ apply scanned_token with TOKEN_STRING
      | apply scanned_token with TOKEN_INTERPOLATION ];
      first [discriminate | exact Em]
  | E : skipLineComment _ ?r = Some ?q |- scanned ?p ?q Break =>
      apply advances_skipLineComment in E; apply scanned_break; chain
  | E : skipBlockComment _ ?r = Some ?q |- scanned ?p ?q Break =>
      apply advances_skipBlockCommentLoop in E; apply scanned_break; chain
  | E : while _ _ skipChar ?r = Some ?q |- scanned ?p ?q Break =>
      apply advances_while in E; [| apply advances_skipChar];
      apply scanned_break; chain
  | |- scanned _ (set_cur_length 0 (set_cur_type TOKEN_ERROR _)) Return =>
      apply scanned_error;
      match goal with
      | |- context [if ?b then _ else _] => destruct b
      end; apply fails_error
  end.

(** Every case of the [switch] ends in one of the three ways. *)
Lemma scanToken_scanned fuel c p k q :
  scanToken fuel c p = Some (k, q) -> scanned p q k.
Proof.
  unfold scanToken; intros H.
  repeat match type of H with
    | (if 0 <? numParens p then _ else _) = _ =>
        destruct (0 <? numParens p) eqn:N; [apply Z.ltb_lt in N |]
    | (if ?b then _ else _) = _ => destruct b
    | (let '(_, _) := matchChar ?a ?r in _) = _ =>
        let A := fresh "A" in
        pose proof (advances_matchChar a r) as A;
        destruct (matchChar a r) as [? ?]; simpl in A
    | match ?e with Some _ => _ | None => _ end = _ =>
        let E := fresh "E" in
        destruct e eqn:E; [| discriminate]
    | Some _ = Some _ => injection H as <- <-
    end;
    try finish.
Qed.

(** ** One call of [nextToken] *)

Lemma eqc_NUL c : eqc c "000" = true -> c = Some 0.
Proof.
  destruct c as [z |]; simpl; [| discriminate].
  intros H; apply Z.eqb_eq in H; rewrite H; reflexivity.
Qed.

Lemma peekChar_makeToken ty p : peekChar (makeToken ty p) = peekChar p.
Proof.
  rewrite makeToken_eq; cbv zeta. unfold peekChar; simpl.
  autorewrite with parser. reflexivity.
Qed.

Lemma nextTokenLoop_produced :
  forall fuel p q, nextTokenLoop fuel p = Some q -> produced p q.
Proof.
  induction fuel as [| f IH]; intros p q H; [discriminate |].
  cbn [nextTokenLoop] in H.
  destruct (negb (eqc (peekChar p) "000")) eqn:Z.
  - name_nextChar (set_tokenStart (currentChar p) p) c p1 F C.
    destruct F as [Fs Ft Fc Fp Fk Fy Fn]; simpl in *.
    destruct (scanToken f c p1) as [[k r] |] eqn:S; [| discriminate].
    apply scanToken_scanned in S.
    destruct k.
    + injection H as <-.
      inversion S as [| ty N [] | []]; subst.
      * constructor; try congruence; try lia;
          try (intros; apply em_bound0; lia).
        left; exists ty; repeat split; auto; try congruence.
      * constructor; try congruence; try lia.
        right; repeat split; auto; try congruence; lia.
    + apply IH in H as []. inversion S as [[[] Cr] | |]; subst.
      constructor; try congruence; try lia;
        try (intros; apply pr_bound0; lia).
      destruct pr_token0 as [(ty & T & Rest) | (T & Rest)];
        [left; exists ty | right]; split; auto; congruence.
  - injection H as <-.
    apply negb_false_iff, eqc_NUL in Z.
    assert (P : peekChar
                  (makeToken TOKEN_EOF (set_tokenStart (currentChar p) p))
                = Some 0) by (rewrite peekChar_makeToken; exact Z).
    pose proof (emits_makeToken TOKEN_EOF _ _
                  (loose_refl (set_tokenStart (currentChar p) p))) as Em.
    set (q := makeToken TOKEN_EOF (set_tokenStart (currentChar p) p)) in *.
    clearbody q.
    destruct Em as [Es Et Ec Ep Eb Ecur Etok Ety Est Elen].
    simpl in Es, Et, Ec, Ep, Eb, Ecur, Etok.
    constructor; auto; [lia |].
    left; exists TOKEN_EOF; repeat split; auto.
Qed.

Lemma currentToken_set_previous v p :
  currentToken (set_previous v p) = currentToken p.
Proof.
  unfold currentToken; simpl. destruct (current p); reflexivity.
Qed.

(** A call of [nextToken] either finds the end-of-file token and returns at
    once, or produces a token. *)
Lemma nextToken_cases fuel p q :
  nextToken fuel p = Some q ->
  (isEOF (Token.type (currentToken p)) = true
   /\ q = set_previous (current p) p)
  \/ (isEOF (Token.type (currentToken p)) = false
      /\ produced (set_previous (current p) p) q).
Proof.
  unfold nextToken; cbv zeta. rewrite currentToken_set_previous.
  destruct (isEOF (Token.type (currentToken p))); intros H.
  - left; split; [reflexivity | congruence].
  - right; split; [reflexivity | apply nextTokenLoop_produced with fuel, H].
Qed.

(** ** The states a tokenizer can be in *)

Lemma nextTokens_reachable src :
  forall n fuel p q,
    reachable src p -> nextTokens n fuel p = Some q -> reachable src q.
Proof.
  induction n as [| n IH]; intros fuel p q R H; simpl in H.
  - injection H as <-; exact R.
  - destruct (nextToken fuel p) as [p1 |] eqn:E; [| discriminate].
    eapply IH; [eapply reach_next; eauto | exact H].
Qed.

Lemma reachable_invariant src p : reachable src p -> invariant src p.
Proof.
  induction 1 as [| fuel p q R IH H].
  - constructor; simpl; try reflexivity; try lia; try discriminate.
    unfold MAX_INTERPOLATION_NESTING; lia.
  - destruct IH.
    apply nextToken_cases in H as [[E ->] | [E []]]; simpl in *.
    + constructor; simpl; auto.
    + constructor; try congruence; auto; try lia.
      destruct pr_token0 as [(ty & _ & Ty & _ & _ & Z) | (_ & Ty & _)];
        rewrite Ty; simpl.
      * destruct ty; try discriminate. intros _.
        specialize (Z eq_refl). unfold peekChar in Z. congruence.
      * discriminate.
Qed.

(** ** More fuel changes nothing *)

Lemma while_fuel cond body :
  forall f f' p q,
    while f cond body p = Some q -> (f <= f')%nat ->
    while f' cond body p = Some q.
Proof.
  induction f as [| f IH]; intros f' p q H L; [discriminate |].
  destruct f' as [| f']; [lia |]. simpl in *.
  destruct (cond p); [apply IH; [exact H | lia] | exact H].
Qed.

Lemma skipBlockCommentLoop_fuel :
  forall f f' n p q,
    skipBlockCommentLoop f n p = Some q -> (f <= f')%nat ->
    skipBlockCommentLoop f' n p = Some q.
Proof.
  induction f as [| f IH]; intros f' n p q H L; [discriminate |].
  destruct f' as [| f']; [lia |]. simpl in *.
  repeat match goal with
    | |- (if ?b then _ else _) = _ => destruct b
    end; auto; apply IH; auto; lia.
Qed.

Lemma readHexDigits_fuel :
  forall f f' p q,
    readHexDigits f p = Some q -> (f <= f')%nat ->
    readHexDigits f' p = Some q.
Proof.
  induction f as [| f IH]; intros f' p q H L; [discriminate |].
  destruct f' as [| f']; [lia |]. cbn [readHexDigits] in *.
  destruct (readHexDigit p) as [d p1].
  destruct (negb (js_num_eqb d (Num (-1)))); [apply IH; [exact H | lia] | exact H].
Qed.

Lemma readStringLoop_fuel :
  forall f f' p r,
    readStringLoop f p = Some r -> (f <= f')%nat ->
    readStringLoop f' p = Some r.
Proof.
  induction f as [| f IH]; intros f' p r H L; [discriminate |].
  destruct f' as [| f']; [lia |]. cbn [readStringLoop] in *.
  destruct (nextChar p) as [c p1].
  repeat match goal with
    | |- (if ?b then _ else _) = _ => destruct b
    | |- (let '(_, _) := ?e in _) = _ => destruct e
    | |- match ?e with inl _ => _ | inr _ => _ end = _ => destruct e
    end; auto; apply IH; auto; lia.
Qed.

(** Carries a result over to more fuel through one of the lemmas above. *)
Ltac refuel lemma f' :=
  match goal with
  | H : match ?e with Some _ => _ | None => _ end = Some _ |- _ =>
      let E := fresh "E" in
      destruct e eqn:E; [| discriminate];
      eapply lemma with (f' := f') in E; [| eassumption];
      try (unfold skipDigits, skipLineComment, skipBlockComment in E |- *);
      rewrite E
  end.

Lemma readNumber_fuel f f' p q :
  readNumber f p = Some q -> (f <= f')%nat -> readNumber f' p = Some q.
Proof.
  unfold readNumber, skipDigits; intros H L.
  refuel while_fuel f'.
  destruct (eqc _ "." && isDigit _).
  - refuel while_fuel f'.
    destruct (let '(m1, p1) := matchChar "e" p1 in _) as [m p2].
    destruct m; [refuel while_fuel f' |]; exact H.
  - destruct (let '(m1, p1) := matchChar "e" p0 in _) as [m p2].
    destruct m; [refuel while_fuel f' |]; exact H.
Qed.

Lemma readHexNumber_fuel f f' p q :
  readHexNumber f p = Some q -> (f <= f')%nat -> readHexNumber f' p = Some q.
Proof.
  unfold readHexNumber; intros H L.
  refuel readHexDigits_fuel f'. exact H.
Qed.

Lemma readName_fuel f f' ty p q :
  readName f ty p = Some q -> (f <= f')%nat -> readName f' ty p = Some q.
Proof.
  unfold readName; intros H L.
  refuel while_fuel f'. exact H.
Qed.

Lemma readString_fuel f f' p q :
  readString f p = Some q -> (f <= f')%nat -> readString f' p = Some q.
Proof.
  unfold readString; intros H L.
  refuel readStringLoop_fuel f'. exact H.
Qed.

Lemma scanToken_fuel f f' c p r :
  scanToken f c p = Some r -> (f <= f')%nat -> scanToken f' c p = Some r.
Proof.
  unfold scanToken; intros H L.
  repeat match goal with
    | |- (if ?b then _ else _) = _ => destruct b
    | |- (let '(_, _) := ?e in _) = _ => destruct e
    end;
    try exact H;
    first
      [ refuel readString_fuel f'
      | refuel readName_fuel f'
      | refuel readNumber_fuel f'
      | refuel readHexNumber_fuel f'
      | refuel skipBlockCommentLoop_fuel f'
      | refuel while_fuel f' ];
    exact H.
Qed.

Lemma nextTokenLoop_fuel :
  forall f f' p q,
    nextTokenLoop f p = Some q -> (f <= f')%nat ->
    nextTokenLoop f' p = Some q.
Proof.
  induction f as [| f IH]; intros f' p q H L; [discriminate |].
  destruct f' as [| f']; [lia |]. cbn [nextTokenLoop] in *.
  destruct (negb (eqc (peekChar p) "000")); [| exact H].
  destruct (nextChar _) as [c p1].
  destruct (scanToken f c p1) as [[k r] |] eqn:E; [| discriminate].
  rewrite (scanToken_fuel f f' c p1 (k, r) E) by lia.
  destruct k; [exact H | apply IH; [exact H | lia]].
Qed.

(** A call of [nextToken] that returns with some fuel returns the same
    state with any larger fuel. *)
Lemma nextToken_fuel f f' p q :
  nextToken f p = Some q -> (f <= f')%nat -> nextToken f' p = Some q.
Proof.
  unfold nextToken; cbv zeta; intros H L.
  destruct (isEOF _); [exact H | eapply nextTokenLoop_fuel; eauto].
Qed.

Lemma nextTokens_fuel :
  forall n f f' p q,
    nextTokens n f p = Some q -> (f <= f')%nat ->
    nextTokens n f' p = Some q.
Proof.
  induction n as [| n IH]; intros f f' p q H L; [exact H |].
  cbn [nextTokens] in *.
  destruct (nextToken f p) as [p1 |] eqn:E; [| discriminate].
  rewrite (nextToken_fuel f f' p p1 E L). eapply IH; eauto.
Qed.

(** So the state after [n] calls does not depend on the fuel. *)
Lemma nextTokens_fuel_irrelevant n f f' p q q' :
  nextTokens n f p = Some q -> nextTokens n f' p = Some q' -> q = q'.
Proof.
  intros H H'.
  apply nextTokens_fuel with (f' := Nat.max f f') in H; [| lia].
  apply nextTokens_fuel with (f' := Nat.max f f') in H'; [| lia].
  congruence.
Qed.

(** ** Past the end of the source *)

Lemma peekChar_pastEnd p :
  Z.of_nat (List.length (source p)) <= currentChar p -> peekChar p = None.
Proof.
  intros H. unfold peekChar, charAt.
  destruct (currentChar p <? 0) eqn:E; [reflexivity |].
  apply nth_error_None. lia.
Qed.

Lemma nextChar_peek p : nextChar p = (peekChar p, skipChar p).
Proof. reflexivity. Qed.

Lemma peekChar_entered_outer p :
  peekChar (set_previous (current p) p) = peekChar p.
Proof. reflexivity. Qed.

(** The [switch] on [undefined]: the default case, and in it the error
    branch with the message for a byte. *)
Lemma scanToken_undefined f p :
  scanToken f None p =
  Some (Return,
        set_cur_length 0
          (set_cur_type TOKEN_ERROR
             (lexError (str "Invalid byte 0xundefined.") p))).
Proof.
  unfold scanToken. cbn [eqc orb andb isName isDigit gec lec ToNumber
                           js_num_geb].
  rewrite andb_false_r. cbn [andb].
  replace (str "Invalid byte 0x" ++ ToString None ++ str ".")
    with (str "Invalid byte 0xundefined.") by (vm_compute; reflexivity).
  reflexivity.
Qed.

(** With [undefined] under the cursor, a call of [nextToken] makes an
    error token and moves the cursor on. *)
Lemma nextToken_pastEnd f p :
  peekChar p = None ->
  isEOF (Token.type (currentToken p)) = false ->
  nextToken (S f) p = Some (pastEnd p).
Proof.
  intros P E. unfold nextToken; cbv zeta.
  rewrite currentToken_set_previous, E.
  cbn [nextTokenLoop]. rewrite peekChar_entered_outer, P.
  cbn [eqc negb]. rewrite nextChar_peek.
  change (peekChar (set_tokenStart (currentChar (set_previous (current p) p))
                      (set_previous (current p) p))) with (peekChar p).
  rewrite P, scanToken_undefined. unfold pastEnd, entered.
  reflexivity.
Qed.

Lemma frame_entered p :
  source (entered p) = source p
  /\ currentChar (entered p) = currentChar p + 1
  /\ tokens (entered p) = tokens p
  /\ numParens (entered p) = numParens p
  /\ parens (entered p) = parens p
  /\ current (entered p) = current p
  /\ previous (entered p) = current p
  /\ tokenStart (entered p) = currentChar p.
Proof.
  unfold entered, skipChar, nextChar; cbn [snd].
  destruct (eqc _ "010"); repeat split.
Qed.

Lemma pastEnd_fields p :
  source (pastEnd p) = source p
  /\ currentChar (pastEnd p) = currentChar p + 1
  /\ tokens (pastEnd p) = tokens p
  /\ Token.type (currentToken (pastEnd p)) = Some TOKEN_ERROR
  /\ Token.length (currentToken (pastEnd p)) = 0
  /\ previous (pastEnd p) = current (pastEnd p).
Proof.
  destruct (frame_entered p) as (S & C & T & _ & _ & Cu & Pr & _).
  unfold pastEnd, set_cur_length, set_cur_type, lexError.
  autorewrite with parser. simpl. repeat split; congruence.
Qed.

(** From then on every call does the same: the end-of-file token is never
    made. *)
Lemma nextTokens_pastEnd :
  forall n f p,
    Z.of_nat (List.length (source p)) <= currentChar p ->
    isEOF (Token.type (currentToken p)) = false ->
    exists q,
      nextTokens n (S f) p = Some q
      /\ source q = source p
      /\ currentChar q = currentChar p + Z.of_nat n
      /\ tokens q = tokens p
      /\ isEOF (Token.type (currentToken q)) = false.
Proof.
  induction n as [| n IH]; intros f p L E.
  - exists p; repeat split; auto. simpl; lia.
  - cbn [nextTokens].
    rewrite (nextToken_pastEnd f p (peekChar_pastEnd p L) E).
    destruct (pastEnd_fields p) as (S & C & T & Ty & _ & _).
    destruct (IH f (pastEnd p)) as (q & R & Sq & Cq & Tq & Eq).
    + rewrite S, C; lia.
    + rewrite Ty; reflexivity.
    + exists q; repeat split; auto; try congruence. lia.
Qed.

(** A string whose body runs past the end of the source is never closed:
    the loop of [readString] does not end. *)
Lemma readStringLoop_pastEnd :
  forall fuel p,
    Z.of_nat (List.length (source p)) <= currentChar p ->
    readStringLoop fuel p = None.
Proof.
  induction fuel as [| f IH]; intros p L; [reflexivity |].
  cbn [readStringLoop]. rewrite nextChar_peek, (peekChar_pastEnd p L).
  cbn [eqc]. apply IH.
  pose proof (advances_skipChar p) as [[] C]. 
  unfold skipChar in *. rewrite fr_source0.
  rewrite currentChar_nextChar. lia.
Qed.

(** The end-of-file token is made only on a NUL character. *)
Lemma EOF_needs_NUL src p :
  ~ In 0 src -> reachable src p ->
  isEOF (Token.type (currentToken p)) = false.
Proof.
  intros N R. apply reachable_invariant in R as [].
  destruct (isEOF (Token.type (currentToken p))); [| reflexivity].
  exfalso; apply N. specialize (inv_eof0 eq_refl).
  unfold charAt in inv_eof0.
  destruct (currentChar p <? 0); [discriminate |].
  eapply nth_error_In, inv_eof0.
Qed.

(** ** Dispatch on the character under the cursor *)

Lemma nextToken_dispatch f p c :
  isEOF (Token.type (currentToken p)) = false ->
  peekChar p = Some c -> c <> 0 ->
  nextToken (S f) p =
  do (k, q) <- scanToken f (Some c) (entered p);
  match k with
  | Return => Some q
  | Break => nextTokenLoop f q
  end.
Proof.
  intros E P N. unfold nextToken; cbv zeta.
  rewrite currentToken_set_previous, E.
  cbn [nextTokenLoop]. rewrite peekChar_entered_outer, P.
  replace (eqc (Some c) "000") with false
    by (symmetry; apply Z.eqb_neq; exact N).
  cbn [negb]. rewrite nextChar_peek.
  change (peekChar (set_tokenStart (currentChar (set_previous (current p) p))
                      (set_previous (current p) p))) with (peekChar p).
  rewrite P. unfold entered. reflexivity.
Qed.

Lemma scanToken_dquote f p :
  scanToken f (Some dquote) p = do q <- readString f p; Some (Return, q).
Proof. reflexivity. Qed.


(** ** The spans agree with the tokenizer *)

Lemma nextTokenLoopSpans_agrees made :
  forall fuel p,
    option_map snd (nextTokenLoopSpans made fuel p) = nextTokenLoop fuel p.
Proof.
  induction fuel as [| f IH]; intros p; [reflexivity |].
  cbn [nextTokenLoopSpans nextTokenLoop].
  destruct (negb (eqc (peekChar p) "000")); [| reflexivity].
  rewrite nextChar_peek.
  destruct (scanToken f _ _) as [[k r] |]; [| reflexivity].
  destruct k; [reflexivity |].
  rewrite <- IH.
  destruct (nextTokenLoopSpans made f r) as [[l q] |]; reflexivity.
Qed.

Lemma nextTokenSpans_agrees made fuel p :
  option_map snd (nextTokenSpans made fuel p) = nextToken fuel p.
Proof.
  unfold nextTokenSpans, nextToken; cbv zeta.
  destruct (isEOF _); [reflexivity | apply nextTokenLoopSpans_agrees].
Qed.

Lemma scanSpans_agrees made :
  forall n fuel p,
    option_map snd (scanSpans made n fuel p) = nextTokens n fuel p.
Proof.
  induction n as [| n IH]; intros fuel p; [reflexivity |].
  cbn [scanSpans nextTokens].
  rewrite <- (nextTokenSpans_agrees made).
  destruct (nextTokenSpans made fuel p) as [[l p1] |]; [| reflexivity].
  cbn [option_map snd]. rewrite <- IH.
  destruct (scanSpans made n fuel p1) as [[l' q] |]; reflexivity.
Qed.

Lemma substr_zero s st : substr s st 0 = [].
Proof.
  unfold substr.
  set (size := Z.of_nat (List.length s)).
  assert (0 <= size) by (unfold size; lia).
  match goal with |- (if ?b then _ else _) = _ => destruct b eqn:E end;
    [reflexivity |].
  apply Z.leb_gt in E. lia.
Qed.

Lemma nextTokenSpans_pastEnd f p :
  peekChar p = None ->
  isEOF (Token.type (currentToken p)) = false ->
  nextTokenSpans lexeme (S f) p = Some ([[]], pastEnd p).
Proof.
  intros P E.
  unfold nextTokenSpans; cbv zeta.
  rewrite currentToken_set_previous, E.
  cbn [nextTokenLoopSpans].
  rewrite peekChar_entered_outer, P. cbn [eqc negb].
  rewrite nextChar_peek.
  change (peekChar (set_tokenStart (currentChar (set_previous (current p) p))
                      (set_previous (current p) p))) with (peekChar p).
  rewrite P, scanToken_undefined.
  change (skipChar
            (set_tokenStart (currentChar (set_previous (current p) p))
               (set_previous (current p) p))) with (entered p).
  destruct (pastEnd_fields p) as (_ & _ & _ & _ & L & _).
  unfold pastEnd in *. unfold lexeme.
  rewrite L, substr_zero. reflexivity.
Qed.

Lemma scanSpans_pastEnd :
  forall n f p,
    Z.of_nat (List.length (source p)) <= currentChar p ->
    isEOF (Token.type (currentToken p)) = false ->
    exists q, scanSpans lexeme n (S f) p = Some (repeat [] n, q).
Proof.
  induction n as [| n IH]; intros f p L E.
  - exists p; reflexivity.
  - cbn [scanSpans].
    rewrite (nextTokenSpans_pastEnd f p (peekChar_pastEnd p L) E).
    destruct (pastEnd_fields p) as (S & C & T & Ty & _ & _).
    destruct (IH f (pastEnd p)) as (q & R).
    + rewrite S, C; lia.
    + rewrite Ty; reflexivity.
    + exists q. rewrite R. reflexivity.
Qed.

Lemma scanSpans_plus made :
  forall a b fuel p,
    scanSpans made (a + b) fuel p =
    do (l, p1) <- scanSpans made a fuel p;
    do (l', q) <- scanSpans made b fuel p1;
    Some (l ++ l', q).
Proof.
  induction a as [| a IH]; intros b fuel p.
  - cbn [Nat.add scanSpans].
    destruct (scanSpans made b fuel p) as [[l' q] |]; reflexivity.
  - cbn [Nat.add scanSpans].
    destruct (nextTokenSpans made fuel p) as [[l0 p0] |]; [| reflexivity].
    rewrite IH.
    destruct (scanSpans made a fuel p0) as [[l p1] |]; [| reflexivity].
    destruct (scanSpans made b fuel p1) as [[l' q] |]; [| reflexivity].
    rewrite app_assoc. reflexivity.
Qed.

Lemma concat_repeat_nil (A : Type) n : List.concat (repeat (@nil A) n) = [].
Proof. induction n; simpl; auto. Qed.

(** ** The turns of the loop tile the source *)

Lemma firstn_skipn_app (A : Type) :
  forall n m (l : list A),
    firstn n l ++ firstn m (skipn n l) = firstn (n + m) l.
Proof.
  induction n as [| n IH]; intros m l; [reflexivity |].
  destruct l as [| x l]; simpl.
  - rewrite firstn_nil. reflexivity.
  - rewrite IH. reflexivity.
Qed.

(** [substr] from [a], as long as the distance to [b], is the slice
    between the two offsets, cut at the end of the string. *)
Lemma substr_slice s a b :
  0 <= a <= b ->
  substr s (Some a) (b - a) =
  firstn (Z.to_nat (Z.min b (Z.of_nat (List.length s)))
          - Z.to_nat (Z.min a (Z.of_nat (List.length s))))
    (skipn (Z.to_nat (Z.min a (Z.of_nat (List.length s)))) s).
Proof.
  intros H. unfold substr.
  set (size := Z.of_nat (List.length s)).
  assert (0 <= size) by (unfold size; lia).
  destruct (a <? 0) eqn:A; [apply Z.ltb_lt in A; lia |].
  assert (En : Z.min (Z.min a size + Z.min (Z.max (b - a) 0) size) size
               = Z.min b size) by lia.
  rewrite En.
  destruct (Z.min b size <=? Z.min a size) eqn:E.
  - apply Z.leb_le in E.
    replace (Z.to_nat (Z.min b size) - Z.to_nat (Z.min a size))%nat
      with 0%nat by lia.
    reflexivity.
  - apply Z.leb_gt in E. f_equal. lia.
Qed.

Lemma substr_app s a b c :
  0 <= a <= b -> b <= c ->
  substr s (Some a) (b - a) ++ substr s (Some b) (c - b)
  = substr s (Some a) (c - a).
Proof.
  intros H1 H2.
  rewrite !substr_slice by lia.
  set (size := Z.of_nat (List.length s)).
  set (i := Z.to_nat (Z.min a size)).
  set (j := Z.to_nat (Z.min b size)).
  set (k := Z.to_nat (Z.min c size)).
  assert (i <= j <= k)%nat by (unfold i, j, k; lia).
  replace (skipn j s) with (skipn (j - i) (skipn i s))
    by (rewrite skipn_skipn; f_equal; lia).
  rewrite firstn_skipn_app. f_equal. lia.
Qed.

Lemma makeToken_frame ty p :
  source (makeToken ty p) = source p
  /\ tokenStart (makeToken ty p) = tokenStart p
  /\ currentChar (makeToken ty p) = currentChar p.
Proof.
  rewrite makeToken_eq; cbv zeta. simpl. autorewrite with parser. auto.
Qed.

(** One call: the spans of its turns, the made token counted with all that
    its turn went over, concatenate to the source between the cursor
    before and the cursor after. *)
Lemma nextTokenLoopSpans_tile :
  forall fuel p l q,
    0 <= currentChar p ->
    nextTokenLoopSpans turnSpan fuel p = Some (l, q) ->
    source q = source p
    /\ currentChar p <= currentChar q
    /\ List.concat l =
       substr (source p) (Some (currentChar p))
         (currentChar q - currentChar p).
Proof.
  induction fuel as [| f IH]; intros p l q C H; [discriminate |].
  cbn [nextTokenLoopSpans] in H.
  destruct (negb (eqc (peekChar p) "000")).
  - name_nextChar (set_tokenStart (currentChar p) p) c p1 F C1.
    destruct F as [Fs Ft _ _ _ _ _]; simpl in Fs, Ft, C1.
    destruct (scanToken f c p1) as [[k r] |] eqn:S; [| discriminate].
    apply scanToken_scanned in S.
    assert (R : source r = source p /\ tokenStart r = currentChar p
                /\ currentChar p + 1 <= currentChar r).
    { inversion S as [[[] Cr] | ty N [] | []]; subst;
        repeat split; try congruence; lia. }
    destruct R as (Rs & Rt & Rc).
    assert (T : turnSpan r =
                substr (source p) (Some (currentChar p))
                  (currentChar r - currentChar p))
      by (unfold turnSpan; rewrite Rs, Rt; reflexivity).
    destruct k.
    + injection H as <- <-.
      repeat split; [exact Rs | lia |].
      cbn [List.concat]. rewrite app_nil_r. exact T.
    + destruct (nextTokenLoopSpans turnSpan f r) as [[l' q'] |] eqn:L;
        [| discriminate].
      injection H as <- <-.
      apply IH in L as (Ls & Lc & Ll); [| lia].
      repeat split; [congruence | lia |].
      cbn [List.concat]. rewrite T, Ll, Rs.
      apply substr_app; lia.
  - cbv zeta in H.
    remember (makeToken TOKEN_EOF (set_tokenStart (currentChar p) p))
      as q0 eqn:Q in H.
    injection H as <- <-.
    destruct (makeToken_frame TOKEN_EOF (set_tokenStart (currentChar p) p))
      as (Es & Et & Ec).
    rewrite <- Q in Es, Et, Ec. simpl in Es, Et, Ec.
    repeat split; [exact Es | lia |].
    cbn [List.concat]. rewrite app_nil_r.
    unfold turnSpan. rewrite Es, Et, Ec.
    replace (currentChar p - currentChar p) with 0 by lia.
    reflexivity.
Qed.

Lemma scanSpans_tile :
  forall n fuel p l q,
    0 <= currentChar p ->
    scanSpans turnSpan n fuel p = Some (l, q) ->
    source q = source p
    /\ currentChar p <= currentChar q
    /\ List.concat l =
       substr (source p) (Some (currentChar p))
         (currentChar q - currentChar p).
Proof.
  induction n as [| n IH]; intros fuel p l q C H; cbn [scanSpans] in H.
  - injection H as <- <-. repeat split; [lia |].
    replace (currentChar p - currentChar p) with 0 by lia.
    rewrite substr_zero. reflexivity.
  - destruct (nextTokenSpans turnSpan fuel p) as [[l1 p1] |] eqn:E1;
      [| discriminate].
    destruct (scanSpans turnSpan n fuel p1) as [[l2 q2] |] eqn:E2;
      [| discriminate].
    injection H as <- <-.
    assert (P1 : source p1 = source p
                 /\ currentChar p <= currentChar p1
                 /\ List.concat l1 =
                    substr (source p) (Some (currentChar p))
                      (currentChar p1 - currentChar p)).
    { unfold nextTokenSpans in E1; cbv zeta in E1.
      destruct (isEOF _).
      - injection E1 as <- <-. simpl. repeat split; [lia |].
        replace (currentChar p - currentChar p) with 0 by lia.
        rewrite substr_zero. reflexivity.
      - apply nextTokenLoopSpans_tile in E1; [| exact C]. exact E1. }
    destruct P1 as (S1 & C1 & L1).
    apply IH in E2 as (S2 & C2 & L2); [| lia].
    repeat split; [congruence | lia |].
    rewrite concat_app, L1, L2, S1.
    apply substr_app; lia.
Qed.

(** * The claims *)

(** ** C1: termination and the end-of-file token *)

(** An unterminated string: the call of [nextToken] that meets it never
    returns. *)
Lemma nextToken_unterminated_string src :
  (forall c, In c src -> c <> dquote /\ c <> 0 /\ c <> ch "%" /\ c <> ch "\") ->
  forall fuel, readStringLoop fuel (entered (initParser (dquote :: src))) = None.
Proof.
  intros Hsrc.
  assert (G : forall fuel p,
             source p = dquote :: src ->
             1 <= currentChar p ->
             readStringLoop fuel p = None).
  { induction fuel as [| f IH]; intros p S C; [reflexivity |].
    cbn [readStringLoop]. rewrite nextChar_peek.
    pose proof (advances_skipChar p) as [[Fs _ _ _ _ _ _] _].
    assert (C1 : currentChar (skipChar p) = currentChar p + 1)
      by apply currentChar_nextChar.
    destruct (peekChar p) as [c |] eqn:P.
    - assert (I : In c src).
      { unfold peekChar, charAt in P. rewrite S in P.
        destruct (currentChar p <? 0); [discriminate |].
        destruct (Z.to_nat (currentChar p)) as [| m] eqn:M; [lia |].
        simpl in P. eapply nth_error_In, P. }
      destruct (Hsrc c I) as (N1 & N2 & N3 & N4).
      unfold eqc.
      replace (c =? ch dquoteChar) with false
        by (symmetry; apply Z.eqb_neq; exact N1).
      replace (c =? ch "000") with false
        by (symmetry; apply Z.eqb_neq; exact N2).
      replace (c =? ch "%") with false
        by (symmetry; apply Z.eqb_neq; exact N3).
      replace (c =? ch "\") with false
        by (symmetry; apply Z.eqb_neq; exact N4).
      apply IH; [congruence | lia].
    - cbn [eqc]. apply IH; [congruence | lia]. }
  intros fuel. apply G.
  - destruct (frame_entered (initParser (dquote :: src))) as (S & _).
    exact S.
  - destruct (frame_entered (initParser (dquote :: src))) as (_ & C & _).
    rewrite C. simpl. lia.
Qed.

(** C1 (the code departs from the claim).  On the empty buffer every call
    of [nextToken] returns, but none ever makes the end-of-file token: each
    call turns the current token into an error token and moves the cursor
    one further past the end, and nothing is recorded.  On the buffer that
    holds an unterminated string, the first call of [nextToken] does not
    return with any amount of fuel, and so the constructor does not
    either. *)
Theorem C1_no_EOF_on_finite_buffers :
  (forall n,
      exists q,
        nextTokens n 1 (initParser []) = Some q
        /\ isEOF (Token.type (currentToken q)) = false
        /\ (n <> O -> Token.type (currentToken q) = Some TOKEN_ERROR)
        /\ currentChar q = Z.of_nat n
        /\ tokens q = [])
  /\ (forall fuel, nextToken fuel (initParser (dquote :: str "abc")) = None)
  /\ (forall fuel, newParser fuel (dquote :: str "abc") = None).
Proof.
  split; [| split].
  - intros n.
    destruct (nextTokens_pastEnd n 0 (initParser [])) as (q & R & S & C & T & E).
    + simpl; lia.
    + reflexivity.
    + exists q; repeat split; auto.
      intros N. destruct n as [| n]; [contradiction |].
      cbn [nextTokens] in R.
      rewrite (nextToken_pastEnd 0 (initParser []) eq_refl eq_refl) in R.
      destruct (pastEnd_fields (initParser [])) as (S1 & C1 & T1 & Ty1 & _).
      destruct (nextTokens_pastEnd n 0 (pastEnd (initParser [])))
        as (q' & R' & _).
      * rewrite S1, C1; simpl; lia.
      * rewrite Ty1; reflexivity.
      * clear R'.
        assert (K : forall m p,
                   Token.type (currentToken p) = Some TOKEN_ERROR ->
                   Z.of_nat (List.length (source p)) <= currentChar p ->
                   forall r, nextTokens m 1 p = Some r ->
                   Token.type (currentToken r) = Some TOKEN_ERROR).
        { induction m as [| m IH]; intros p Ty L r Hr; cbn [nextTokens] in Hr.
          - congruence.
          - rewrite (nextToken_pastEnd 0 p (peekChar_pastEnd p L)) in Hr
              by (rewrite Ty; reflexivity).
            destruct (pastEnd_fields p) as (S2 & C2 & _ & Ty2 & _).
            apply (IH (pastEnd p)); auto. rewrite S2, C2; lia. }
        apply (K n (pastEnd (initParser []))); auto.
        rewrite S1, C1; simpl; lia.
  - intros [| f]; [reflexivity |].
    rewrite (nextToken_dispatch f (initParser (dquote :: str "abc")) dquote
               eq_refl eq_refl) by discriminate.
    rewrite scanToken_dquote. unfold readString.
    rewrite nextToken_unterminated_string; [reflexivity |].
    intros c I; simpl in I.
    repeat destruct I as [<- | I]; try contradiction;
      repeat split; discriminate.
  - intros fuel. unfold newParser. cbn [nextTokens].
    destruct fuel as [| f]; [reflexivity |].
    rewrite (nextToken_dispatch f (initParser (dquote :: str "abc")) dquote
               eq_refl eq_refl) by discriminate.
    rewrite scanToken_dquote. unfold readString.
    rewrite nextToken_unterminated_string; [reflexivity |].
    intros c I; simpl in I.
    repeat destruct I as [<- | I]; try contradiction;
      repeat split; discriminate.
Qed.

(** ** C2: what the tokens cover *)

(** C2 (as stated, refuted).  On the source [@a] the first call consumes
    the [@] and makes a zero-length error token, the second makes the name
    [a], and then the cursor is at the end: the spans gone over are the
    empty lexeme and [a].  However many calls are made, the spans never
    concatenate to the source: the [@] is in none of them. *)
Lemma C2_coverage_counterexample :
  (exists q,
      scanSpans lexeme 2 3 (initParser (str "@a")) = Some ([[]; str "a"], q)
      /\ currentChar q = 2
      /\ tokenValues q = [str "a"])
  /\ ~ (exists n l q,
           scanSpans lexeme n 3 (initParser (str "@a")) = Some (l, q)
           /\ List.concat l = str "@a").
Proof.
  split.
  - eexists; split; [vm_compute; reflexivity | split; reflexivity].
  - intros (n & l & q & R & C).
    destruct n as [| [| n]].
    + vm_compute in R. injection R as <- <-. discriminate.
    + vm_compute in R. injection R as <- <-. discriminate.
    + change (S (S n)) with (2 + n)%nat in R.
      rewrite scanSpans_plus in R.
      destruct (scanSpans lexeme 2 3 (initParser (str "@a"))) as [[l2 q2] |] eqn:E2;
        [| discriminate].
      vm_compute in E2. injection E2 as <- <-.
      match type of R with
      | context [scanSpans lexeme n 3 ?p] =>
          destruct (scanSpans_pastEnd n 2 p) as (r & Hr);
            [vm_compute; discriminate | reflexivity |]
      end.
      rewrite Hr in R. injection R as <- <-.
      cbn [List.concat app] in C. rewrite concat_repeat_nil in C.
      discriminate.
Qed.

(** C2 (amended).  The turns of the loop of [nextToken] tile the source up
    to the cursor: the spans skipped as white space or comments and the
    span of each token made, where an error token counts with the one
    character consumed for it, concatenate from the start of the source to
    the cursor, with no character lost or doubled.  A call made before the
    end-of-file token starts its token at or after the cursor it found,
    which is at or after the start of the token before: tokens come in
    non-decreasing [tokenStart] order and do not overlap.  The call either
    records one token, whose lexeme is the span of its turn,
    [source.substr(tokenStart, currentChar - tokenStart)], or makes an
    error token that is not recorded, whose lexeme is empty although one
    character was consumed. *)
Theorem C2_turns_tile_the_source :
  (forall src n fuel l q,
      scanSpans turnSpan n fuel (initParser src) = Some (l, q) ->
      nextTokens n fuel (initParser src) = Some q
      /\ List.concat l = substr src (Some 0) (currentChar q))
  /\ (forall src fuel p q,
         reachable src p ->
         isEOF (Token.type (currentToken p)) = false ->
         nextToken fuel p = Some q ->
         0 <= tokenStart p <= currentChar p
         /\ currentChar p <= tokenStart q <= currentChar q
         /\ turnSpan q =
            substr src (Some (tokenStart q)) (currentChar q - tokenStart q)
         /\ ((exists ty,
                 tokens q =
                 tokens p
                 ++ [Entry.mk ty (turnSpan q) (Token.line (currentToken q))]
                 /\ Token.type (currentToken q) = Some ty
                 /\ Token.start (currentToken q) = Some (tokenStart q)
                 /\ Token.length (currentToken q)
                    = currentChar q - tokenStart q
                 /\ lexeme q = turnSpan q)
             \/ (tokens q = tokens p
                 /\ Token.type (currentToken q) = Some TOKEN_ERROR
                 /\ Token.length (currentToken q) = 0
                 /\ lexeme q = []
                 /\ currentChar q = tokenStart q + 1))).
Proof.
  split.
  - intros src n fuel l q H. split.
    + rewrite <- (scanSpans_agrees turnSpan), H. reflexivity.
    + apply scanSpans_tile in H as (_ & _ & L); [| simpl; lia].
      simpl in L. rewrite L. f_equal. lia.
  - intros src fuel p q R E H.
    pose proof (reachable_invariant src p R) as [].
    apply nextToken_cases in H as [[E' _] | [_ []]]; [congruence |].
    simpl in *.
    split; [exact inv_cursor0 |]. split; [exact pr_order0 |].
    split; [unfold turnSpan; congruence |].
    destruct pr_token0 as [(ty & T & A & B & C & _) | (T & A & B & C)].
    + left. exists ty. repeat split; auto.
      unfold lexeme, turnSpan. rewrite B, C. reflexivity.
    + right. repeat split; auto.
      unfold lexeme. rewrite B. apply substr_zero.
Qed.

Lemma C2_turns_tile_the_source_witness :
  exists l q,
    scanSpans turnSpan 2 3 (initParser (str "@a")) = Some (l, q)
    /\ l = [str "@"; str "a"]
    /\ nextTokens 2 3 (initParser (str "@a")) = Some q
    /\ List.concat l = substr (str "@a") (Some 0) (currentChar q).
Proof.
  destruct (scanSpans turnSpan 2 3 (initParser (str "@a"))) as [[l q] |] eqn:E;
    [| vm_compute in E; discriminate].
  exists l, q. split; [reflexivity |].
  split; [vm_compute in E; injection E as <- _; reflexivity |].
  exact (proj1 C2_turns_tile_the_source (str "@a") 2%nat 3%nat l q E).
Defined.

(** ** C3: the value of a number token *)

Lemma makeNumber_value isHex p :
  Token.value (currentToken (makeNumber isHex p)) =
  VNumber (if isHex then parseInt16 (tokenStart p)
           else parseFloat (tokenStart p)).
Proof.
  unfold makeNumber. rewrite makeToken_eq; cbv zeta.
  destruct isHex; unfold set_cur_value; autorewrite with parser;
    reflexivity.
Qed.

(** C3 (the code departs from the claim).  The value of a number token is
    computed from the offset [tokenStart], not from the lexeme: [0x1A],
    [3.14] and [2e-3] at offset 0 all get the value 0, and [0x1A] at
    offset 1 gets the value 1.  The token boundaries are as the claim says:
    [1.toString] is the number [1], a dot and a name, and [2e] reports an
    error. *)
Theorem C3_number_value_from_offset :
  (exists q,
      nextTokens 1 5 (initParser (str "0x1A")) = Some q
      /\ tokenTypes q = [TOKEN_NUMBER]
      /\ tokenValues q = [str "0x1A"]
      /\ Token.value (currentToken q) = VNumber (Num 0))
  /\ (exists q,
         nextTokens 1 5 (initParser (str " 0x1A")) = Some q
         /\ tokenValues q = [str "0x1A"]
         /\ Token.value (currentToken q) = VNumber (Num 1))
  /\ (exists q,
         nextTokens 1 5 (initParser (str "3.14")) = Some q
         /\ tokenTypes q = [TOKEN_NUMBER]
         /\ tokenValues q = [str "3.14"]
         /\ Token.value (currentToken q) = VNumber (Num 0))
  /\ (exists q,
         nextTokens 1 5 (initParser (str "2e-3")) = Some q
         /\ tokenTypes q = [TOKEN_NUMBER]
         /\ tokenValues q = [str "2e-3"]
         /\ Token.value (currentToken q) = VNumber (Num 0))
  /\ (exists q,
         nextTokens 3 10 (initParser (str "1.toString")) = Some q
         /\ tokenTypes q = [TOKEN_NUMBER; TOKEN_DOT; TOKEN_NAME]
         /\ tokenValues q = [str "1"; str "."; str "toString"])
  /\ (exists q,
         nextTokens 1 5 (initParser (str "2e")) = Some q
         /\ tokenTypes q = [TOKEN_NUMBER]
         /\ warnings q = [str "Unterminated scientific notation."])
  /\ (forall isHex p,
         Token.value (currentToken (makeNumber isHex p)) =
         VNumber (if isHex then parseInt16 (tokenStart p)
                  else parseFloat (tokenStart p))).
Proof.
  repeat split;
    try (eexists; split; [vm_compute; reflexivity | repeat split; reflexivity]).
  apply makeNumber_value.
Qed.

(** ** A closing parenthesis under the cursor *)







(** ** C5: the depth of the interpolation stack *)

(** C5.  In every state that calls of [nextToken] reach, the depth of the
    interpolation stack is between 0 and [MAX_INTERPOLATION_NESTING], which
    is 8.  On nine nested interpolations followed by [+ 1]: eight calls
    push eight levels without a message; the ninth call meets the ninth
    [%(] at depth 8, reports the one nesting error, pushes nothing and
    reads on to the closing quote of the innermost string; eight more
    calls close the eight levels; and the two tokens after the string, the
    plus and the number, are made as usual, with that one message on the
    console and an empty stack. *)
Theorem C5_nesting_bound :
  (forall src p,
      reachable src p -> 0 <= numParens p <= MAX_INTERPOLATION_NESTING)
  /\ MAX_INTERPOLATION_NESTING = 8
  /\ (exists q8 q9 q19,
         nextTokens 8 10 (initParser nineDeep) = Some q8
         /\ numParens q8 = 8
         /\ tokenTypes q8 = repeat TOKEN_INTERPOLATION 8
         /\ console q8 = []
         /\ nextTokens 9 10 (initParser nineDeep) = Some q9
         /\ numParens q9 = 8
         /\ tokenTypes q9 = repeat TOKEN_INTERPOLATION 8 ++ [TOKEN_STRING]
         /\ lexeme q9 = dquote :: str "%(x)" ++ [dquote]
         /\ console q9 =
            [Warn 0 (str "Interpolation may only nest 8 levels deep.")]
         /\ nextTokens 19 10 (initParser nineDeep) = Some q19
         /\ numParens q19 = 0
         /\ tokenTypes q19 =
            repeat TOKEN_INTERPOLATION 8 ++ repeat TOKEN_STRING 9
            ++ [TOKEN_PLUS; TOKEN_NUMBER]
         /\ tokenValues q19 =
            repeat (dquote :: str "%(") 8
            ++ [dquote :: str "%(x)" ++ [dquote]]
            ++ repeat (str ")" ++ [dquote]) 8
            ++ [str "+"; str "1"]
         /\ currentChar q19 = Z.of_nat (List.length nineDeep)
         /\ console q19 =
            [Warn 0 (str "Interpolation may only nest 8 levels deep.")]).
Proof.
  split; [| split; [reflexivity |]].
  - intros src p R. apply (inv_depth src p (reachable_invariant src p R)).
  - do 3 eexists.
    split; [vm_compute; reflexivity |].
    do 3 (split; [reflexivity |]).
    split; [vm_compute; reflexivity |].
    do 4 (split; [reflexivity |]).
    split; [vm_compute; reflexivity |].
    repeat split; reflexivity.
Qed.

Lemma C5_nesting_bound_witness :
  exists q,
    nextTokens 8 10 (initParser nineDeep) = Some q
    /\ 0 <= numParens q <= MAX_INTERPOLATION_NESTING.
Proof.
  destruct (nextTokens 8 10 (initParser nineDeep)) as [q |] eqn:E;
    [| vm_compute in E; discriminate].
  exists q. split; [reflexivity |].
  apply (proj1 C5_nesting_bound nineDeep q).
  apply (nextTokens_reachable nineDeep 8 10 (initParser nineDeep) q
           (reach_init _) E).
Defined.

(** ** The line of a token *)

(** The line of a token is the line counter when the token is made, less
    one for a line token. *)
Lemma makeToken_line ty p :
  Token.line (currentToken (makeToken ty p)) =
  if isLINE ty then currentLine p - 1 else currentLine p.
Proof.
  rewrite makeToken_eq; cbv zeta. autorewrite with parser. reflexivity.
Qed.

Lemma makeToken_entry ty p :
  tokens (makeToken ty p) =
  tokens p
  ++ [Entry.mk ty (turnSpan p) (Token.line (currentToken (makeToken ty p)))].
Proof.
  rewrite makeToken_line. rewrite makeToken_eq; cbv zeta. reflexivity.
Qed.

(** ** C7: [previous] and [current] *)

(** After a call of [nextToken], [previous] and [current] are the same
    reference. *)
Lemma previous_aliases_current fuel p q :
  nextToken fuel p = Some q -> previous q = current q.
Proof.
  intros H. apply nextToken_cases in H as [[_ ->] | [_ []]].
  - reflexivity.
  - simpl in *. congruence.
Qed.

(** C7 (the code departs from the claim).  [this.previous = this.current]
    copies the reference, not the token.  On [a b]: after the first call
    the current token is the name at offset 0; after the second call,
    [previous] does not hold that token but the same object as [current],
    the name at offset 2. *)
Theorem C7_previous_is_current_object :
  exists q1 q2,
    nextTokens 1 5 (initParser (str "a b")) = Some q1
    /\ nextToken 5 q1 = Some q2
    /\ currentToken q1 =
       Token.mk (Some TOKEN_NAME) (Some 0) 1 0 VUndefined
    /\ currentToken q2 =
       Token.mk (Some TOKEN_NAME) (Some 2) 1 0 VUndefined
    /\ previousToken q2 = currentToken q2
    /\ previousToken q2 <> currentToken q1
    /\ previous q2 = current q2.
Proof.
  do 2 eexists.
  split; [vm_compute; reflexivity |].
  split; [vm_compute; reflexivity |].
  repeat split; try reflexivity. discriminate.
Qed.

(** ** C8: bytes that start no token *)

(** The test [c >= 32 && c <= 126] compares a one-character string with
    numbers: the string converts to a digit value, to 0 or to [NaN], and
    the test never holds. *)
Lemma printable_test_never_holds c :
  js_num_geb (ToNumber c) (Num 32) && js_num_leb (ToNumber c) (Num 126)
  = false.
Proof.
  destruct c as [z |]; [| reflexivity].
  unfold ToNumber, ToNumber_char.
  destruct ((48 <=? z) && (z <=? 57)) eqn:D.
  - apply andb_true_iff in D as [D1 D2].
    apply Z.leb_le in D1, D2. unfold js_num_geb.
    replace (32 <=? z - 48) with false by (symmetry; apply Z.leb_gt; lia).
    reflexivity.
  - destruct (isStrWhiteSpace z); reflexivity.
Qed.

(** C8 (the code departs from the claim).  The [@] is printable ASCII and
    starts no token: the call makes a zero-length error token, records
    nothing and scans on, but the message is the one for a byte, not the
    one for a character; and so it is for every character, since the test
    for printable ASCII never holds. *)
Theorem C8_invalid_character_message :
  (exists q1 q2,
      nextTokens 1 5 (initParser (str "@a")) = Some q1
      /\ Token.type (currentToken q1) = Some TOKEN_ERROR
      /\ Token.length (currentToken q1) = 0
      /\ tokens q1 = []
      /\ console q1 = [Warn 0 (str "Invalid byte 0x@.")]
      /\ nextToken 5 q1 = Some q2
      /\ tokenValues q2 = [str "a"])
  /\ (forall c,
         js_num_geb (ToNumber c) (Num 32)
         && js_num_leb (ToNumber c) (Num 126) = false).
Proof.
  split; [| exact printable_test_never_holds].
  do 2 eexists.
  split; [vm_compute; reflexivity |].
  do 4 (split; [reflexivity |]).
  split; [vm_compute; reflexivity |]. reflexivity.
Qed.

(** ** C9: the shebang line *)

(** At the very start of a source, [#!] is not skipped, whatever
    follows it. *)
Lemma shebang_at_start_not_skipped f rest :
  exists q,
    nextToken (S f) (initParser (ch "#" :: ch "!" :: rest)) = Some q
    /\ Token.type (currentToken q) = Some TOKEN_ERROR
    /\ Token.length (currentToken q) = 0
    /\ currentChar q = 1
    /\ tokens q = []
    /\ console q = [Warn 0 (str "Invalid byte 0x#.")].
Proof.
  eexists. split; [| repeat split].
  - rewrite (nextToken_dispatch f (initParser (ch "#" :: ch "!" :: rest))
               (ch "#") eq_refl eq_refl) by discriminate.
    reflexivity.
  - reflexivity.
  - reflexivity.
  - reflexivity.
  - reflexivity.
  - reflexivity.
Qed.

(** C9 (the code departs from the claim).  The shebang is looked for when
    [currentLine] is 1, and [currentLine] starts at 0: at the very start
    of the source [#!x] is not skipped, the [#] makes an error token and
    the rest of the line is tokenized; the same line as the second line of
    the source is skipped. *)
Theorem C9_shebang_on_first_line_is_tokenized :
  (forall f rest,
      exists q,
        nextToken (S f) (initParser (ch "#" :: ch "!" :: rest)) = Some q
        /\ Token.type (currentToken q) = Some TOKEN_ERROR
        /\ Token.length (currentToken q) = 0
        /\ currentChar q = 1
        /\ tokens q = []
        /\ console q = [Warn 0 (str "Invalid byte 0x#.")])
  /\ (exists q1 q3,
      nextTokens 1 5 (initParser shebang) = Some q1
      /\ Token.type (currentToken q1) = Some TOKEN_ERROR
      /\ currentChar q1 = 1
      /\ console q1 = [Warn 0 (str "Invalid byte 0x#.")]
      /\ nextTokens 3 5 (initParser shebang) = Some q3
      /\ tokenTypes q3 = [TOKEN_BANG; TOKEN_NAME]
      /\ tokenValues q3 = [str "!"; str "x"])
  /\ (exists q,
         nextTokens 4 5 (initParser shebangSecond) = Some q
         /\ tokenTypes q = [TOKEN_NAME; TOKEN_LINE; TOKEN_LINE; TOKEN_NAME]
         /\ tokenValues q = [str "y"; [10]; [10]; str "z"]
         /\ console q = []).
Proof.
  split; [exact shebang_at_start_not_skipped |].
  split.
  - do 2 eexists.
    split; [vm_compute; reflexivity |].
    do 3 (split; [reflexivity |]).
    split; [vm_compute; reflexivity |].
    split; reflexivity.
  - eexists. split; [vm_compute; reflexivity | repeat split; reflexivity].
Qed.

(** ** C10: the constructor *)

Lemma nextToken_records_at_most_one fuel p q :
  nextToken fuel p = Some q ->
  (List.length (tokens q) <= List.length (tokens p) + 1)%nat.
Proof.
  intros H. apply nextToken_cases in H as [[_ ->] | [_ []]].
  - simpl; lia.
  - simpl in *.
    destruct pr_token0 as [(ty & T & _) | (T & _)]; rewrite T.
    + rewrite length_app; simpl; lia.
    + lia.
Qed.

Lemma nextTokens_records_at_most :
  forall n fuel p q,
    nextTokens n fuel p = Some q ->
    (List.length (tokens q) <= List.length (tokens p) + n)%nat.
Proof.
  induction n as [| n IH]; intros fuel p q H; cbn [nextTokens] in H.
  - injection H as <-; lia.
  - destruct (nextToken fuel p) as [p1 |] eqn:E; [| discriminate].
    apply nextToken_records_at_most_one in E. apply IH in H. lia.
Qed.

(** C10.  The constructor is 85 calls of [nextToken] from the initial
    state, whatever the source, so a parser that has been constructed holds
    at most 85 tokens, and so does every state on the way, after [n] of
    the 85 calls.  On a hundred names the constructor records the first
    85, stops with the cursor inside the source and writes nothing on the
    console; one more call of [nextToken] records the next name. *)
Theorem C10_constructor_records_at_most_85 :
  (forall fuel src,
      newParser fuel src = nextTokens 85 fuel (initParser src))
  /\ (forall fuel src p,
         newParser fuel src = Some p ->
         (List.length (tokens p) <= 85)%nat)
  /\ (forall n fuel src p,
         (n <= 85)%nat ->
         nextTokens n fuel (initParser src) = Some p ->
         (List.length (tokens p) <= n)%nat)
  /\ (exists p q,
         newParser 3 hundredNames = Some p
         /\ List.length (tokens p) = 85%nat
         /\ tokenTypes p = repeat TOKEN_NAME 85
         /\ currentChar p = 169
         /\ Z.of_nat (List.length hundredNames) = 200
         /\ console p = []
         /\ nextToken 3 p = Some q
         /\ List.length (tokens q) = 86%nat).
Proof.
  split; [reflexivity |]. split; [| split].
  - intros fuel src p H. unfold newParser in H.
    apply nextTokens_records_at_most in H. simpl in H. lia.
  - intros n fuel src p _ H.
    apply nextTokens_records_at_most in H. simpl in H. lia.
  - do 2 eexists.
    split; [vm_compute; reflexivity |].
    do 5 (split; [reflexivity |]).
    split; [vm_compute; reflexivity |]. reflexivity.
Qed.

Lemma C10_constructor_witness :
  exists p,
    newParser 3 (str "a b") = Some p
    /\ (List.length (tokens p) <= 85)%nat.
Proof.
  destruct (newParser 3 (str "a b")) as [p |] eqn:E;
    [| vm_compute in E; discriminate].
  exists p. split; [reflexivity |].
  exact (proj1 (proj2 C10_constructor_records_at_most_85) 3%nat
           (str "a b") p E).
Defined.

(** * Further properties of the tokenizer *)

(** ** The source from the cursor on *)

Lemma hd_error_skipn (A : Type) :
  forall n (l : list A), hd_error (skipn n l) = nth_error l n.
Proof.
  induction n as [| n IH]; intros [| x l]; simpl; auto.
Qed.

Lemma peekChar_rest p :
  0 <= currentChar p -> peekChar p = first (rest p).
Proof.
  intros C. unfold peekChar, charAt, first, rest.
  destruct (currentChar p <? 0) eqn:E; [apply Z.ltb_lt in E; lia |].
  symmetry; apply hd_error_skipn.
Qed.

Lemma skipn_cons_succ (A : Type) :
  forall n (l : list A) c r, skipn n l = c :: r -> skipn (S n) l = r.
Proof.
  induction n as [| n IH]; intros [| x l] c r H; simpl in *;
    try discriminate.
  - injection H as _ <-; reflexivity.
  - eapply IH, H.
Qed.

Lemma moveTo_self p : moveTo (currentChar p) (currentLine p) p = p.
Proof. destruct p; reflexivity. Qed.

Lemma skipChar_moveTo p :
  skipChar p =
  moveTo (currentChar p + 1)
    (currentLine p + (if eqc (peekChar p) "010" then 1 else 0)) p.
Proof.
  unfold skipChar, nextChar; cbv zeta; cbn [snd].
  destruct (eqc (peekChar p) "010").
  - reflexivity.
  - rewrite Z.add_0_r. destruct p; reflexivity.
Qed.

Lemma rest_moveTo c l p :
  rest (moveTo c l p) = skipn (Z.to_nat c) (source p).
Proof. reflexivity. Qed.

(** Going over a piece of the source character by character. *)
Lemma skipChars_moveTo :
  forall pre r p,
    0 <= currentChar p ->
    rest p = pre ++ r ->
    skipChars (List.length pre) p =
    moveTo (currentChar p + Z.of_nat (List.length pre))
      (currentLine p + newlines pre) p.
Proof.
  induction pre as [| c pre IH]; intros r p C R.
  - cbn [skipChars List.length]. unfold newlines; cbn [count_occ].
    rewrite !Z.add_0_r. symmetry; apply moveTo_self.
  - cbn [skipChars List.length].
    assert (P : peekChar p = Some c)
      by (rewrite peekChar_rest, R by exact C; reflexivity).
    rewrite (IH r (skipChar p)).
    + rewrite skipChar_moveTo, P.
      unfold moveTo at 1 2 3. cbn [currentChar currentLine set_currentLine
                                     set_currentChar].
      unfold newlines. cbn [count_occ]. unfold eqc.
      change (ch "010") with 10.
      destruct (Z.eq_dec c 10) as [-> | N].
      * cbn [Z.eqb Pos.eqb]. unfold moveTo.
        replace (currentChar p + 1 + Z.of_nat (List.length pre))
          with (currentChar p + Z.of_nat (S (List.length pre))) by lia.
        replace (currentLine p + 1
                 + Z.of_nat (count_occ Z.eq_dec pre 10))
          with (currentLine p
                + Z.of_nat (S (count_occ Z.eq_dec pre 10))) by lia.
        reflexivity.
      * replace (c =? 10) with false by (symmetry; apply Z.eqb_neq; exact N).
        unfold moveTo.
        replace (currentChar p + 1 + Z.of_nat (List.length pre))
          with (currentChar p + Z.of_nat (S (List.length pre))) by lia.
        rewrite Z.add_0_r. reflexivity.
    + rewrite skipChar_moveTo. cbn. lia.
    + rewrite skipChar_moveTo, rest_moveTo.
      replace (Z.to_nat (currentChar p + 1))
        with (S (Z.to_nat (currentChar p))) by lia.
      unfold rest in R. eapply skipn_cons_succ. exact R.
Qed.

Lemma skipn_app_length (A : Type) :
  forall n (l pre r : list A),
    skipn n l = pre ++ r -> skipn (n + List.length pre) l = r.
Proof.
  intros n l pre; revert n l.
  induction pre as [| c pre IH]; intros n l r H.
  - rewrite Nat.add_0_r. exact H.
  - cbn [List.length]. rewrite Nat.add_succ_r.
    change (S (n + List.length pre)) with (S n + List.length pre)%nat.
    apply IH. eapply skipn_cons_succ. exact H.
Qed.

Lemma rest_after pre r p l :
  0 <= currentChar p ->
  rest p = pre ++ r ->
  rest (moveTo (currentChar p + Z.of_nat (List.length pre)) l p) = r.
Proof.
  intros C R. rewrite rest_moveTo.
  replace (Z.to_nat (currentChar p + Z.of_nat (List.length pre)))
    with (Z.to_nat (currentChar p) + List.length pre)%nat by lia.
  apply skipn_app_length. exact R.
Qed.

Lemma firstn_skipn_prefix (A : Type) :
  forall n (l pre r : list A),
    skipn n l = pre ++ r -> firstn (List.length pre) (skipn n l) = pre.
Proof.
  intros n l pre r H. rewrite H.
  rewrite firstn_app, firstn_all, Nat.sub_diag. cbn. apply app_nil_r.
Qed.

(** The piece of the source under the cursor, as [substr] cuts it out. *)
Lemma substr_rest pre r p :
  0 <= currentChar p ->
  rest p = pre ++ r ->
  substr (source p) (Some (currentChar p)) (Z.of_nat (List.length pre))
  = pre.
Proof.
  intros C R. unfold rest in R.
  destruct pre as [| c pre]; [apply substr_zero |].
  assert (L : (Z.to_nat (currentChar p) + List.length (c :: pre)
               <= List.length (source p))%nat).
  { assert (E : List.length (skipn (Z.to_nat (currentChar p)) (source p))
                = List.length ((c :: pre) ++ r)) by (rewrite R; reflexivity).
    rewrite length_skipn, length_app in E. cbn [List.length] in *. lia. }
  replace (Z.of_nat (List.length (c :: pre)))
    with (currentChar p + Z.of_nat (List.length (c :: pre)) - currentChar p)
    by lia.
  rewrite substr_slice by lia.
  replace (Z.min (currentChar p) (Z.of_nat (List.length (source p))))
    with (currentChar p) by lia.
  replace (Z.min (currentChar p + Z.of_nat (List.length (c :: pre)))
             (Z.of_nat (List.length (source p))))
    with (currentChar p + Z.of_nat (List.length (c :: pre))) by lia.
  replace (Z.to_nat (currentChar p + Z.of_nat (List.length (c :: pre)))
           - Z.to_nat (currentChar p))%nat
    with (List.length (c :: pre)) by lia.
  eapply firstn_skipn_prefix. exact R.
Qed.

(** ** The loop of [nextToken], turn by turn *)

Lemma nextTokenLoop_dispatch f p c :
  peekChar p = Some c -> c <> 0 ->
  nextTokenLoop (S f) p =
  do (k, q) <- scanToken f (Some c) (turned p);
  match k with
  | Return => Some q
  | Break => nextTokenLoop f q
  end.
Proof.
  intros P N. cbn [nextTokenLoop]. rewrite P.
  replace (eqc (Some c) "000") with false
    by (symmetry; apply Z.eqb_neq; exact N).
  cbn [negb]. rewrite nextChar_peek.
  change (peekChar (set_tokenStart (currentChar p) p)) with (peekChar p).
  rewrite P. reflexivity.
Qed.

(** A call of [nextToken] made before the end-of-file token is the loop,
    run after [previous] has been set. *)
Lemma nextToken_is_loop fuel p :
  isEOF (Token.type (currentToken p)) = false ->
  nextToken fuel p = nextTokenLoop fuel (set_previous (current p) p).
Proof.
  intros E. unfold nextToken; cbv zeta.
  rewrite currentToken_set_previous, E. reflexivity.
Qed.

Lemma turned_moveTo p :
  turned p =
  moveTo (currentChar p + 1)
    (currentLine p + (if eqc (peekChar p) "010" then 1 else 0))
    (set_tokenStart (currentChar p) p).
Proof. unfold turned. rewrite skipChar_moveTo. reflexivity. Qed.

(** ** Tokens of one character, the end of file, and characters that
    start nothing *)

Lemma makeToken_fields ty r :
  source (makeToken ty r) = source r
  /\ tokenStart (makeToken ty r) = tokenStart r
  /\ currentChar (makeToken ty r) = currentChar r
  /\ currentLine (makeToken ty r) = currentLine r
  /\ console (makeToken ty r) = console r
  /\ numParens (makeToken ty r) = numParens r
  /\ parens (makeToken ty r) = parens r
  /\ current (makeToken ty r) = current r
  /\ previous (makeToken ty r) = previous r
  /\ currentToken (makeToken ty r) =
     Token.mk (Some ty) (Some (tokenStart r))
       (currentChar r - tokenStart r)
       (if isLINE ty then currentLine r - 1 else currentLine r)
       (Token.value (currentToken r)).
Proof.
  rewrite makeToken_eq; cbv zeta. simpl. autorewrite with parser.
  repeat split.
Qed.

(** A token made right after the piece [lex] of the source was gone
    over. *)
Lemma yields_makeToken ty lex tail p r :
  0 <= currentChar p ->
  rest p = lex ++ tail ->
  source r = source p ->
  tokenStart r = currentChar p ->
  currentChar r = currentChar p + Z.of_nat (List.length lex) ->
  tokens r = tokens p ->
  console r = console p ->
  numParens r = numParens p ->
  yields ty lex p (makeToken ty r).
Proof.
  intros C R Hs Ht Hc Hk Ho Hn.
  destruct (makeToken_fields ty r)
    as (Fs & Ft & Fc & Fl & Fo & Fn & _ & _ & _ & Fk).
  constructor; rewrite ?Fk; cbn [Token.type Token.start Token.length
                                   Token.line]; try congruence.
  - rewrite makeToken_entry, makeToken_line. unfold turnSpan.
    rewrite Hs, Ht, Hc, Hk.
    replace (currentChar p + Z.of_nat (List.length lex) - currentChar p)
      with (Z.of_nat (List.length lex)) by lia.
    rewrite (substr_rest lex tail p C R). reflexivity.
  - rewrite Hc, Ht. f_equal. lia.
  - rewrite Fl. reflexivity.
Qed.

Lemma entered_moveTo p :
  entered p =
  moveTo (currentChar p + 1)
    (currentLine p + (if eqc (peekChar p) "010" then 1 else 0))
    (set_tokenStart (currentChar p) (set_previous (current p) p)).
Proof. unfold entered. rewrite skipChar_moveTo. reflexivity. Qed.

Lemma rest_entered c tail p :
  0 <= currentChar p -> rest p = c :: tail -> rest (entered p) = tail.
Proof.
  intros C R. rewrite entered_moveTo, rest_moveTo.
  replace (Z.to_nat (currentChar p + 1))
    with (S (Z.to_nat (currentChar p))) by lia.
  eapply skipn_cons_succ. exact R.
Qed.

Lemma singleCharTokens_scan :
  Forall
    (fun ct =>
       fst ct <> 0
       /\ forall f r,
           scanToken f (Some (fst ct)) r
           = Some (Return, makeToken (snd ct) r))
    singleCharTokens.
Proof.
  unfold singleCharTokens.
  repeat (apply Forall_cons;
          [split; [discriminate | intros f r; reflexivity] |]).
  apply Forall_nil.
Qed.

(** X1.  Each of the thirteen characters of [singleCharTokens], met under
    the cursor before the end of file, makes the token of its type with
    that one character as the lexeme: the token is recorded, the cursor
    moves on by one, nothing is written on the console and the
    interpolation stack keeps its depth. *)
Theorem single_character_tokens c ty fuel p tail :
  In (c, ty) singleCharTokens ->
  isEOF (Token.type (currentToken p)) = false ->
  0 <= currentChar p ->
  rest p = c :: tail ->
  exists q,
    nextToken (S fuel) p = Some q
    /\ yields ty [c] p q
    /\ rest q = tail
    /\ parens q = parens p.
Proof.
  intros I E C R.
  pose proof singleCharTokens_scan as F.
  rewrite Forall_forall in F. destruct (F _ I) as [N S]. cbn [fst snd] in *.
  assert (P : peekChar p = Some c)
    by (rewrite peekChar_rest, R by exact C; reflexivity).
  rewrite (nextToken_dispatch fuel p c E P N), S.
  eexists. split; [reflexivity |].
  destruct (makeToken_fields ty (entered p))
    as (Fs & _ & Fc & _ & _ & _ & Fp & _).
  split; [| split].
  - apply (yields_makeToken ty [c] tail); auto;
      rewrite entered_moveTo; reflexivity.
  - unfold rest. rewrite Fs, Fc. apply (rest_entered c tail p C R).
  - rewrite Fp, entered_moveTo. reflexivity.
Qed.

Lemma single_character_tokens_witness :
  exists q,
    nextToken 1 (initParser (str "+x")) = Some q
    /\ yields TOKEN_PLUS (str "+") (initParser (str "+x")) q
    /\ rest q = str "x".
Proof.
  destruct (single_character_tokens (ch "+") TOKEN_PLUS 0
              (initParser (str "+x")) (str "x")) as (q & H & Y & R & _).
  - cbn. tauto.
  - reflexivity.
  - cbn; lia.
  - reflexivity.
  - exists q. split; [exact H |]. split; [exact Y | exact R].
Defined.

Lemma nextToken_is_loop_step fuel p :
  isEOF (Token.type (currentToken p)) = false ->
  peekChar p = Some 0 ->
  nextToken (S fuel) p =
  Some (makeToken TOKEN_EOF
          (set_tokenStart (currentChar p) (set_previous (current p) p))).
Proof.
  intros E P. unfold nextToken; cbv zeta.
  rewrite currentToken_set_previous, E.
  cbn [nextTokenLoop]. rewrite peekChar_entered_outer, P. reflexivity.
Qed.

(** X2.  A NUL character under the cursor, met before the end of file,
    makes the end-of-file token: a recorded token with an empty lexeme,
    for which nothing is consumed.  In a state reached by calls of
    [nextToken] in which the current token is the end-of-file token, a
    call with any fuel returns the state as it is: what follows the NUL in
    the source is never scanned. *)
Theorem NUL_makes_EOF_and_EOF_stays :
  (forall fuel p tail,
      isEOF (Token.type (currentToken p)) = false ->
      0 <= currentChar p ->
      rest p = 0 :: tail ->
      exists q,
        nextToken (S fuel) p = Some q
        /\ yields TOKEN_EOF [] p q
        /\ rest q = 0 :: tail)
  /\ (forall src fuel p,
         reachable src p ->
         isEOF (Token.type (currentToken p)) = true ->
         nextToken fuel p = Some p).
Proof.
  split.
  - intros fuel p tail E C R.
    assert (P : peekChar p = Some 0)
      by (rewrite peekChar_rest, R by exact C; reflexivity).
    rewrite (nextToken_is_loop_step fuel p E P).
    eexists. split; [reflexivity |].
    destruct (makeToken_fields TOKEN_EOF
                (set_tokenStart (currentChar p)
                   (set_previous (current p) p)))
      as (Fs & _ & Fc & _).
    split.
    + apply (yields_makeToken TOKEN_EOF [] (0 :: tail)); auto.
      cbn. lia.
    + unfold rest. rewrite Fs, Fc. exact R.
  - intros src fuel p R E.
    assert (A : previous p = current p).
    { inversion R as [I | f p0 q0 _ H]; subst.
      - discriminate.
      - eapply previous_aliases_current, H. }
    unfold nextToken; cbv zeta.
    rewrite currentToken_set_previous, E, <- A.
    destruct p; reflexivity.
Qed.

Lemma NUL_makes_EOF_and_EOF_stays_witness :
  exists q,
    nextToken 1 (initParser [0; 97]) = Some q
    /\ yields TOKEN_EOF [] (initParser [0; 97]) q
    /\ rest q = [0; 97]
    /\ nextToken 0 q = Some q.
Proof.
  destruct (proj1 NUL_makes_EOF_and_EOF_stays 0%nat (initParser [0; 97])
              [97] eq_refl ltac:(cbn; lia) eq_refl) as (q & H & Y & R).
  exists q. split; [exact H |]. split; [exact Y |]. split; [exact R |].
  apply (proj2 NUL_makes_EOF_and_EOF_stays [0; 97] 0%nat q).
  - eapply reach_next; [apply reach_init | exact H].
  - destruct Y as [_ T _ _ _ _ _ _ _]. rewrite T. reflexivity.
Defined.

Lemma eqc_Some c a : eqc (Some c) a = (c =? ch a).
Proof. reflexivity. Qed.

(** The [switch] on a character that starts nothing: the default case,
    and in it the error branch. *)
Lemma scanToken_startsNothing f c r :
  startsSomething c = false ->
  (currentLine r =? 1) && eqc (Some c) "#" && eqc (peekChar r) "!" = false ->
  scanToken f (Some c) r =
  Some (Return,
        set_cur_length 0
          (set_cur_type TOKEN_ERROR
             (lexError (str "Invalid byte 0x" ++ [c] ++ str ".") r))).
Proof.
  intros S B. unfold startsSomething in S.
  apply orb_false_elim in S as [S D].
  apply orb_false_elim in S as [S N].
  cbn [existsb caseChars map] in S.
  repeat match goal with
    | H : _ || _ = false |- _ =>
        apply orb_false_elim in H;
        let H1 := fresh "H" in destruct H as [H1 H]
    end.
  unfold scanToken. rewrite B, N, D, printable_test_never_holds.
  rewrite !eqc_Some.
  repeat match goal with
    | H : (c =? _) = false |- _ => rewrite H; clear H
    end.
  reflexivity.
Qed.

Lemma error_fields m r :
  let q := set_cur_length 0 (set_cur_type TOKEN_ERROR (lexError m r)) in
  source q = source r
  /\ currentChar q = currentChar r
  /\ currentLine q = currentLine r
  /\ tokens q = tokens r
  /\ console q = console r ++ [Warn (currentLine r) m]
  /\ currentToken q =
     Token.mk (Some TOKEN_ERROR) (Token.start (currentToken r)) 0
       (Token.line (currentToken r)) (Token.value (currentToken r)).
Proof.
  cbv zeta. unfold set_cur_length, set_cur_type.
  autorewrite with parser. cbn [Token.type Token.start Token.line
                                  Token.value].
  unfold lexError, currentToken. cbn.
  destruct (current r); repeat split.
Qed.

(** X3.  A character that starts no token, white space or comment, met
    under the cursor before the end of file and not as the [#] of a
    shebang on line 1: the call consumes it, writes the message for an
    invalid byte with the line counter on the console and turns the
    current token into an error token of length 0; [start], [line] and
    [value] of the current token stay as the token before left them, and
    nothing is recorded in [tokens]. *)
Theorem character_that_starts_nothing c fuel p tail :
  startsSomething c = false ->
  c <> 0 ->
  (currentLine p <> 1 \/ c <> ch "#" \/ first tail <> Some (ch "!")) ->
  isEOF (Token.type (currentToken p)) = false ->
  0 <= currentChar p ->
  rest p = c :: tail ->
  exists q,
    nextToken (S fuel) p = Some q
    /\ currentToken q =
       Token.mk (Some TOKEN_ERROR) (Token.start (currentToken p)) 0
         (Token.line (currentToken p)) (Token.value (currentToken p))
    /\ tokens q = tokens p
    /\ console q =
       console p
       ++ [Warn (currentLine p) (str "Invalid byte 0x" ++ [c] ++ str ".")]
    /\ currentChar q = currentChar p + 1
    /\ currentLine q = currentLine p
    /\ rest q = tail.
Proof.
  intros Hs N B E C R.
  assert (P : peekChar p = Some c)
    by (rewrite peekChar_rest, R by exact C; reflexivity).
  assert (NL : eqc (peekChar p) "010" = false).
  { rewrite P, eqc_Some. apply Z.eqb_neq. intros ->. discriminate. }
  assert (En : entered p =
               moveTo (currentChar p + 1) (currentLine p)
                 (set_tokenStart (currentChar p)
                    (set_previous (current p) p)))
    by (rewrite entered_moveTo, NL, Z.add_0_r; reflexivity).
  assert (Pe : peekChar (entered p) = first tail).
  { rewrite peekChar_rest by (rewrite En; cbn; lia).
    rewrite (rest_entered c tail p C R). reflexivity. }
  rewrite (nextToken_dispatch fuel p c E P N).
  rewrite scanToken_startsNothing; [| exact Hs |].
  - eexists. split; [reflexivity |].
    destruct (error_fields (str "Invalid byte 0x" ++ [c] ++ str ".")
                (entered p)) as (Fs & Fc & Fl & Ft & Fo & Fk).
    rewrite Fk, Ft, Fo, Fc, Fl. unfold rest. rewrite Fs, Fc.
    rewrite En. cbn.
    repeat split.
    replace (Z.to_nat (currentChar p + 1))
      with (S (Z.to_nat (currentChar p))) by lia.
    eapply skipn_cons_succ. exact R.
  - rewrite Pe. rewrite En at 1. cbn [currentLine moveTo set_currentLine].
    destruct B as [B | [B | B]].
    + replace (currentLine p =? 1) with false
        by (symmetry; apply Z.eqb_neq; exact B). reflexivity.
    + rewrite eqc_Some.
      replace (c =? ch "#") with false
        by (symmetry; apply Z.eqb_neq; exact B).
      rewrite andb_false_r. reflexivity.
    + destruct (first tail) as [d |]; cbn [eqc];
        [| apply andb_false_r].
      replace (d =? ch "!") with false
        by (symmetry; apply Z.eqb_neq; congruence).
      apply andb_false_r.
Qed.

Lemma character_that_starts_nothing_witness :
  exists q,
    nextToken 1 (initParser (str "@a")) = Some q
    /\ tokens q = []
    /\ console q = [Warn 0 (str "Invalid byte 0x@.")]
    /\ rest q = str "a".
Proof.
  destruct (character_that_starts_nothing (ch "@") 0
              (initParser (str "@a")) (str "a"))
    as (q & H & _ & T & O & _ & _ & R).
  - reflexivity.
  - discriminate.
  - left. discriminate.
  - reflexivity.
  - cbn; lia.
  - reflexivity.
  - exists q. repeat split; assumption.
Defined.

(** ** Runs of characters: white space and names *)

(** A [while] loop that calls [nextChar] as long as the character under
    the cursor passes a test goes over exactly the longest run of such
    characters. *)
Lemma while_run (test : option Z -> bool) :
  forall pre r p k,
    0 <= currentChar p ->
    rest p = pre ++ r ->
    Forall (fun c => test (Some c) = true) pre ->
    test (first r) = false ->
    while (S (List.length pre + k)) (fun p => test (peekChar p)) skipChar p
    = Some (skipChars (List.length pre) p).
Proof.
  induction pre as [| c pre IH]; intros r p k C R F T.
  - cbn [List.length Nat.add while skipChars].
    rewrite peekChar_rest, R by exact C.
    change ([] ++ r) with r. rewrite T. reflexivity.
  - cbn [List.length Nat.add while skipChars].
    rewrite peekChar_rest, R by exact C.
    change (first ((c :: pre) ++ r)) with (Some c).
    inversion F as [| ? ? Fc Fp]; subst. rewrite Fc.
    apply (IH r); auto.
    + rewrite skipChar_moveTo. cbn. lia.
    + rewrite skipChar_moveTo, rest_moveTo.
      replace (Z.to_nat (currentChar p + 1))
        with (S (Z.to_nat (currentChar p))) by lia.
      unfold rest in R. eapply skipn_cons_succ. exact R.
Qed.

(** The loop of [nextToken] sets [tokenStart] itself and does not look at
    the value it finds. *)
Lemma nextTokenLoop_tokenStart v :
  forall f p, nextTokenLoop f (set_tokenStart v p) = nextTokenLoop f p.
Proof. intros [| f] p; reflexivity. Qed.

Lemma blank_no_newline s :
  Forall (fun c => blank (Some c) = true) s -> newlines s = 0.
Proof.
  unfold newlines. induction 1 as [| c s B _ IH]; [reflexivity |].
  cbn [count_occ]. destruct (Z.eq_dec c 10) as [-> | N]; [discriminate |].
  exact IH.
Qed.

Lemma scanToken_blank f c r :
  blank (Some c) = true ->
  scanToken f (Some c) r =
  do q <- while f (fun p => blank (peekChar p)) skipChar r;
  Some (Break, q).
Proof.
  unfold blank. rewrite !eqc_Some. intros B.
  assert (c = ch " " \/ c = ch "013" \/ c = ch "009") as [-> | [-> | ->]].
  { apply orb_prop in B as [B | B]; [apply orb_prop in B as [B | B] |];
      apply Z.eqb_eq in B; auto. }
  all: reflexivity.
Qed.

Lemma moveTo_moveTo c l c' l' p :
  moveTo c l (moveTo c' l' p) = moveTo c l p.
Proof. reflexivity. Qed.

Lemma currentChar_moveTo c l p : currentChar (moveTo c l p) = c.
Proof. reflexivity. Qed.

Lemma currentLine_moveTo c l p : currentLine (moveTo c l p) = l.
Proof. reflexivity. Qed.

Lemma moveTo_set_tokenStart c l v p :
  moveTo c l (set_tokenStart v p) = set_tokenStart v (moveTo c l p).
Proof. reflexivity. Qed.

(** X4.  White space before a token changes nothing but the cursor: when
    the source goes on under the cursor with spaces, carriage returns and
    tabs and then with something else, the loop of [nextToken] and a call
    of [nextToken] give what they give in the state whose cursor stands
    after the white space, for which one more unit of fuel than there are
    white-space characters is enough. *)
Theorem white_space_is_skipped :
  (forall c ws tail p k,
      0 <= currentChar p ->
      rest p = c :: ws ++ tail ->
      Forall (fun c => blank (Some c) = true) (c :: ws) ->
      blank (first tail) = false ->
      nextTokenLoop (S (S (List.length ws + k))) p =
      nextTokenLoop (S (List.length ws + k))
        (moveTo (currentChar p + Z.of_nat (List.length (c :: ws)))
           (currentLine p) p))
  /\ (forall c ws tail p k,
         isEOF (Token.type (currentToken p)) = false ->
         0 <= currentChar p ->
         rest p = c :: ws ++ tail ->
         Forall (fun c => blank (Some c) = true) (c :: ws) ->
         blank (first tail) = false ->
         nextToken (S (S (List.length ws + k))) p =
         nextToken (S (List.length ws + k))
           (moveTo (currentChar p + Z.of_nat (List.length (c :: ws)))
              (currentLine p) p)).
Proof.
  assert (L : forall c ws tail p k,
             0 <= currentChar p ->
             rest p = c :: ws ++ tail ->
             Forall (fun c => blank (Some c) = true) (c :: ws) ->
             blank (first tail) = false ->
             nextTokenLoop (S (S (List.length ws + k))) p =
             nextTokenLoop (S (List.length ws + k))
               (moveTo (currentChar p + Z.of_nat (List.length (c :: ws)))
                  (currentLine p) p)).
  { intros c ws tail p k C R F T.
    assert (P : peekChar p = Some c)
      by (rewrite peekChar_rest, R by exact C; reflexivity).
    inversion F as [| ? ? Fc Fw]; subst.
    assert (N : c <> 0) by (intros ->; discriminate).
    rewrite (nextTokenLoop_dispatch _ p c P N).
    rewrite (scanToken_blank _ c _ Fc).
    pose proof (skipChars_moveTo [c] (ws ++ tail) p C R) as M1.
    cbn [skipChars List.length] in M1.
    assert (T1 : turned p =
                 moveTo (currentChar p + 1) (currentLine p)
                   (set_tokenStart (currentChar p) p)).
    { unfold turned. rewrite skipChar_moveTo.
      change (peekChar (set_tokenStart (currentChar p) p))
        with (peekChar p).
      rewrite P. replace (eqc (Some c) "010") with false
        by (destruct (Z.eq_dec c 10) as [-> | ?];
            [discriminate | symmetry; apply Z.eqb_neq; assumption]).
      rewrite Z.add_0_r. reflexivity. }
    assert (C1 : 0 <= currentChar (turned p)) by (rewrite T1; cbn; lia).
    assert (R1 : rest (turned p) = ws ++ tail).
    { rewrite T1, rest_moveTo.
      replace (Z.to_nat (currentChar p + 1))
        with (S (Z.to_nat (currentChar p))) by lia.
      eapply skipn_cons_succ. exact R. }
    rewrite (while_run blank ws tail (turned p) k C1 R1 Fw T).
    cbv beta iota.
    rewrite (skipChars_moveTo ws tail (turned p) C1 R1).
    rewrite (blank_no_newline ws Fw), Z.add_0_r, T1.
    rewrite moveTo_moveTo, currentChar_moveTo, currentLine_moveTo.
    rewrite moveTo_set_tokenStart, nextTokenLoop_tokenStart.
    replace (currentChar p + 1 + Z.of_nat (List.length ws))
      with (currentChar p + Z.of_nat (List.length (c :: ws)))
      by (cbn [List.length]; lia).
    reflexivity. }
  split; [exact L |].
  intros c ws tail p k E C R F T.
  rewrite (nextToken_is_loop _ p E).
  rewrite (nextToken_is_loop _ (moveTo _ _ p) E).
  exact (L c ws tail (set_previous (current p) p) k C R F T).
Qed.

Lemma white_space_is_skipped_witness :
  nextToken 5 (initParser (str "  a b")) =
  nextToken 4 (moveTo 2 0 (initParser (str "  a b"))).
Proof.
  exact (proj2 white_space_is_skipped (ch " ") [ch " "] (str "a b")
           (initParser (str "  a b")) 2%nat eq_refl ltac:(cbn; lia) eq_refl
           ltac:(repeat constructor) eq_refl).
Defined.
(** ** From the [switch] to the token made *)

Lemma sameScan_refl r : sameScan r r.
Proof. constructor; reflexivity. Qed.

Lemma sameScan_set_cur_value v r : sameScan r (set_cur_value v r).
Proof.
  unfold set_cur_value; cbv zeta. constructor; autorewrite with parser;
    reflexivity.
Qed.

Lemma skipChars_entered c lex' tail p :
  0 <= currentChar p ->
  rest p = (c :: lex') ++ tail ->
  skipChars (List.length lex') (entered p) =
  moveTo (currentChar p + Z.of_nat (List.length (c :: lex')))
    (currentLine p + newlines (c :: lex'))
    (set_tokenStart (currentChar p) (set_previous (current p) p)).
Proof.
  intros C R.
  exact (skipChars_moveTo (c :: lex') tail
           (set_tokenStart (currentChar p) (set_previous (current p) p))
           C R).
Qed.

(** A [case] of the [switch] that went over the lexeme [c :: lex'] and
    then made a token of type [ty]. *)
Lemma nextToken_yields ty c lex' tail fuel p r :
  isEOF (Token.type (currentToken p)) = false ->
  0 <= currentChar p ->
  rest p = (c :: lex') ++ tail ->
  c <> 0 ->
  scanToken fuel (Some c) (entered p) = Some (Return, makeToken ty r) ->
  sameScan (skipChars (List.length lex') (entered p)) r ->
  exists q,
    nextToken (S fuel) p = Some q
    /\ yields ty (c :: lex') p q
    /\ rest q = tail
    /\ parens q = parens p
    /\ currentLine q = currentLine p + newlines (c :: lex')
    /\ Token.value (currentToken q) = Token.value (currentToken r).
Proof.
  intros E C R N H [Ss St Sc Sl Sp Sn Sk So].
  assert (P : peekChar p = Some c)
    by (rewrite peekChar_rest, R by exact C; reflexivity).
  rewrite (nextToken_dispatch fuel p c E P N), H.
  rewrite (skipChars_entered c lex' tail p C R) in *.
  cbn [source tokenStart currentChar currentLine parens numParens tokens
         console moveTo set_currentLine set_currentChar set_tokenStart
         set_previous] in *.
  exists (makeToken ty r). split; [reflexivity |].
  destruct (makeToken_fields ty r)
    as (Fs & _ & Fc & Fl & _ & _ & Fp & _ & _ & Fk).
  split; [| split; [| split; [| split]]].
  - apply (yields_makeToken ty (c :: lex') tail); auto.
  - unfold rest. rewrite Fs, Fc, Ss, Sc.
    exact (rest_after (c :: lex') tail p 0 C R).
  - rewrite Fp, Sp. reflexivity.
  - rewrite Fl, Sl. reflexivity.
  - rewrite Fk. reflexivity.
Qed.

(** ** Operators of one to three characters *)

Lemma rest_skipChar c t r :
  0 <= currentChar r -> rest r = c :: t ->
  0 <= currentChar (skipChar r) /\ rest (skipChar r) = t.
Proof.
  intros C R. rewrite skipChar_moveTo. split; [cbn; lia |].
  rewrite rest_moveTo.
  replace (Z.to_nat (currentChar r + 1))
    with (S (Z.to_nat (currentChar r))) by lia.
  eapply skipn_cons_succ. exact R.
Qed.

Lemma matchChar_yes a r t :
  0 <= currentChar r -> rest r = ch a :: t ->
  matchChar a r = (true, skipChar r).
Proof.
  intros C R. unfold matchChar. rewrite peekChar_rest, R by exact C.
  cbn [first hd_error]. rewrite eqc_Some, Z.eqb_refl. reflexivity.
Qed.

Lemma matchChar_no a r :
  0 <= currentChar r -> eqc (first (rest r)) a = false ->
  matchChar a r = (false, r).
Proof.
  intros C R. unfold matchChar. rewrite peekChar_rest, R by exact C.
  reflexivity.
Qed.

Lemma eqc_first_not tail no a :
  (forall d, first tail = Some d -> ~ In d no) ->
  In (ch a) no ->
  eqc (first tail) a = false.
Proof.
  intros H I. destruct (first tail) as [d |]; [| reflexivity].
  rewrite eqc_Some. apply Z.eqb_neq. intros ->. exact (H _ eq_refl I).
Qed.

Lemma scanToken_operator f r c lex' no ty tail :
  In (c :: lex', no, ty) operators ->
  (forall d, first tail = Some d -> ~ In d no) ->
  0 <= currentChar r ->
  rest r = lex' ++ tail ->
  scanToken f (Some c) r
  = Some (Return, makeToken ty (skipChars (List.length lex') r)).
Proof.
  intros I H C R.
  assert (N : forall a, In (ch a) no -> eqc (first tail) a = false)
    by (intros a; apply eqc_first_not; exact H).
  unfold operators in I. cbn [In] in I.
  repeat (destruct I as [I | I];
          [ injection I as <- <- <- <-; cbn [List.length skipChars];
            cbn [app] in R | ]);
    [ .. | contradiction ].
  all: unfold scanToken; repeat (simpl (eqc (Some _) _)); cbv iota.
  all: unfold twoCharToken.
  all: try (destruct (rest_skipChar _ _ r C R) as [C' R']).
  all: repeat
         (first
            [ rewrite (matchChar_no _ r C)
                by (rewrite R; first [reflexivity | apply N; cbn; tauto])
            | erewrite (matchChar_yes _ r _ C R)
            | rewrite (matchChar_no _ (skipChar r) C')
                by (rewrite R'; first [reflexivity | apply N; cbn; tauto])
            | erewrite (matchChar_yes _ (skipChar r) _ C' R') ];
          cbv iota).
  all: reflexivity.
Qed.

(** X5.  The operators that begin with [|], [&], [=], [!], [.], [/], [<]
    or [>] are made by the longest match: each lexeme of [operators], met
    under the cursor before the end of file and not followed by a
    character that would lengthen it, makes the token of its type with
    that lexeme, and the cursor stands right after it. *)
Theorem operators_longest_match lex no ty fuel p tail :
  In (lex, no, ty) operators ->
  (forall d, first tail = Some d -> ~ In d no) ->
  isEOF (Token.type (currentToken p)) = false ->
  0 <= currentChar p ->
  rest p = lex ++ tail ->
  exists q,
    nextToken (S fuel) p = Some q
    /\ yields ty lex p q
    /\ rest q = tail
    /\ parens q = parens p.
Proof.
  intros I H E C R.
  assert (L : exists c lex', lex = c :: lex' /\ c <> 0).
  { unfold operators in I. cbn [In] in I.
    repeat (destruct I as [I | I];
            [ injection I as <- _ _; do 2 eexists;
              split; [reflexivity | discriminate] | ]).
    contradiction. }
  destruct L as (c & lex' & -> & N).
  destruct (rest_skipChar c (lex' ++ tail)
              (set_tokenStart (currentChar p) (set_previous (current p) p))
              C R) as [C' R'].
  destruct (nextToken_yields ty c lex' tail fuel p
              (skipChars (List.length lex') (entered p)) E C R N)
    as (q & Hq & Y & Rq & Pq & _).
  - exact (scanToken_operator fuel (entered p) c lex' no ty tail I H C' R').
  - apply sameScan_refl.
  - exists q. auto.
Qed.

Lemma operators_longest_match_witness :
  exists q,
    nextToken 1 (initParser (str "<=<")) = Some q
    /\ yields TOKEN_LTEQ (str "<=") (initParser (str "<=<")) q
    /\ rest q = str "<".
Proof.
  destruct (operators_longest_match (str "<=") [] TOKEN_LTEQ 0
              (initParser (str "<=<")) (str "<"))
    as (q & H & Y & R & _).
  - cbn. tauto.
  - intros d _ [].
  - reflexivity.
  - cbn; lia.
  - reflexivity.
  - exists q. auto.
Defined.
(** ** Names, fields and keywords *)

Lemma isName_cases c :
  isName (Some c) = true ->
  97 <= c <= 122 \/ 65 <= c <= 90 \/ c = 95.
Proof.
  unfold isName, gec, lec, eqc.
  change (ch "a") with 97. change (ch "z") with 122.
  change (ch "A") with 65. change (ch "Z") with 90.
  change (ch "_") with 95.
  intros H.
  apply orb_prop in H as [H | H]; [apply orb_prop in H as [H | H] |].
  - apply andb_prop in H as [A B]. left. lia.
  - apply andb_prop in H as [A B]. right; left. lia.
  - right; right. lia.
Qed.

(** The [switch] on a character with which a name starts. *)
Lemma scanToken_name f c r :
  isName (Some c) = true ->
  scanToken f (Some c) r =
  do q <- readName f
            (if c =? ch "_" then
               if eqc (peekChar r) "_" then TOKEN_STATIC_FIELD
               else TOKEN_FIELD
             else TOKEN_NAME) r;
  Some (Return, q).
Proof.
  intros H. pose proof (isName_cases c H) as Hc.
  destruct (Z.eq_dec c 95) as [-> | U]; [reflexivity |].
  replace (c =? ch "_") with false
    by (symmetry; apply Z.eqb_neq; exact U).
  unfold scanToken. rewrite H, !eqc_Some.
  repeat match goal with
    | |- context [c =? ?k] =>
        let v := eval vm_compute in k in
        replace (c =? k) with false
          by (symmetry; apply Z.eqb_neq; change k with v; lia)
    end.
  rewrite andb_false_r. reflexivity.
Qed.

(** [readName] goes over the longest run of letters, digits and
    underscores and makes the token that the keyword table gives for the
    text from [tokenStart] to the end of the run. *)
Lemma readName_run ty lex' tail r k :
  0 <= currentChar r ->
  rest r = lex' ++ tail ->
  Forall (fun c => nameChar (Some c) = true) lex' ->
  nameChar (first tail) = false ->
  let r' := skipChars (List.length lex') r in
  readName (S (List.length lex' + k)) ty r =
  Some (makeToken
          (lookupKeyword keywords
             (substr (source r') (Some (tokenStart r'))
                (currentChar r' - tokenStart r')) ty) r').
Proof.
  intros C R F T r'. unfold readName.
  pose proof (while_run nameChar lex' tail r k C R F T) as W.
  unfold nameChar in W at 1. rewrite W. reflexivity.
Qed.

(** X6.  A name is the longest run of letters, digits and underscores
    that starts with a letter or an underscore.  Met under the cursor
    before the end of file, it makes one token with the run as the
    lexeme; the type is what the keyword table gives for the run,
    starting from [TOKEN_NAME], or from the field types when the run
    starts with one or with two underscores.  A unit of fuel for every
    character and two more are enough. *)
Theorem names_are_longest_runs c lex' tail fuel p :
  isName (Some c) = true ->
  Forall (fun c => nameChar (Some c) = true) lex' ->
  nameChar (first tail) = false ->
  isEOF (Token.type (currentToken p)) = false ->
  0 <= currentChar p ->
  rest p = (c :: lex') ++ tail ->
  exists q,
    nextToken (S (S (List.length lex' + fuel))) p = Some q
    /\ yields (lookupKeyword keywords (c :: lex') (nameType c lex'))
         (c :: lex') p q
    /\ rest q = tail
    /\ parens q = parens p.
Proof.
  intros Hc F T E C R.
  assert (N : c <> 0) by (apply isName_cases in Hc; lia).
  destruct (rest_skipChar c (lex' ++ tail)
              (set_tokenStart (currentChar p) (set_previous (current p) p))
              C R) as [C' R'].
  change (skipChar (set_tokenStart (currentChar p)
                      (set_previous (current p) p)))
    with (entered p) in C', R'.
  set (r' := skipChars (List.length lex') (entered p)).
  destruct (nextToken_yields
              (lookupKeyword keywords (c :: lex') (nameType c lex'))
              c lex' tail (S (List.length lex' + fuel)) p r' E C R N)
    as (q & Hq & Y & Rq & Pq & _).
  - rewrite (scanToken_name _ c _ Hc).
    assert (Ty : (if c =? ch "_" then
                    if eqc (peekChar (entered p)) "_"
                    then TOKEN_STATIC_FIELD else TOKEN_FIELD
                  else TOKEN_NAME) = nameType c lex').
    { unfold nameType. destruct (c =? ch "_"); [| reflexivity].
      rewrite (peekChar_rest _ C'), R'.
      destruct lex' as [| d lex']; [| reflexivity].
      change ([] ++ tail) with tail.
      replace (eqc (first tail) "_") with false; [reflexivity |].
      unfold nameChar, isName in T.
      destruct (eqc (first tail) "_"); [| reflexivity].
      rewrite orb_true_r in T. discriminate. }
    rewrite Ty.
    rewrite (readName_run (nameType c lex') lex' tail (entered p) fuel
               C' R' F T).
    cbv zeta. fold r'.
    replace (substr (source r') (Some (tokenStart r'))
               (currentChar r' - tokenStart r')) with (c :: lex');
      [reflexivity |].
    unfold r'. rewrite (skipChars_entered c lex' tail p C R).
    cbn [source tokenStart currentChar moveTo set_currentLine
           set_currentChar set_tokenStart set_previous].
    replace (currentChar p + Z.of_nat (List.length (c :: lex'))
             - currentChar p)
      with (Z.of_nat (List.length (c :: lex'))) by lia.
    symmetry. exact (substr_rest (c :: lex') tail p C R).
  - apply sameScan_refl.
  - exists q. auto.
Qed.

Lemma names_are_longest_runs_witness :
  exists q,
    nextToken 6 (initParser (str "class Foo")) = Some q
    /\ yields TOKEN_CLASS (str "class") (initParser (str "class Foo")) q
    /\ rest q = str " Foo".
Proof.
  destruct (names_are_longest_runs (ch "c") (str "lass") (str " Foo") 0
              (initParser (str "class Foo")))
    as (q & H & Y & R & _).
  - reflexivity.
  - repeat constructor.
  - reflexivity.
  - reflexivity.
  - cbn; lia.
  - reflexivity.
  - exists q. auto.
Defined.
(** ** The keyword table *)

Lemma jsstring_eqb_eq : forall a b, jsstring_eqb a b = true -> a = b.
Proof.
  induction a as [| x a IH]; intros [| y b] H; cbn in H;
    try discriminate; [reflexivity |].
  apply andb_prop in H as [X Y]. apply Z.eqb_eq in X.
  rewrite X, (IH b Y). reflexivity.
Qed.

Lemma lookupKeyword_other name ty :
  forall kws,
    (forall k, In k kws -> identifier k <> Some name) ->
    lookupKeyword kws name ty = ty.
Proof.
  induction kws as [| k kws IH]; intros H; [reflexivity |].
  cbn [lookupKeyword].
  destruct (identifier k) as [s |] eqn:I.
  - destruct (jsstring_eqb name s) eqn:Q.
    + apply jsstring_eqb_eq in Q. subst s.
      exfalso. apply (H k); [left; reflexivity | exact I].
    + rewrite andb_false_r. apply IH.
      intros k' In'. apply H. right. exact In'.
  - rewrite andb_false_r. apply IH.
    intros k' In'. apply H. right. exact In'.
Qed.

(** X7.  The loop of [readName] over the keyword table finds exactly the
    nineteen reserved words: for the identifier of an entry of the table
    it gives the type of that entry, whatever the type it started from,
    and for every other text, the empty one and the sentinel's missing
    identifier included, it leaves the type as it was. *)
Theorem keyword_table_lookup :
  (forall k s ty,
      In k keywords -> identifier k = Some s ->
      lookupKeyword keywords s ty = tokenType k)
  /\ (forall name ty,
         (forall k, In k keywords -> identifier k <> Some name) ->
         lookupKeyword keywords name ty = ty).
Proof.
  split.
  - intros k s ty I H. unfold keywords in I. cbn [In] in I.
    repeat (destruct I as [<- | I];
            [ cbn [identifier] in H;
              first [ discriminate H
                    | injection H as <-; vm_compute; reflexivity ] | ]).
    contradiction.
  - intros name ty H. apply lookupKeyword_other. exact H.
Qed.

Lemma keyword_table_lookup_witness :
  lookupKeyword keywords (str "import") TOKEN_NAME = TOKEN_IMPORT
  /\ lookupKeyword keywords (str "imports") TOKEN_NAME = TOKEN_NAME.
Proof.
  split.
  - apply (proj1 keyword_table_lookup
             (mkKeyword (Some (str "import")) 6 TOKEN_IMPORT)).
    + cbn. tauto.
    + reflexivity.
  - apply (proj2 keyword_table_lookup).
    intros k I. unfold keywords in I. cbn [In] in I.
    repeat (destruct I as [<- | I]; [discriminate |]).
    contradiction.
Defined.
(** ** Number literals *)

Lemma nth_error_skipn_add (A : Type) :
  forall n m (l : list A), nth_error (skipn n l) m = nth_error l (n + m).
Proof.
  induction n as [| n IH]; intros m l; [reflexivity |].
  destruct l as [| x l]; [destruct m; reflexivity | apply IH].
Qed.

Lemma peekNextChar_rest r :
  0 <= currentChar r -> peekNextChar r = second (rest r).
Proof.
  intros C. unfold peekNextChar, charAt, second, rest.
  destruct (currentChar r + 1 <? 0) eqn:E; [apply Z.ltb_lt in E; lia |].
  rewrite nth_error_skipn_add. f_equal. lia.
Qed.

Lemma skipChars_add :
  forall a b r, skipChars (a + b) r = skipChars b (skipChars a r).
Proof.
  induction a as [| a IH]; intros b r; [reflexivity |].
  cbn [Nat.add skipChars]. apply IH.
Qed.

Lemma skipChars_succ n r : skipChars (S n) r = skipChar (skipChars n r).
Proof.
  replace (S n) with (n + 1)%nat by lia. apply skipChars_add.
Qed.

(** Where the scan stands after it went over a piece of the source. *)
Lemma rest_skipChars pre t r :
  0 <= currentChar r -> rest r = pre ++ t ->
  0 <= currentChar (skipChars (List.length pre) r)
  /\ rest (skipChars (List.length pre) r) = t.
Proof.
  intros C R. rewrite (skipChars_moveTo pre t r C R). split.
  - cbn. lia.
  - apply rest_after; assumption.
Qed.

Lemma while_run_fuel (test : option Z -> bool) pre t r f :
  0 <= currentChar r ->
  rest r = pre ++ t ->
  Forall (fun c => test (Some c) = true) pre ->
  test (first t) = false ->
  (List.length pre < f)%nat ->
  while f (fun p => test (peekChar p)) skipChar r
  = Some (skipChars (List.length pre) r).
Proof.
  intros C R F T L.
  replace f with (S (List.length pre + (f - S (List.length pre))))
    by lia.
  apply (while_run test pre t); assumption.
Qed.

Lemma skipDigits_run pre t r f :
  0 <= currentChar r ->
  rest r = pre ++ t ->
  digits pre ->
  isDigit (first t) = false ->
  (List.length pre < f)%nat ->
  skipDigits f r = Some (skipChars (List.length pre) r).
Proof. apply (while_run_fuel isDigit). Qed.

Lemma first_app_cons (c : Z) s t : first ((c :: s) ++ t) = Some c.
Proof. reflexivity. Qed.

(** [matchChar('e') || matchChar('E')]. *)
Lemma matchExponent_yes e t r :
  0 <= currentChar r -> rest r = e :: t ->
  e = ch "e" \/ e = ch "E" ->
  (let '(m1, p1) := matchChar "e" r in
   if m1 then (true, p1) else matchChar "E" p1) = (true, skipChar r).
Proof.
  intros C R [-> | ->].
  - rewrite (matchChar_yes "e" r t C R). reflexivity.
  - rewrite (matchChar_no "e" r C) by (rewrite R; reflexivity).
    rewrite (matchChar_yes "E" r t C R). reflexivity.
Qed.

Lemma matchExponent_no r :
  0 <= currentChar r ->
  eqc (first (rest r)) "e" || eqc (first (rest r)) "E" = false ->
  (let '(m1, p1) := matchChar "e" r in
   if m1 then (true, p1) else matchChar "E" p1) = (false, r).
Proof.
  intros C H. apply orb_false_elim in H as [A B].
  rewrite (matchChar_no "e" r C A), (matchChar_no "E" r C B). reflexivity.
Qed.

Lemma digit_range c : isDigit (Some c) = true -> 48 <= c <= 57.
Proof.
  unfold isDigit, gec, lec. change (ch "0") with 48. change (ch "9") with 57.
  intros H. apply andb_prop in H as [A B]. lia.
Qed.

Lemma isDigit_first_digits d ds t :
  digits (d :: ds) -> isDigit (first ((d :: ds) ++ t)) = true.
Proof. intros H. inversion H; subst. assumption. Qed.

(** The fraction: consumed when a point and a digit follow the integer
    part, and only then. *)
Lemma fraction_run frac t r f :
  0 <= currentChar r ->
  rest r = frac ++ t ->
  fractionPart frac ->
  isDigit (first t) = false ->
  (frac = [] -> eqc (first t) "." && isDigit (second t) = false) ->
  (List.length frac < f)%nat ->
  (if eqc (peekChar r) "." && isDigit (peekNextChar r)
   then skipDigits f (skipChar r)
   else Some r) = Some (skipChars (List.length frac) r).
Proof.
  intros C R [-> | (d & fs & -> & D)] T N L.
  - rewrite peekChar_rest, peekNextChar_rest, R by exact C.
    change ([] ++ t) with t. rewrite (N eq_refl). reflexivity.
  - rewrite peekChar_rest, peekNextChar_rest, R by exact C.
    assert (Dd : isDigit (Some d) = true) by (inversion D; assumption).
    change (eqc (first ((ch "." :: d :: fs) ++ t)) "."
            && isDigit (second ((ch "." :: d :: fs) ++ t)))
      with (true && isDigit (Some d)).
    rewrite Dd. cbn [andb].
    destruct (rest_skipChar _ _ r C R) as [C1 R1].
    cbn [List.length] in L.
    rewrite (skipDigits_run (d :: fs) t (skipChar r) f C1 R1 D T)
      by (cbn [List.length]; lia).
    reflexivity.
Qed.

(** The exponent: an [e] or [E] after the number is always consumed, then
    a minus, then the digits. *)
Lemma exponent_run expo t r f :
  0 <= currentChar r ->
  rest r = expo ++ t ->
  exponentPart expo ->
  isDigit (first t) = false ->
  (expo = [] -> eqc (first t) "e" || eqc (first t) "E" = false) ->
  (List.length expo < f)%nat ->
  (let '(m, p) :=
     let '(m1, p1) := matchChar "e" r in
     if m1 then (true, p1) else matchChar "E" p1 in
   do p <- (if m then
              let p := snd (matchChar "-" p) in
              let p :=
                if negb (isDigit (peekChar p))
                then lexError (str "Unterminated scientific notation.") p
                else p in
              skipDigits f p
            else Some p);
   Some (makeNumber false p))
  = Some (makeNumber false (skipChars (List.length expo) r)).
Proof.
  intros C R [-> | (e & sign & d & ds & -> & He & Hs & D)] T N L.
  - change ([] ++ t) with t in R.
    rewrite (matchExponent_no r C) by (rewrite R; exact (N eq_refl)).
    reflexivity.
  - rewrite (matchExponent_yes e _ r C R He).
    destruct (rest_skipChar e ((sign ++ d :: ds) ++ t) r C R) as [C1 R1].
    assert (Dd : isDigit (Some d) = true) by (inversion D; assumption).
    rewrite <- app_assoc in R1.
    cbn [List.length] in L. rewrite length_app in L.
    destruct Hs as [-> | ->].
    + change ([] ++ (d :: ds) ++ t) with ((d :: ds) ++ t) in R1.
      rewrite (matchChar_no "-" _ C1).
      2:{ rewrite R1, first_app_cons, eqc_Some.
          apply Z.eqb_neq. apply digit_range in Dd.
          change (ch "-") with 45. lia. }
      cbn [snd]. cbv zeta.
      rewrite (peekChar_rest _ C1), R1.
      rewrite (isDigit_first_digits d ds t D). cbn [negb].
      rewrite (skipDigits_run (d :: ds) t _ f C1 R1 D T)
        by (cbn [List.length] in *; lia).
      reflexivity.
    + change ([ch "-"] ++ (d :: ds) ++ t)
        with (ch "-" :: (d :: ds) ++ t) in R1.
      rewrite (matchChar_yes "-" _ _ C1 R1).
      destruct (rest_skipChar _ _ _ C1 R1) as [C2 R2].
      cbn [snd]. cbv zeta.
      rewrite (peekChar_rest _ C2), R2.
      rewrite (isDigit_first_digits d ds t D). cbn [negb].
      rewrite (skipDigits_run (d :: ds) t _ f C2 R2 D T)
        by (cbn [List.length] in *; lia).
      reflexivity.
Qed.

(** [readNumber] on a well-formed literal. *)
Lemma readNumber_run ds frac expo tail r f :
  0 <= currentChar r ->
  rest r = (ds ++ frac ++ expo) ++ tail ->
  digits ds -> fractionPart frac -> exponentPart expo ->
  isDigit (first tail) = false ->
  (frac = [] -> expo = [] ->
   eqc (first tail) "." && isDigit (second tail) = false) ->
  (expo = [] -> eqc (first tail) "e" || eqc (first tail) "E" = false) ->
  (List.length (ds ++ frac ++ expo) < f)%nat ->
  readNumber f r
  = Some (makeNumber false (skipChars (List.length (ds ++ frac ++ expo)) r)).
Proof.
  intros C R D Hf He T N1 N2 L.
  rewrite !length_app in L.
  rewrite <- !app_assoc in R.
  assert (X : isDigit (first (expo ++ tail)) = false
              /\ (frac = [] ->
                  eqc (first (expo ++ tail)) "."
                  && isDigit (second (expo ++ tail)) = false)).
  { destruct He as [-> | (e & sign & d & es & -> & [-> | ->] & _)].
    - split; [exact T |]. intros Z. exact (N1 Z eq_refl).
    - split; reflexivity.
    - split; reflexivity. }
  destruct X as [TB NB].
  assert (TA : isDigit (first (frac ++ expo ++ tail)) = false).
  { destruct Hf as [-> | (d & fs & -> & _)]; [exact TB | reflexivity]. }
  unfold readNumber.
  rewrite (skipDigits_run ds (frac ++ expo ++ tail) r f C R D TA)
    by lia.
  cbv beta iota.
  destruct (rest_skipChars ds (frac ++ expo ++ tail) r C R) as [CA RA].
  rewrite (fraction_run frac (expo ++ tail) _ f CA RA Hf TB NB) by lia.
  cbv beta iota.
  destruct (rest_skipChars frac (expo ++ tail) _ CA RA) as [CB RB].
  etransitivity;
    [exact (exponent_run expo tail _ f CB RB He T N2 ltac:(lia)) |].
  rewrite <- !skipChars_add, !length_app, Nat.add_assoc. reflexivity.
Qed.

(** The [switch] on a digit. *)
Lemma scanToken_digit f c r :
  isDigit (Some c) = true ->
  (c = ch "0" -> eqc (peekChar r) "x" = false) ->
  scanToken f (Some c) r = do q <- readNumber f r; Some (Return, q).
Proof.
  intros H X. pose proof (digit_range c H) as Hc.
  destruct (Z.eq_dec c 48) as [-> | U].
  - unfold scanToken. rewrite (X eq_refl). reflexivity.
  - assert (Nm : isName (Some c) = false).
    { destruct (isName (Some c)) eqn:Nm; [| reflexivity].
      apply isName_cases in Nm. lia. }
    unfold scanToken. rewrite H, Nm, !eqc_Some.
    repeat match goal with
      | |- context [c =? ?k] =>
          let v := eval vm_compute in k in
          replace (c =? k) with false
            by (symmetry; apply Z.eqb_neq; change k with v; lia)
      end.
    rewrite andb_false_r. reflexivity.
Qed.

(** X8.  A number literal is a run of digits, then a fraction if a point
    and a digit follow, then an exponent if an [e] or [E] follows.  A
    well-formed literal, met under the cursor before the end of file and
    followed by nothing that would lengthen it, makes one number token
    with the whole literal as the lexeme and writes nothing on the
    console; a point that no digit follows is left for the next token.  A
    unit of fuel for every character and one more are enough. *)
Theorem number_literals c ds frac expo tail fuel p :
  isDigit (Some c) = true ->
  digits ds -> fractionPart frac -> exponentPart expo ->
  (c = ch "0" -> ds ++ frac ++ expo = [] -> eqc (first tail) "x" = false) ->
  isDigit (first tail) = false ->
  (frac = [] -> expo = [] ->
   eqc (first tail) "." && isDigit (second tail) = false) ->
  (expo = [] -> eqc (first tail) "e" || eqc (first tail) "E" = false) ->
  isEOF (Token.type (currentToken p)) = false ->
  0 <= currentChar p ->
  rest p = (c :: ds ++ frac ++ expo) ++ tail ->
  exists q,
    nextToken (S (S (List.length (ds ++ frac ++ expo) + fuel))) p = Some q
    /\ yields TOKEN_NUMBER (c :: ds ++ frac ++ expo) p q
    /\ rest q = tail
    /\ parens q = parens p.
Proof.
  intros Hc D Hf He X T N1 N2 E C R.
  assert (N : c <> 0) by (apply digit_range in Hc; lia).
  destruct (rest_skipChar c ((ds ++ frac ++ expo) ++ tail)
              (set_tokenStart (currentChar p) (set_previous (current p) p))
              C R) as [C' R'].
  change (skipChar (set_tokenStart (currentChar p)
                      (set_previous (current p) p)))
    with (entered p) in C', R'.
  set (r' := skipChars (List.length (ds ++ frac ++ expo)) (entered p)).
  destruct (nextToken_yields TOKEN_NUMBER c (ds ++ frac ++ expo) tail
              (S (List.length (ds ++ frac ++ expo) + fuel)) p
              (set_cur_value (VNumber (parseFloat (tokenStart r'))) r')
              E C R N)
    as (q & Hq & Y & Rq & Pq & _).
  - rewrite (scanToken_digit _ c _ Hc).
    + rewrite (readNumber_run ds frac expo tail (entered p) _ C' R' D Hf He
                 T N1 N2) by lia.
      reflexivity.
    + intros Z0. rewrite (peekChar_rest _ C'), R'.
      destruct ds as [| d ds].
      * destruct Hf as [-> | (d & fs & -> & _)]; [| reflexivity].
        destruct He as [-> | (e & sign & d & es & -> & [-> | ->] & _)];
          [exact (X Z0 eq_refl) | reflexivity | reflexivity].
      * inversion D as [| ? ? Dd _]; subst.
        rewrite <- app_comm_cons, first_app_cons, eqc_Some.
        apply Z.eqb_neq. apply digit_range in Dd.
        change (ch "x") with 120. lia.
  - apply sameScan_set_cur_value.
  - exists q. auto.
Qed.

Lemma number_literals_witness :
  exists q,
    nextToken 9 (initParser (str "12.5e-3.x")) = Some q
    /\ yields TOKEN_NUMBER (str "12.5e-3") (initParser (str "12.5e-3.x")) q
    /\ rest q = str ".x".
Proof.
  destruct (number_literals (ch "1") (str "2") (str ".5") (str "e-3")
              (str ".x") 1 (initParser (str "12.5e-3.x")))
    as (q & H & Y & R & _).
  - reflexivity.
  - repeat constructor.
  - right. exists (ch "5"), []. split; [reflexivity | repeat constructor].
  - right. exists (ch "e"), [ch "-"], (ch "3"), [].
    split; [reflexivity |]. split; [left; reflexivity |].
    split; [right; reflexivity | repeat constructor].
  - discriminate.
  - reflexivity.
  - discriminate.
  - discriminate.
  - reflexivity.
  - cbn; lia.
  - reflexivity.
  - exists q. auto.
Defined.
(** ** Hexadecimal literals *)




Lemma hexChar_no_newline hs :
  Forall (fun c => hexChar (Some c) = true) hs -> newlines hs = 0.
Proof.
  unfold newlines. induction 1 as [| c s B _ IH]; [reflexivity |].
  cbn [count_occ]. destruct (Z.eq_dec c 10) as [-> | N]; [discriminate |].
  exact IH.
Qed.

Lemma readHexDigits_S f p :
  readHexDigits (S f) p =
  let '(d, p) := readHexDigit p in
  if negb (js_num_eqb d (Num (-1))) then readHexDigits f p else Some p.
Proof. reflexivity. Qed.




(** ** Comments *)

Lemma scanToken_slash f r :
  scanToken f (Some (ch "/")) r =
  let '(m, p) := matchChar "/" r in
  if m then
    do p <- skipLineComment f p;
    Some (Break, p)
  else
    let '(m, p) := matchChar "*" p in
    if m then
      do p <- skipBlockComment f p;
      Some (Break, p)
    else Some (Return, makeToken TOKEN_SLASH p).
Proof. reflexivity. Qed.

Lemma inLine_no_newline s :
  Forall (fun c => inLine (Some c) = true) s -> newlines s = 0.
Proof.
  unfold newlines. induction 1 as [| c s B _ IH]; [reflexivity |].
  cbn [count_occ]. destruct (Z.eq_dec c 10) as [-> | N]; [discriminate |].
  exact IH.
Qed.

Lemma rest_skipChar_tl r :
  0 <= currentChar r ->
  0 <= currentChar (skipChar r) /\ rest (skipChar r) = tl (rest r).
Proof.
  intros C. destruct (rest r) as [| c t] eqn:R.
  - rewrite skipChar_moveTo. split; [cbn; lia |].
    rewrite rest_moveTo. unfold rest in R.
    replace (Z.to_nat (currentChar r + 1))
      with (1 + Z.to_nat (currentChar r))%nat by lia.
    rewrite <- skipn_skipn, R. reflexivity.
  - apply (rest_skipChar c t r C R).
Qed.

(** A loop over [nextChar] whose test holds of every character that is
    left, and of [undefined], does not end. *)
Lemma while_never (test : option Z -> bool) :
  test None = true ->
  forall f r,
    0 <= currentChar r ->
    Forall (fun c => test (Some c) = true) (rest r) ->
    while f (fun p => test (peekChar p)) skipChar r = None.
Proof.
  intros U. induction f as [| f IH]; intros r C F; [reflexivity |].
  cbn [while]. rewrite (peekChar_rest r C).
  destruct (rest_skipChar_tl r C) as [C1 R1].
  assert (T : test (first (rest r)) = true).
  { destruct (rest r) as [| c t]; [exact U |]. inversion F; assumption. }
  rewrite T. apply IH; [exact C1 |].
  rewrite R1. destruct (rest r) as [| c t]; [constructor |].
  inversion F; assumption.
Qed.

(** X10.  A line comment is [//] and everything up to the next newline or
    NUL, which is left under the cursor: the loop of [nextToken] goes on
    as from the state whose cursor stands there, with nothing recorded or
    written.  When neither a newline nor a NUL is left in the source, the
    comment has no end: the loop does not return with any fuel. *)
Theorem line_comments :
  (forall body tail p k,
      Forall (fun c => inLine (Some c) = true) body ->
      inLine (first tail) = false ->
      0 <= currentChar p ->
      rest p = (ch "/" :: ch "/" :: body) ++ tail ->
      nextTokenLoop (S (S (List.length body + k))) p =
      nextTokenLoop (S (List.length body + k))
        (moveTo
           (currentChar p + Z.of_nat (List.length (ch "/" :: ch "/" :: body)))
           (currentLine p) p))
  /\ (forall body p fuel,
         Forall (fun c => inLine (Some c) = true) body ->
         0 <= currentChar p ->
         rest p = ch "/" :: ch "/" :: body ->
         nextTokenLoop fuel p = None).
Proof.
  split.
  - intros body tail p k F T C R.
    assert (P : peekChar p = Some (ch "/"))
      by (rewrite peekChar_rest, R by exact C; reflexivity).
    rewrite (nextTokenLoop_dispatch _ p (ch "/") P) by discriminate.
    destruct (rest_skipChar (ch "/") ((ch "/" :: body) ++ tail)
                (set_tokenStart (currentChar p) p) C R) as [C1 R1].
    change (skipChar (set_tokenStart (currentChar p) p))
      with (turned p) in C1, R1.
    destruct (rest_skipChar (ch "/") (body ++ tail) (turned p) C1 R1)
      as [C2 R2].
    rewrite scanToken_slash.
    rewrite (matchChar_yes "/" (turned p) _ C1 R1).
    unfold skipLineComment.
    pose proof (while_run inLine body tail (skipChar (turned p)) k
                  C2 R2 F T) as W.
    unfold inLine in W at 1. rewrite W. clear W.
    rewrite (skipChars_moveTo body tail _ C2 R2).
    rewrite (inLine_no_newline body F), Z.add_0_r.
    assert (S2 : skipChar (turned p) =
                 moveTo (currentChar p + 2) (currentLine p)
                   (set_tokenStart (currentChar p) p)).
    { change (skipChar (turned p))
        with (skipChars (List.length [ch "/"; ch "/"])
                (set_tokenStart (currentChar p) p)).
      rewrite (skipChars_moveTo [ch "/"; ch "/"] (body ++ tail)
                 (set_tokenStart (currentChar p) p) C R).
      change (newlines [ch "/"; ch "/"]) with 0. rewrite Z.add_0_r.
      reflexivity. }
    rewrite S2.
    rewrite moveTo_moveTo, currentChar_moveTo, currentLine_moveTo.
    rewrite moveTo_set_tokenStart, nextTokenLoop_tokenStart.
    replace (currentChar p + 2 + Z.of_nat (List.length body))
      with (currentChar p
            + Z.of_nat (List.length (ch "/" :: ch "/" :: body)))
      by (cbn [List.length]; lia).
    reflexivity.
  - intros body p [| f] F C R; [reflexivity |].
    assert (P : peekChar p = Some (ch "/"))
      by (rewrite peekChar_rest, R by exact C; reflexivity).
    rewrite (nextTokenLoop_dispatch _ p (ch "/") P) by discriminate.
    destruct (rest_skipChar (ch "/") (ch "/" :: body)
                (set_tokenStart (currentChar p) p) C R) as [C1 R1].
    change (skipChar (set_tokenStart (currentChar p) p))
      with (turned p) in C1, R1.
    destruct (rest_skipChar (ch "/") body (turned p) C1 R1) as [C2 R2].
    rewrite scanToken_slash.
    rewrite (matchChar_yes "/" (turned p) _ C1 R1).
    unfold skipLineComment.
    pose proof (while_never inLine eq_refl f (skipChar (turned p)) C2) as W.
    unfold inLine in W at 2. rewrite W; [reflexivity |].
    rewrite R2. exact F.
Qed.

Lemma line_comments_witness :
  nextTokenLoop 5 (initParser (str "//ab" ++ [10])) =
  nextTokenLoop 4 (moveTo 4 0 (initParser (str "//ab" ++ [10])))
  /\ nextTokenLoop 9 (initParser (str "//ab")) = None.
Proof.
  split.
  - exact (proj1 line_comments (str "ab") [10]
             (initParser (str "//ab" ++ [10])) 1%nat
             ltac:(repeat constructor) eq_refl ltac:(cbn; lia) eq_refl).
  - exact (proj2 line_comments (str "ab") (initParser (str "//ab")) 9%nat
             ltac:(repeat constructor) ltac:(cbn; lia) eq_refl).
Defined.
(** ** Block comments *)

Lemma second_cons (c : Z) l : second (c :: l) = first l.
Proof. destruct l; reflexivity. Qed.

Lemma skipBlockCommentLoop_S f n p :
  skipBlockCommentLoop (S f) n p =
  if 0 <? n then
    if eqc (peekChar p) "000" then
      Some (lexError (str "Unterminated block comment.") p)
    else if eqc (peekChar p) "/" && eqc (peekNextChar p) "*" then
      skipBlockCommentLoop f (n + 1) (skipChar (skipChar p))
    else if eqc (peekChar p) "*" && eqc (peekNextChar p) "/" then
      skipBlockCommentLoop f (n - 1) (skipChar (skipChar p))
    else skipBlockCommentLoop f n (skipChar p)
  else Some p.
Proof. reflexivity. Qed.

Lemma first_commentText b n s tail :
  commentText b (S n) s ->
  forall a, ch a <> 0 ->
  eqc (first (s ++ after b tail)) a = eqc (first s) a.
Proof.
  intros H a N. destruct s as [| d s]; [| reflexivity].
  inversion H; subst. cbn [app after first hd_error eqc].
  apply Z.eqb_neq. congruence.
Qed.

(** [skipBlockComment] goes over the text of a comment, counting the
    levels that are open. *)
Lemma skipBlockCommentLoop_text tail :
  forall b n s,
    commentText b n s ->
    forall r f,
      0 <= currentChar r ->
      rest r = s ++ after b tail ->
      (List.length s < f)%nat ->
      skipBlockCommentLoop f (Z.of_nat n) r =
      Some (if b then skipChars (List.length s) r
            else lexError (str "Unterminated block comment.")
                   (skipChars (List.length s) r)).
Proof.
  induction 1 as [| n | b n s H IH | b n s H IH | b n c s N A B H IH];
    intros r f C R L.
  - destruct f as [| f]; [inversion L |]. reflexivity.
  - destruct f as [| f]; [inversion L |].
    rewrite skipBlockCommentLoop_S.
    replace (0 <? Z.of_nat (S n)) with true by (symmetry; apply Z.ltb_lt; lia).
    rewrite (peekChar_rest r C), R. reflexivity.
  - destruct f as [| f]; [inversion L |].
    rewrite skipBlockCommentLoop_S.
    replace (0 <? Z.of_nat (S n)) with true by (symmetry; apply Z.ltb_lt; lia).
    rewrite (peekChar_rest r C), (peekNextChar_rest r C), R.
    change (eqc (first ((ch "/" :: ch "*" :: s) ++ after b tail)) "000")
      with false.
    change (eqc (first ((ch "/" :: ch "*" :: s) ++ after b tail)) "/"
            && eqc (second ((ch "/" :: ch "*" :: s) ++ after b tail)) "*")
      with true.
    cbv iota.
    destruct (rest_skipChar _ _ r C R) as [C1 R1].
    destruct (rest_skipChar _ _ _ C1 R1) as [C2 R2].
    replace (Z.of_nat (S n) + 1) with (Z.of_nat (S (S n))) by lia.
    cbn [List.length] in L.
    rewrite (IH _ f C2 R2) by lia. reflexivity.
  - destruct f as [| f]; [inversion L |].
    rewrite skipBlockCommentLoop_S.
    replace (0 <? Z.of_nat (S n)) with true by (symmetry; apply Z.ltb_lt; lia).
    rewrite (peekChar_rest r C), (peekNextChar_rest r C), R.
    change (eqc (first ((ch "*" :: ch "/" :: s) ++ after b tail)) "000")
      with false.
    change (eqc (first ((ch "*" :: ch "/" :: s) ++ after b tail)) "/"
            && eqc (second ((ch "*" :: ch "/" :: s) ++ after b tail)) "*")
      with false.
    change (eqc (first ((ch "*" :: ch "/" :: s) ++ after b tail)) "*"
            && eqc (second ((ch "*" :: ch "/" :: s) ++ after b tail)) "/")
      with true.
    cbv iota.
    destruct (rest_skipChar _ _ r C R) as [C1 R1].
    destruct (rest_skipChar _ _ _ C1 R1) as [C2 R2].
    replace (Z.of_nat (S n) - 1) with (Z.of_nat n) by lia.
    cbn [List.length] in L.
    rewrite (IH _ f C2 R2) by lia. reflexivity.
  - destruct f as [| f]; [inversion L |].
    rewrite skipBlockCommentLoop_S.
    replace (0 <? Z.of_nat (S n)) with true by (symmetry; apply Z.ltb_lt; lia).
    rewrite (peekChar_rest r C), (peekNextChar_rest r C), R.
    rewrite first_app_cons.
    change ((c :: s) ++ after b tail) with (c :: (s ++ after b tail)).
    rewrite second_cons.
    rewrite !(first_commentText b n s tail H) by discriminate.
    rewrite !eqc_Some.
    replace (c =? ch "000") with false
      by (symmetry; apply Z.eqb_neq; exact N).
    replace ((c =? ch "/") && eqc (first s) "*") with false.
    2:{ destruct (Z.eq_dec c (ch "/")) as [-> | U].
        - specialize (A eq_refl). destruct (first s) as [d |];
            [| reflexivity].
          rewrite eqc_Some. symmetry. cbn [andb].
          apply Z.eqb_neq. congruence.
        - replace (c =? ch "/") with false
            by (symmetry; apply Z.eqb_neq; exact U). reflexivity. }
    replace ((c =? ch "*") && eqc (first s) "/") with false.
    2:{ destruct (Z.eq_dec c (ch "*")) as [-> | U].
        - specialize (B eq_refl). destruct (first s) as [d |];
            [| reflexivity].
          rewrite eqc_Some. symmetry. cbn [andb].
          apply Z.eqb_neq. congruence.
        - replace (c =? ch "*") with false
            by (symmetry; apply Z.eqb_neq; exact U). reflexivity. }
    cbv iota.
    destruct (rest_skipChar c (s ++ after b tail) r C R) as [C1 R1].
    cbn [List.length] in L.
    rewrite (IH _ f C1 R1) by lia. reflexivity.
Qed.

Lemma skipChars_turned c lex' tail p :
  0 <= currentChar p ->
  rest p = (c :: lex') ++ tail ->
  skipChars (List.length lex') (turned p) =
  moveTo (currentChar p + Z.of_nat (List.length (c :: lex')))
    (currentLine p + newlines (c :: lex'))
    (set_tokenStart (currentChar p) p).
Proof.
  intros C R.
  exact (skipChars_moveTo (c :: lex') tail
           (set_tokenStart (currentChar p) p) C R).
Qed.

(** The [switch] on the [/] of a block comment. *)
Lemma scanToken_block_comment f r t :
  0 <= currentChar r ->
  rest r = ch "*" :: t ->
  scanToken f (Some (ch "/")) r =
  do q <- skipBlockComment f (skipChar r); Some (Break, q).
Proof.
  intros C R. rewrite scanToken_slash.
  rewrite (matchChar_no "/" r C) by (rewrite R; reflexivity).
  rewrite (matchChar_yes "*" r t C R). reflexivity.
Qed.

(** X11.  Block comments nest.  A comment whose text closes every level
    that it opens is passed over as a whole, with the newlines in it
    counted: the loop of [nextToken] goes on as from the state whose
    cursor stands after the closing [*/], with nothing recorded or
    written.  A unit of fuel for every character of the text and two more
    are enough. *)
Theorem block_comments_nest body tail p k :
  commentText true 1 body ->
  0 <= currentChar p ->
  rest p = (ch "/" :: ch "*" :: body) ++ tail ->
  nextTokenLoop (S (S (List.length body + k))) p =
  nextTokenLoop (S (List.length body + k))
    (moveTo
       (currentChar p + Z.of_nat (List.length (ch "/" :: ch "*" :: body)))
       (currentLine p + newlines body) p).
Proof.
  intros H C R.
  assert (P : peekChar p = Some (ch "/"))
    by (rewrite peekChar_rest, R by exact C; reflexivity).
  rewrite (nextTokenLoop_dispatch _ p (ch "/") P) by discriminate.
  destruct (rest_skipChar (ch "/") ((ch "*" :: body) ++ tail)
              (set_tokenStart (currentChar p) p) C R) as [C1 R1].
  change (skipChar (set_tokenStart (currentChar p) p))
    with (turned p) in C1, R1.
  destruct (rest_skipChar (ch "*") (body ++ tail) (turned p) C1 R1)
    as [C2 R2].
  rewrite (scanToken_block_comment _ (turned p) _ C1 R1).
  unfold skipBlockComment.
  rewrite (skipBlockCommentLoop_text tail true 1 body H
             (skipChar (turned p)) _ C2 R2) by lia.
  change (skipChars (List.length body) (skipChar (turned p)))
    with (skipChars (List.length (ch "*" :: body)) (turned p)).
  rewrite (skipChars_turned (ch "/") (ch "*" :: body) tail p C R).
  rewrite moveTo_set_tokenStart, nextTokenLoop_tokenStart.
  reflexivity.
Qed.

Lemma block_comments_nest_witness :
  nextTokenLoop 12 (initParser (str "/*a/*b*/*/x")) =
  nextTokenLoop 11 (moveTo 10 0 (initParser (str "/*a/*b*/*/x"))).
Proof.
  apply (block_comments_nest (str "a/*b*/*/") (str "x")
           (initParser (str "/*a/*b*/*/x")) 2%nat).
  - apply ct_char; [discriminate | discriminate | discriminate |].
    apply ct_open. apply ct_char; [discriminate .. |].
    apply ct_close. apply ct_close. apply ct_closed.
  - cbn; lia.
  - reflexivity.
Defined.

Lemma nextTokenLoop_NUL f p :
  peekChar p = Some 0 ->
  nextTokenLoop (S f) p =
  Some (makeToken TOKEN_EOF (set_tokenStart (currentChar p) p)).
Proof. intros P. cbn [nextTokenLoop]. rewrite P. reflexivity. Qed.

(** X12.  A block comment that is still open where a NUL stands is
    reported and ends the source: the call writes the message for an
    unterminated block comment with the line counter, which has counted
    the newlines of the comment, and then makes the end-of-file token
    with an empty lexeme at the NUL. *)
Theorem unterminated_block_comment body tail p k :
  commentText false 1 body ->
  isEOF (Token.type (currentToken p)) = false ->
  0 <= currentChar p ->
  rest p = (ch "/" :: ch "*" :: body) ++ 0 :: tail ->
  exists q,
    nextToken (S (S (List.length body + k))) p = Some q
    /\ Token.type (currentToken q) = Some TOKEN_EOF
    /\ tokens q =
       tokens p ++ [Entry.mk TOKEN_EOF [] (currentLine p + newlines body)]
    /\ console q =
       console p
       ++ [Warn (currentLine p + newlines body)
             (str "Unterminated block comment.")]
    /\ rest q = 0 :: tail.
Proof.
  intros H E C R.
  rewrite (nextToken_is_loop _ p E).
  set (p' := set_previous (current p) p).
  change (rest p) with (rest p') in R.
  change (0 <= currentChar p') in C.
  assert (P : peekChar p' = Some (ch "/"))
    by (rewrite peekChar_rest, R by exact C; reflexivity).
  rewrite (nextTokenLoop_dispatch _ p' (ch "/") P) by discriminate.
  destruct (rest_skipChar (ch "/") ((ch "*" :: body) ++ 0 :: tail)
              (set_tokenStart (currentChar p') p') C R) as [C1 R1].
  change (skipChar (set_tokenStart (currentChar p') p'))
    with (turned p') in C1, R1.
  destruct (rest_skipChar (ch "*") (body ++ 0 :: tail) (turned p') C1 R1)
    as [C2 R2].
  rewrite (scanToken_block_comment _ (turned p') _ C1 R1).
  unfold skipBlockComment.
  rewrite (skipBlockCommentLoop_text tail false 1 body H
             (skipChar (turned p')) _ C2 R2) by lia.
  change (skipChars (List.length body) (skipChar (turned p')))
    with (skipChars (List.length (ch "*" :: body)) (turned p')).
  rewrite (skipChars_turned (ch "/") (ch "*" :: body) (0 :: tail) p' C R).
  change (newlines (ch "/" :: ch "*" :: body)) with (newlines body).
  set (n := currentChar p' + Z.of_nat (List.length (ch "/" :: ch "*" :: body))).
  set (l := currentLine p' + newlines body).
  set (r := lexError (str "Unterminated block comment.")
              (moveTo n l (set_tokenStart (currentChar p') p'))).
  assert (Rr : rest r = 0 :: tail).
  { exact (rest_after (ch "/" :: ch "*" :: body) (0 :: tail) p' l C R). }
  assert (Cr : 0 <= currentChar r).
  { unfold r, n, lexError.
    cbn [currentChar set_console moveTo set_currentLine set_currentChar].
    lia. }
  assert (Pr : peekChar r = Some 0)
    by (rewrite (peekChar_rest r Cr), Rr; reflexivity).
  rewrite (nextTokenLoop_NUL _ r Pr).
  eexists. split; [reflexivity |].
  destruct (makeToken_fields TOKEN_EOF (set_tokenStart (currentChar r) r))
    as (Fs & _ & Fc & _ & Fo & _ & _ & _ & _ & Fk).
  split; [rewrite Fk; reflexivity |].
  split; [| split].
  - rewrite makeToken_entry, makeToken_line. unfold turnSpan.
    cbn [tokenStart currentChar set_tokenStart].
    rewrite Z.sub_diag, substr_zero. reflexivity.
  - rewrite Fo. reflexivity.
  - unfold rest. rewrite Fs, Fc. exact Rr.
Qed.

Lemma unterminated_block_comment_witness :
  exists q,
    nextToken 5 (initParser (str "/*a" ++ [10; 0])) = Some q
    /\ Token.type (currentToken q) = Some TOKEN_EOF
    /\ tokenTypes q = [TOKEN_EOF]
    /\ warnings q = [str "Unterminated block comment."].
Proof.
  destruct (unterminated_block_comment (str "a" ++ [10]) [] 
              (initParser (str "/*a" ++ [10; 0])) 1%nat)
    as (q & H & Ty & Tk & Co & _).
  - apply ct_char; [discriminate .. |].
    apply ct_char; [discriminate .. |]. apply ct_cut.
  - reflexivity.
  - cbn; lia.
  - reflexivity.
  - exists q. split; [exact H |]. split; [exact Ty |].
    unfold tokenTypes, warnings. rewrite Tk, Co. split; reflexivity.
Defined.
(** ** String literals *)

(** As [nextToken_yields], for a scan that may have written on the
    console or changed the interpolation stack. *)
Lemma nextToken_scansTo ty c lex' tail fuel p r :
  isEOF (Token.type (currentToken p)) = false ->
  0 <= currentChar p ->
  rest p = (c :: lex') ++ tail ->
  c <> 0 ->
  scanToken fuel (Some c) (entered p) = Some (Return, makeToken ty r) ->
  source r = source p ->
  tokenStart r = currentChar p ->
  currentChar r = currentChar p + Z.of_nat (List.length (c :: lex')) ->
  tokens r = tokens p ->
  exists q,
    nextToken (S fuel) p = Some q
    /\ scansTo ty (c :: lex') p q
    /\ rest q = tail
    /\ currentLine q = currentLine r
    /\ console q = console r
    /\ numParens q = numParens r
    /\ parens q = parens r
    /\ Token.value (currentToken q) = Token.value (currentToken r).
Proof.
  intros E C R N H Ss St Sc Sk.
  assert (P : peekChar p = Some c)
    by (rewrite peekChar_rest, R by exact C; reflexivity).
  rewrite (nextToken_dispatch fuel p c E P N), H.
  exists (makeToken ty r). split; [reflexivity |].
  destruct (makeToken_fields ty r)
    as (Fs & _ & Fc & Fl & Fo & Fn & Fp & _ & _ & Fk).
  split; [| split; [| repeat split; try assumption]].
  - constructor; rewrite ?Fk; cbn [Token.type Token.start Token.length
                                     Token.line]; try congruence.
    + rewrite makeToken_entry, makeToken_line. unfold turnSpan.
      rewrite Ss, St, Sc, Sk.
      replace (currentChar p + Z.of_nat (List.length (c :: lex'))
               - currentChar p)
        with (Z.of_nat (List.length (c :: lex'))) by lia.
      rewrite (substr_rest (c :: lex') tail p C R). reflexivity.
    + rewrite Sc, St. f_equal. lia.
    + rewrite Fl. reflexivity.
  - unfold rest. rewrite Fs, Fc, Ss, Sc.
    exact (rest_after (c :: lex') tail p 0 C R).
  - rewrite Fk. reflexivity.
Qed.

Lemma stringChar_cases c :
  stringChar c = true ->
  eqc (Some c) dquoteChar = false /\ eqc (Some c) "000" = false
  /\ eqc (Some c) "%" = false /\ eqc (Some c) "\" = false.
Proof.
  unfold stringChar. intros H.
  apply andb_prop in H as [H H4]. apply andb_prop in H as [H H3].
  apply andb_prop in H as [H1 H2].
  repeat split; apply negb_true_iff; assumption.
Qed.

(** One turn of the loop of [readString] on a character that it passes
    over. *)
Lemma readStringLoop_char f r c :
  peekChar r = Some c -> stringChar c = true ->
  readStringLoop (S f) r = readStringLoop f (skipChar r).
Proof.
  intros P H. destruct (stringChar_cases c H) as (H1 & H2 & H3 & H4).
  cbn [readStringLoop]. rewrite nextChar_peek, P, H1, H2, H3, H4.
  reflexivity.
Qed.

Lemma readStringLoop_plain :
  forall body t r k,
    0 <= currentChar r ->
    rest r = body ++ t ->
    Forall (fun c => stringChar c = true) body ->
    readStringLoop (List.length body + k) r =
    readStringLoop k (skipChars (List.length body) r).
Proof.
  induction body as [| c body IH]; intros t r k C R F; [reflexivity |].
  inversion F as [| ? ? Fc Fb]; subst.
  change (List.length (c :: body) + k)%nat
    with (S (List.length body + k)).
  rewrite (readStringLoop_char _ r c)
    by (rewrite ?peekChar_rest, ?R by exact C; auto).
  destruct (rest_skipChar c (body ++ t) r C R) as [C1 R1].
  exact (IH t (skipChar r) k C1 R1 Fb).
Qed.

Lemma readStringLoop_quote f r :
  peekChar r = Some dquote ->
  readStringLoop (S f) r = Some (TOKEN_STRING, skipChar r).
Proof.
  intros P. cbn [readStringLoop]. rewrite nextChar_peek, P. reflexivity.
Qed.

Lemma readStringLoop_NUL f r :
  peekChar r = Some 0 ->
  readStringLoop (S f) r =
  Some (TOKEN_STRING,
        moveTo (currentChar r) (currentLine r)
          (lexError (str "Unterminated string.")
             (moveTo (currentChar r) (currentLine r) r))).
Proof.
  intros P. cbn [readStringLoop]. rewrite nextChar_peek, P.
  rewrite skipChar_moveTo, P.
  change (eqc (Some 0) dquoteChar) with false.
  change (eqc (Some 0) "000") with true.
  change (eqc (Some 0) "010") with false.
  cbv iota zeta. rewrite Z.add_0_r.
  unfold lexError, moveTo.
  cbn [currentChar currentLine console set_console set_currentLine
         set_currentChar].
  replace (currentChar r + 1 - 1) with (currentChar r) by lia.
  reflexivity.
Qed.

Lemma newlines_app a b : newlines (a ++ b) = newlines a + newlines b.
Proof.
  unfold newlines. rewrite count_occ_app. lia.
Qed.

Lemma newlines_cons c s :
  c <> 10 -> newlines (c :: s) = newlines s.
Proof.
  intros N. unfold newlines. rewrite count_occ_cons_neq by exact N.
  reflexivity.
Qed.

(** X13.  A string literal without [%] and backslash is everything from
    its quote to the next quote, newlines included.  Met under the cursor
    before the end of file, it makes one string token with the whole
    literal, quotes included, as the lexeme; the line counter has counted
    the newlines of the literal, and nothing is written on the console.
    A unit of fuel for every character is enough. *)
Theorem string_literals body tail fuel p :
  Forall (fun c => stringChar c = true) body ->
  isEOF (Token.type (currentToken p)) = false ->
  0 <= currentChar p ->
  rest p = (dquote :: body ++ [dquote]) ++ tail ->
  exists q,
    nextToken (S (List.length body + S fuel)) p = Some q
    /\ yields TOKEN_STRING (dquote :: body ++ [dquote]) p q
    /\ rest q = tail
    /\ parens q = parens p
    /\ currentLine q = currentLine p + newlines body.
Proof.
  intros F E C R.
  destruct (rest_skipChar dquote ((body ++ [dquote]) ++ tail)
              (set_tokenStart (currentChar p) (set_previous (current p) p))
              C R) as [C1 R1].
  change (skipChar (set_tokenStart (currentChar p)
                      (set_previous (current p) p)))
    with (entered p) in C1, R1.
  rewrite <- app_assoc in R1.
  destruct (rest_skipChars body ([dquote] ++ tail) (entered p) C1 R1)
    as [C2 R2].
  destruct (nextToken_yields TOKEN_STRING dquote (body ++ [dquote]) tail
              (List.length body + S fuel) p
              (skipChars (List.length (body ++ [dquote])) (entered p))
              E C R ltac:(discriminate))
    as (q & Hq & Y & Rq & Pq & Lq & _).
  - rewrite scanToken_dquote. unfold readString.
    rewrite (readStringLoop_plain body ([dquote] ++ tail) (entered p)
               (S fuel) C1 R1 F).
    rewrite readStringLoop_quote
      by (rewrite (peekChar_rest _ C2), R2; reflexivity).
    rewrite <- skipChars_succ, length_app, Nat.add_comm. reflexivity.
  - apply sameScan_refl.
  - exists q. repeat (split; [assumption |]).
    rewrite Lq. f_equal.
    rewrite newlines_cons by discriminate.
    rewrite newlines_app. change (newlines [dquote]) with 0. lia.
Qed.

Lemma string_literals_witness :
  exists q,
    nextToken 4 (initParser (dquote :: str "a" ++ [10; dquote; 59])) = Some q
    /\ yields TOKEN_STRING (dquote :: str "a" ++ [10; dquote])
         (initParser (dquote :: str "a" ++ [10; dquote; 59])) q
    /\ rest q = [59]
    /\ currentLine q = 1.
Proof.
  destruct (string_literals (str "a" ++ [10]) [59] 0
              (initParser (dquote :: str "a" ++ [10; dquote; 59])))
    as (q & H & Y & R & _ & L).
  - repeat constructor.
  - reflexivity.
  - cbn; lia.
  - reflexivity.
  - exists q. auto.
Defined.

Lemma newlines_dquote_body body :
  newlines (dquote :: body) = newlines body.
Proof. apply newlines_cons. discriminate. Qed.

(** X14.  A string that a NUL cuts short is reported and still makes its
    token.  When only characters that the loop of [readString] passes
    over stand between the quote and the NUL, the call writes the message
    for an unterminated string with the line counter, which has counted
    the newlines of the string, and makes a string token whose lexeme is
    the quote and what follows it up to the NUL; the NUL is left under
    the cursor, and the interpolation stack is as it was. *)
Theorem unterminated_string body tail fuel p :
  Forall (fun c => stringChar c = true) body ->
  isEOF (Token.type (currentToken p)) = false ->
  0 <= currentChar p ->
  rest p = (dquote :: body) ++ 0 :: tail ->
  exists q,
    nextToken (S (List.length body + S fuel)) p = Some q
    /\ scansTo TOKEN_STRING (dquote :: body) p q
    /\ rest q = 0 :: tail
    /\ console q =
       console p
       ++ [Warn (currentLine p + newlines body) (str "Unterminated string.")]
    /\ numParens q = numParens p
    /\ parens q = parens p.
Proof.
  intros F E C R.
  destruct (rest_skipChar dquote (body ++ 0 :: tail)
              (set_tokenStart (currentChar p) (set_previous (current p) p))
              C R) as [C1 R1].
  change (skipChar (set_tokenStart (currentChar p)
                      (set_previous (current p) p)))
    with (entered p) in C1, R1.
  destruct (rest_skipChars body (0 :: tail) (entered p) C1 R1) as [C2 R2].
  pose proof (skipChars_entered dquote body (0 :: tail) p C R) as M.
  rewrite newlines_dquote_body in M.
  set (r2 := skipChars (List.length body) (entered p)) in *.
  set (r := moveTo (currentChar r2) (currentLine r2)
              (lexError (str "Unterminated string.")
                 (moveTo (currentChar r2) (currentLine r2) r2))).
  destruct (nextToken_scansTo TOKEN_STRING dquote body (0 :: tail)
              (List.length body + S fuel) p r E C R ltac:(discriminate))
    as (q & Hq & Y & Rq & Lq & Oq & Nq & Pq & _).
  - rewrite scanToken_dquote. unfold readString.
    rewrite (readStringLoop_plain body (0 :: tail) (entered p)
               (S fuel) C1 R1 F).
    fold r2.
    rewrite readStringLoop_NUL
      by (rewrite (peekChar_rest _ C2), R2; reflexivity).
    reflexivity.
  - unfold r. rewrite M. reflexivity.
  - unfold r. rewrite M. reflexivity.
  - unfold r. rewrite M. reflexivity.
  - unfold r. rewrite M. reflexivity.
  - exists q. repeat (split; [assumption |]).
    rewrite Oq, Nq, Pq. unfold r. rewrite M. repeat split.
Qed.

Lemma unterminated_string_witness :
  exists q,
    nextToken 4 (initParser (dquote :: str "ab" ++ [0])) = Some q
    /\ scansTo TOKEN_STRING (dquote :: str "ab")
         (initParser (dquote :: str "ab" ++ [0])) q
    /\ rest q = [0]
    /\ warnings q = [str "Unterminated string."].
Proof.
  destruct (unterminated_string (str "ab") [] 0
              (initParser (dquote :: str "ab" ++ [0])))
    as (q & H & Y & R & O & _).
  - repeat constructor.
  - reflexivity.
  - cbn; lia.
  - reflexivity.
  - exists q. repeat (split; [assumption |]).
    unfold warnings. rewrite O. reflexivity.
Defined.

(** The turn of the loop of [readString] on a [%] while the stack has
    room. *)
Lemma readStringLoop_percent f r :
  peekChar r = Some (ch "%") ->
  numParens r < MAX_INTERPOLATION_NESTING ->
  readStringLoop (S f) r =
  let r2 := skipChar (skipChar r) in
  let r3 :=
    if negb (eqc (peekChar (skipChar r)) "(")
    then lexError (str "Expect '(' after '%%'.") r2
    else r2 in
  Some (TOKEN_INTERPOLATION,
        set_numParens (numParens r + 1)
          (set_parens (array_set (parens r) (numParens r) (Num 1)) r3)).
Proof.
  intros P N. cbn [readStringLoop]. rewrite nextChar_peek, P.
  change (eqc (Some (ch "%")) dquoteChar) with false.
  change (eqc (Some (ch "%")) "000") with false.
  change (eqc (Some (ch "%")) "%") with true.
  cbv iota.
  assert (Ns : numParens (skipChar r) = numParens r)
    by (rewrite skipChar_moveTo; reflexivity).
  rewrite Ns.
  replace (numParens r <? MAX_INTERPOLATION_NESTING) with true
    by (symmetry; apply Z.ltb_lt; exact N).
  rewrite nextChar_peek. cbv zeta.
  destruct (negb (eqc (peekChar (skipChar r)) "("));
    rewrite !skipChar_moveTo; reflexivity.
Qed.

(** X15.  A [%] in a string opens an interpolation while the stack holds
    fewer than [MAX_INTERPOLATION_NESTING] levels.  The call consumes the
    character after the [%] whatever it is, writes a message when it is
    not a [(], pushes a level whose counter is 1 and makes an
    interpolation token whose lexeme goes from the quote to that
    character. *)
Theorem interpolation_opens body c2 tail fuel p :
  Forall (fun c => stringChar c = true) body ->
  numParens p < MAX_INTERPOLATION_NESTING ->
  isEOF (Token.type (currentToken p)) = false ->
  0 <= currentChar p ->
  rest p = (dquote :: body ++ [ch "%"; c2]) ++ tail ->
  exists q,
    nextToken (S (List.length body + S fuel)) p = Some q
    /\ scansTo TOKEN_INTERPOLATION (dquote :: body ++ [ch "%"; c2]) p q
    /\ rest q = tail
    /\ numParens q = numParens p + 1
    /\ parens q = array_set (parens p) (numParens p) (Num 1)
    /\ console q =
       console p
       ++ (if c2 =? ch "(" then []
           else [Warn (currentLine p + newlines (body ++ [c2]))
                   (str "Expect '(' after '%%'.")]).
Proof.
  intros F D E C R.
  destruct (rest_skipChar dquote ((body ++ [ch "%"; c2]) ++ tail)
              (set_tokenStart (currentChar p) (set_previous (current p) p))
              C R) as [C1 R1].
  change (skipChar (set_tokenStart (currentChar p)
                      (set_previous (current p) p)))
    with (entered p) in C1, R1.
  rewrite <- app_assoc in R1.
  destruct (rest_skipChars body ([ch "%"; c2] ++ tail) (entered p) C1 R1)
    as [C2 R2].
  destruct (rest_skipChar (ch "%") (c2 :: tail) _ C2 R2) as [C3 R3].
  pose proof (skipChars_entered dquote (body ++ [ch "%"; c2]) tail p C R)
    as M.
  rewrite length_app, Nat.add_comm in M.
  change (skipChars (List.length [ch "%"; c2] + List.length body)
            (entered p))
    with (skipChars (2 + List.length body) (entered p)) in M.
  rewrite (Nat.add_comm 2), skipChars_add in M.
  set (r1 := skipChars (List.length body) (entered p)) in *.
  assert (N1 : numParens r1 = numParens p /\ parens r1 = parens p).
  { unfold r1. rewrite (skipChars_moveTo body _ _ C1 R1).
    rewrite entered_moveTo. split; reflexivity. }
  destruct N1 as [N1 P1].
  assert (L : newlines (dquote :: body ++ [ch "%"; c2])
              = newlines (body ++ [c2])).
  { rewrite newlines_dquote_body, !newlines_app. reflexivity. }
  rewrite L in M. clear L.
  set (r3 := if negb (eqc (peekChar (skipChar r1)) "(")
             then lexError (str "Expect '(' after '%%'.")
                    (skipChar (skipChar r1))
             else skipChar (skipChar r1)).
  set (r := set_numParens (numParens r1 + 1)
              (set_parens (array_set (parens r1) (numParens r1) (Num 1))
                 r3)).
  assert (P3 : peekChar (skipChar r1) = Some c2)
    by (rewrite (peekChar_rest _ C3), R3; reflexivity).
  change (skipChars 2 r1) with (skipChar (skipChar r1)) in M.
  destruct (nextToken_scansTo TOKEN_INTERPOLATION dquote
              (body ++ [ch "%"; c2]) tail
              (List.length body + S fuel) p r E C R ltac:(discriminate))
    as (q & Hq & Y & Rq & Lq & Oq & Nq & Pq & _).
  - rewrite scanToken_dquote. unfold readString.
    rewrite (readStringLoop_plain body ([ch "%"; c2] ++ tail) (entered p)
               (S fuel) C1 R1 F).
    fold r1.
    rewrite readStringLoop_percent;
      [reflexivity
      | rewrite (peekChar_rest _ C2), R2; reflexivity
      | rewrite N1; exact D].
  - unfold r, r3.
    destruct (negb (eqc (peekChar (skipChar r1)) "(")); rewrite M;
      reflexivity.
  - unfold r, r3.
    destruct (negb (eqc (peekChar (skipChar r1)) "(")); rewrite M;
      reflexivity.
  - unfold r, r3.
    destruct (negb (eqc (peekChar (skipChar r1)) "(")); rewrite M;
      reflexivity.
  - unfold r, r3.
    destruct (negb (eqc (peekChar (skipChar r1)) "(")); rewrite M;
      reflexivity.
  - exists q. repeat (split; [assumption |]).
    rewrite Oq, Nq, Pq. unfold r, r3. rewrite P3, eqc_Some, N1, P1.
    destruct (c2 =? ch "("); cbn [negb]; rewrite M;
      [rewrite app_nil_r |]; repeat split.
Qed.

Lemma interpolation_opens_witness :
  exists q,
    nextToken 3 (initParser (dquote :: str "a%(b")) = Some q
    /\ scansTo TOKEN_INTERPOLATION (dquote :: str "a%(")
         (initParser (dquote :: str "a%(b")) q
    /\ rest q = str "b"
    /\ numParens q = 1
    /\ console q = [].
Proof.
  destruct (interpolation_opens (str "a") (ch "(") (str "b") 0
              (initParser (dquote :: str "a%(b")))
    as (q & H & Y & R & N & _ & O).
  - repeat constructor.
  - reflexivity.
  - reflexivity.
  - cbn; lia.
  - reflexivity.
  - exists q. auto.
Defined.

(** ** Escape sequences *)

(** The turn of the loop of [readString] on a backslash. *)
Lemma readStringLoop_backslash f r :
  peekChar r = Some (ch "\") ->
  readStringLoop (S f) r =
  let r1 := set_console (console (skipChar r) ++ [Log 123]) (skipChar r) in
  readStringLoop f (readEscape (peekChar r1) (skipChar r1)).
Proof.
  intros P. cbn [readStringLoop]. rewrite nextChar_peek, P.
  change (eqc (Some (ch "\")) dquoteChar) with false.
  change (eqc (Some (ch "\")) "000") with false.
  change (eqc (Some (ch "\")) "%") with false.
  change (eqc (Some (ch "\")) "\") with true.
  cbv iota zeta. rewrite nextChar_peek. reflexivity.
Qed.

Lemma currentToken_set_cur_value v r :
  currentToken (set_cur_value v r) =
  Token.mk (Token.type (currentToken r)) (Token.start (currentToken r))
    (Token.length (currentToken r)) (Token.line (currentToken r)) v.
Proof.
  unfold set_cur_value; cbv zeta. apply currentToken_store.
Qed.

(** What an escape other than [\x] leaves behind. *)
Lemma readEscape_fields e r :
  e <> ch "x" ->
  let q := readEscape (Some e) r in
  sameScan (set_console (console q) r) q
  /\ console q =
     console r
     ++ (if (e =? ch "t") || (e =? ch "v") then []
         else [Warn (currentLine r)
                 (str "Invalid escape character '"
                  ++ ToString_int (currentChar r - 1) ++ str "'.")])
  /\ Token.value (currentToken q) =
     (if e =? ch "t" then VString [9]
      else if e =? ch "v" then VString [11]
      else Token.value (currentToken r)).
Proof.
  intros X. cbv zeta. unfold readEscape. rewrite !eqc_Some.
  replace (e =? ch "x") with false by (symmetry; apply Z.eqb_neq; exact X).
  destruct (e =? ch "t"); [| destruct (e =? ch "v")]; cbn [orb].
  - rewrite currentToken_set_cur_value.
    destruct (sameScan_set_cur_value (VString [9]) r) as [].
    split; [constructor; cbn; congruence |].
    split; [rewrite app_nil_r; assumption | reflexivity].
  - rewrite currentToken_set_cur_value.
    destruct (sameScan_set_cur_value (VString [11]) r) as [].
    split; [constructor; cbn; congruence |].
    split; [rewrite app_nil_r; assumption | reflexivity].
  - split; [constructor; reflexivity |].
    split; reflexivity.
Qed.

(** X16.  A backslash in a string takes the character after it with it,
    so that an escaped quote does not end the string, and every backslash
    writes the number 123 on the console.  Only [\t] and [\v], which set
    the value of the current token, and [\x] are known: any other escape
    is reported as invalid, in a message that shows the offset of the
    escaped character in the source in place of the character.  The
    string token is made all the same, with the whole literal as the
    lexeme. *)
Theorem escape_sequences pre e post tail fuel p :
  Forall (fun c => stringChar c = true) pre ->
  Forall (fun c => stringChar c = true) post ->
  e <> ch "x" ->
  isEOF (Token.type (currentToken p)) = false ->
  0 <= currentChar p ->
  rest p = (dquote :: pre ++ [ch "\"; e] ++ post ++ [dquote]) ++ tail ->
  exists q,
    nextToken (S (List.length pre + S (List.length post + S fuel))) p
    = Some q
    /\ scansTo TOKEN_STRING
         (dquote :: pre ++ [ch "\"; e] ++ post ++ [dquote]) p q
    /\ rest q = tail
    /\ console q =
       console p
       ++ Log 123
          :: (if (e =? ch "t") || (e =? ch "v") then []
              else [Warn (currentLine p + newlines (pre ++ [e]))
                      (str "Invalid escape character '"
                       ++ ToString_int
                            (currentChar p + Z.of_nat (List.length pre) + 2)
                       ++ str "'.")])
    /\ Token.value (currentToken q) =
       (if e =? ch "t" then VString [9]
        else if e =? ch "v" then VString [11]
        else Token.value (currentToken p))
    /\ numParens q = numParens p
    /\ parens q = parens p.
Proof.
  intros Fa Fb X E C R.
  set (lex' := pre ++ [ch "\"; e] ++ post ++ [dquote]) in *.
  destruct (rest_skipChar dquote (lex' ++ tail)
              (set_tokenStart (currentChar p) (set_previous (current p) p))
              C R) as [C1 R1].
  change (skipChar (set_tokenStart (currentChar p)
                      (set_previous (current p) p)))
    with (entered p) in C1, R1.
  unfold lex' in R1. rewrite <- !app_assoc in R1.
  destruct (rest_skipChars pre _ (entered p) C1 R1) as [C2 R2].
  pose proof (skipChars_moveTo pre _ (entered p) C1 R1) as M1.
  rewrite entered_moveTo in M1 at 2 3 4.
  assert (NL : eqc (peekChar p) "010" = false)
    by (rewrite (peekChar_rest p C), R; reflexivity).
  rewrite NL, Z.add_0_r in M1.
  rewrite moveTo_moveTo, currentChar_moveTo, currentLine_moveTo in M1.
  set (base := set_tokenStart (currentChar p) (set_previous (current p) p))
    in *.
  set (r1 := skipChars (List.length pre) (entered p)) in *.
  assert (P1 : peekChar r1 = Some (ch "\"))
    by (rewrite (peekChar_rest _ C2), R2; reflexivity).
  set (r1' := set_console (console (skipChar r1) ++ [Log 123])
                (skipChar r1)).
  assert (S1 : r1' =
               set_console (console p ++ [Log 123])
                 (moveTo (currentChar p + 1 + Z.of_nat (List.length pre) + 1)
                    (currentLine p + newlines pre) base)).
  { unfold r1'. rewrite skipChar_moveTo, P1.
    change (eqc (Some (ch "\")) "010") with false. rewrite Z.add_0_r.
    rewrite M1. reflexivity. }
  assert (C3 : 0 <= currentChar r1' /\ rest r1' = e :: post ++ [dquote] ++ tail).
  { exact (rest_skipChar (ch "\") _ r1 C2 R2). }
  destruct C3 as [C3 R3].
  assert (P3 : peekChar r1' = Some e)
    by (rewrite (peekChar_rest _ C3), R3; reflexivity).
  destruct (rest_skipChar e _ r1' C3 R3) as [C4 R4].
  assert (S4 : skipChar r1' =
               set_console (console p ++ [Log 123])
                 (moveTo (currentChar p + Z.of_nat (List.length pre) + 3)
                    (currentLine p + newlines (pre ++ [e])) base)).
  { rewrite skipChar_moveTo, P3, S1.
    unfold moveTo, set_console.
    cbn [currentChar currentLine set_currentLine set_currentChar source
           tokenStart current previous objA objB parens numParens tokens
           console].
    rewrite newlines_app.
    replace (newlines [e]) with (if eqc (Some e) "010" then 1 else 0).
    2:{ unfold newlines. cbn [count_occ]. rewrite eqc_Some.
        change (ch "010") with 10.
        destruct (Z.eq_dec e 10) as [-> | U]; [reflexivity |].
        replace (e =? 10) with false
          by (symmetry; apply Z.eqb_neq; exact U).
        reflexivity. }
    rewrite Z.add_assoc.
    replace (currentChar p + 1 + Z.of_nat (List.length pre) + 1 + 1)
      with (currentChar p + Z.of_nat (List.length pre) + 3) by lia.
    reflexivity. }
  destruct (readEscape_fields e (skipChar r1') X) as (Sm & Co & Va).
  set (r2 := readEscape (Some e) (skipChar r1')) in *.
  destruct Sm as [Ss St Sc Sl Sp Sn Sk _].
  cbn [source tokenStart currentChar currentLine parens numParens tokens
         set_console] in Ss, St, Sc, Sl, Sp, Sn, Sk.
  assert (C5 : 0 <= currentChar r2) by (rewrite Sc; exact C4).
  assert (R5 : rest r2 = (post ++ [dquote]) ++ tail).
  { unfold rest. rewrite Ss, Sc, <- app_assoc. exact R4. }
  pose proof (skipChars_moveTo (post ++ [dquote]) tail r2 C5 R5) as M5.
  set (r := skipChars (List.length (post ++ [dquote])) r2) in *.
  destruct (nextToken_scansTo TOKEN_STRING dquote lex' tail
              (List.length pre + S (List.length post + S fuel)) p r
              E C R ltac:(discriminate))
    as (q & Hq & Y & Rq & Lq & Oq & Nq & Pq & Vq).
  - rewrite scanToken_dquote. unfold readString.
    rewrite (readStringLoop_plain pre _ (entered p) _ C1 R1 Fa).
    fold r1. rewrite (readStringLoop_backslash _ r1 P1). cbv zeta.
    fold r1'. rewrite P3. fold r2.
    rewrite <- app_assoc in R5.
    rewrite (readStringLoop_plain post _ r2 _ C5 R5 Fb).
    destruct (rest_skipChars post _ r2 C5 R5) as [C6 R6].
    rewrite readStringLoop_quote
      by (rewrite (peekChar_rest _ C6), R6; reflexivity).
    rewrite <- skipChars_succ. unfold r.
    rewrite length_app, Nat.add_comm. reflexivity.
  - rewrite M5. cbn [source moveTo set_currentLine set_currentChar].
    rewrite Ss, S4. reflexivity.
  - rewrite M5.
    cbn [tokenStart moveTo set_currentLine set_currentChar].
    rewrite St, S4. reflexivity.
  - rewrite M5.
    cbn [currentChar moveTo set_currentLine set_currentChar].
    rewrite Sc, S4.
    cbn [currentChar moveTo set_currentLine set_currentChar set_console].
    unfold lex'. cbn [List.length]. repeat rewrite length_app.
    cbn [List.length]. lia.
  - rewrite M5.
    cbn [tokens moveTo set_currentLine set_currentChar].
    rewrite Sk, S4. reflexivity.
  - exists q. repeat (split; [assumption |]).
    assert (Fr : console r = console r2
                 /\ numParens r = numParens r2
                 /\ parens r = parens r2
                 /\ currentToken r = currentToken r2)
      by (rewrite M5; repeat split).
    destruct Fr as (Fo & Fn & Fp & Fv).
    rewrite Oq, Vq, Nq, Pq, Fo, Fn, Fp, Fv, Co, Va, Sn, Sp, S4.
    cbn [console currentLine currentChar numParens parens set_console
           moveTo set_currentLine set_currentChar].
    replace (currentChar p + Z.of_nat (List.length pre) + 3 - 1)
      with (currentChar p + Z.of_nat (List.length pre) + 2) by lia.
    rewrite <- app_assoc.
    repeat split.
Qed.

Lemma escape_sequences_witness :
  exists q,
    nextToken 5
      (initParser (dquote :: str "a\" ++ dquote :: str "b" ++ [dquote]))
    = Some q
    /\ scansTo TOKEN_STRING
         (dquote :: str "a\" ++ dquote :: str "b" ++ [dquote])
         (initParser (dquote :: str "a\" ++ dquote :: str "b" ++ [dquote]))
         q
    /\ rest q = []
    /\ console q =
       [Log 123; Warn 0 (str "Invalid escape character '3'.")].
Proof.
  destruct (escape_sequences (str "a") dquote (str "b") [] 0
              (initParser
                 (dquote :: str "a\" ++ dquote :: str "b" ++ [dquote])))
    as (q & H & Y & R & O & _).
  - repeat constructor.
  - repeat constructor.
  - discriminate.
  - reflexivity.
  - cbn; lia.
  - reflexivity.
  - exists q. auto.
Defined.

(** The number that [readHexDigit] returns for a hexadecimal digit. *)
Lemma readHexDigit_value r c :
  peekChar r = Some c ->
  hexChar (Some c) = true ->
  exists d,
    readHexDigit r = (d, skipChar r)
    /\ js_num_eqb d (Num (-1)) = false
    /\ ToInt32 d = hexDigitValue c
    /\ 0 <= hexDigitValue c <= 9.
Proof.
  intros P H. unfold readHexDigit. rewrite nextChar_peek, P.
  unfold hexChar, hexDigitValue, isDigit in *.
  unfold gec, lec in *.
  change (ch "0") with 48 in *. change (ch "9") with 57 in *.
  change (ch "a") with 97 in *. change (ch "f") with 102 in *.
  change (ch "A") with 65 in *. change (ch "F") with 70 in *.
  destruct ((48 <=? c) && (c <=? 57)) eqn:D.
  - apply andb_prop in D as [A B].
    assert (c = 48 \/ c = 49 \/ c = 50 \/ c = 51 \/ c = 52 \/ c = 53
            \/ c = 54 \/ c = 55 \/ c = 56 \/ c = 57) as Hc by lia.
    eexists. split; [reflexivity |].
    repeat (destruct Hc as [-> | Hc]; [repeat split; discriminate |]).
    subst c. repeat split; discriminate.
  - cbn [orb] in H.
    assert (T : ToNumber (Some c) = NaN \/ ToNumber (Some c) = Num 0).
    { unfold ToNumber, ToNumber_char. rewrite D.
      destruct (isStrWhiteSpace c); auto. }
    assert (W : isStrWhiteSpace c = false).
    { unfold isStrWhiteSpace.
      apply orb_prop in H as [H | H]; apply andb_prop in H as [A B];
        repeat (apply orb_false_intro);
        try (apply andb_false_intro1; apply Z.leb_gt; lia);
        try (apply andb_false_intro2; apply Z.leb_gt; lia);
        try (apply Z.eqb_neq; lia). }
    assert (T' : ToNumber (Some c) = NaN).
    { unfold ToNumber, ToNumber_char. rewrite D, W. reflexivity. }
    rewrite T'.
    destruct ((97 <=? c) && (c <=? 102)) eqn:L.
    + eexists. split; [reflexivity |]. repeat split; discriminate.
    + cbn [orb] in H. rewrite H.
      eexists. split; [reflexivity |]. repeat split; discriminate.
Qed.

Lemma readHexEscapeLoop_S n d v p :
  readHexEscapeLoop (S n) d v p =
  if eqc (peekChar p) dquoteChar || eqc (peekChar p) "000" then
    let p := lexError (str "Incomplete " ++ d ++ str " escape sequence.") p in
    (v, set_currentChar (currentChar p - 1) p)
  else
    let '(digit, p) := readHexDigit p in
    if js_num_eqb digit (Num (-1)) then
      (v, lexError (str "Invalid " ++ d ++ str " escape sequence.") p)
    else readHexEscapeLoop n d (js_bitor (js_mul v (Num 16)) digit) p.
Proof. reflexivity. Qed.

Lemma hexChar_not_end c :
  hexChar (Some c) = true ->
  eqc (Some c) dquoteChar || eqc (Some c) "000" = false.
Proof.
  intros H. unfold hexChar, gec, lec in H. rewrite !eqc_Some.
  change (ch "0") with 48 in *. change (ch "9") with 57 in *.
  change (ch "a") with 97 in *. change (ch "f") with 102 in *.
  change (ch "A") with 65 in *. change (ch "F") with 70 in *.
  change (ch dquoteChar) with 34. change (ch "000") with 0.
  apply orb_false_intro; apply Z.eqb_neq;
    (apply orb_prop in H as [H | H];
     [apply orb_prop in H as [H | H] |]);
    apply andb_prop in H as [A B]; lia.
Qed.

(** The value of a [\x] escape with its two digits. *)
Lemma readHexEscape_two d h1 h2 t r :
  0 <= currentChar r ->
  rest r = h1 :: h2 :: t ->
  hexChar (Some h1) = true ->
  hexChar (Some h2) = true ->
  readHexEscape 2 d r =
  (Num (16 * hexDigitValue h1 + hexDigitValue h2), skipChars 2 r).
Proof.
  intros C R H1 H2. unfold readHexEscape.
  assert (P1 : peekChar r = Some h1)
    by (rewrite (peekChar_rest r C), R; reflexivity).
  destruct (rest_skipChar h1 (h2 :: t) r C R) as [C1 R1].
  assert (P2 : peekChar (skipChar r) = Some h2)
    by (rewrite (peekChar_rest _ C1), R1; reflexivity).
  destruct (readHexDigit_value r h1 P1 H1) as (d1 & E1 & N1 & V1 & B1).
  destruct (readHexDigit_value _ h2 P2 H2) as (d2 & E2 & N2 & V2 & B2).
  rewrite readHexEscapeLoop_S, P1, (hexChar_not_end h1 H1), E1, N1.
  rewrite readHexEscapeLoop_S, P2, (hexChar_not_end h2 H2), E2, N2.
  cbn [readHexEscapeLoop skipChars]. f_equal. f_equal.
  unfold js_bitor. rewrite V1, V2.
  change (js_mul (Num 0) (Num 16)) with (Num 0).
  change (ToInt32 (Num 0)) with 0. rewrite Z.lor_0_l. cbn [js_mul].
  set (a := hexDigitValue h1) in *. set (b := hexDigitValue h2) in *.
  clearbody a b.
  assert (a = 0 \/ a = 1 \/ a = 2 \/ a = 3 \/ a = 4 \/ a = 5 \/ a = 6
          \/ a = 7 \/ a = 8 \/ a = 9) as Ha by lia.
  assert (b = 0 \/ b = 1 \/ b = 2 \/ b = 3 \/ b = 4 \/ b = 5 \/ b = 6
          \/ b = 7 \/ b = 8 \/ b = 9) as Hb by lia.
  clear - Ha Hb.
  repeat (destruct Ha as [-> | Ha]);
    repeat (destruct Hb as [-> | Hb]); subst; reflexivity.
Qed.

Lemma readEscape_x h1 h2 t r :
  0 <= currentChar r ->
  rest r = h1 :: h2 :: t ->
  hexChar (Some h1) = true ->
  hexChar (Some h2) = true ->
  readEscape (Some (ch "x")) r =
  set_cur_value (VNumber (Num (16 * hexDigitValue h1 + hexDigitValue h2)))
    (skipChars 2 r).
Proof.
  intros C R H1 H2. unfold readEscape.
  change (eqc (Some (ch "x")) "t") with false.
  change (eqc (Some (ch "x")) "v") with false.
  change (eqc (Some (ch "x")) "x") with true.
  cbv iota.
  rewrite (readHexEscape_two (str "byte") h1 h2 t r C R H1 H2).
  reflexivity.
Qed.

(** X17.  A [\x] escape with two hexadecimal digits sets the value of the
    current token to a number in which each decimal digit counts with
    its value and each letter with 0: [\x41] gives 65, [\x4f] gives 64
    and [\xff] gives 0.  The string token is made with the whole literal
    as the lexeme, and the backslash writes the number 123 on the
    console. *)
Theorem hexadecimal_escapes pre h1 h2 post tail fuel p :
  Forall (fun c => stringChar c = true) pre ->
  Forall (fun c => stringChar c = true) post ->
  hexChar (Some h1) = true ->
  hexChar (Some h2) = true ->
  isEOF (Token.type (currentToken p)) = false ->
  0 <= currentChar p ->
  rest p =
  (dquote :: pre ++ [ch "\"; ch "x"; h1; h2] ++ post ++ [dquote]) ++ tail ->
  exists q,
    nextToken (S (List.length pre + S (List.length post + S fuel))) p
    = Some q
    /\ scansTo TOKEN_STRING
         (dquote :: pre ++ [ch "\"; ch "x"; h1; h2] ++ post ++ [dquote]) p q
    /\ rest q = tail
    /\ console q = console p ++ [Log 123]
    /\ Token.value (currentToken q) =
       VNumber (Num (16 * hexDigitValue h1 + hexDigitValue h2))
    /\ numParens q = numParens p
    /\ parens q = parens p.
Proof.
  intros Fa Fb H1 H2 E C R.
  set (lex' := pre ++ [ch "\"; ch "x"; h1; h2] ++ post ++ [dquote]) in *.
  destruct (rest_skipChar dquote (lex' ++ tail)
              (set_tokenStart (currentChar p) (set_previous (current p) p))
              C R) as [C1 R1].
  change (skipChar (set_tokenStart (currentChar p)
                      (set_previous (current p) p)))
    with (entered p) in C1, R1.
  unfold lex' in R1. rewrite <- !app_assoc in R1.
  destruct (rest_skipChars pre _ (entered p) C1 R1) as [C2 R2].
  pose proof (skipChars_moveTo pre _ (entered p) C1 R1) as M1.
  rewrite entered_moveTo in M1 at 2 3 4.
  assert (NL : eqc (peekChar p) "010" = false)
    by (rewrite (peekChar_rest p C), R; reflexivity).
  rewrite NL, Z.add_0_r in M1.
  rewrite moveTo_moveTo, currentChar_moveTo, currentLine_moveTo in M1.
  set (base := set_tokenStart (currentChar p) (set_previous (current p) p))
    in *.
  set (r1 := skipChars (List.length pre) (entered p)) in *.
  assert (P1 : peekChar r1 = Some (ch "\"))
    by (rewrite (peekChar_rest _ C2), R2; reflexivity).
  set (r1' := set_console (console (skipChar r1) ++ [Log 123])
                (skipChar r1)).
  assert (S1 : r1' =
               set_console (console p ++ [Log 123])
                 (moveTo (currentChar p + 1 + Z.of_nat (List.length pre) + 1)
                    (currentLine p + newlines pre) base)).
  { unfold r1'. rewrite skipChar_moveTo, P1.
    change (eqc (Some (ch "\")) "010") with false. rewrite Z.add_0_r.
    rewrite M1. reflexivity. }
  assert (C3 : 0 <= currentChar r1'
               /\ rest r1' = ch "x" :: [h1; h2] ++ post ++ [dquote] ++ tail).
  { exact (rest_skipChar (ch "\") _ r1 C2 R2). }
  destruct C3 as [C3 R3].
  assert (P3 : peekChar r1' = Some (ch "x"))
    by (rewrite (peekChar_rest _ C3), R3; reflexivity).
  destruct (rest_skipChar (ch "x") _ r1' C3 R3) as [C4 R4].
  pose proof (skipChars_moveTo (ch "x" :: [h1; h2]) _ r1' C3 R3) as M4.
  rewrite S1 in M4 at 2 3 4.
  assert (NH : newlines [ch "x"; h1; h2] = 0).
  { rewrite newlines_cons by discriminate.
    apply (hexChar_no_newline [h1; h2]).
    repeat constructor; assumption. }
  rewrite NH, Z.add_0_r in M4. clear NH.
  change (skipChars (List.length [ch "x"; h1; h2]) r1')
    with (skipChars 2 (skipChar r1')) in M4.
  cbn [currentChar currentLine set_console moveTo set_currentLine
         set_currentChar List.length] in M4.
  set (v := VNumber (Num (16 * hexDigitValue h1 + hexDigitValue h2))).
  set (r2 := set_cur_value v (skipChars 2 (skipChar r1'))).
  destruct (sameScan_set_cur_value v (skipChars 2 (skipChar r1')))
    as [Ss St Sc Sl Sp Sn Sk So].
  fold r2 in Ss, St, Sc, Sl, Sp, Sn, Sk, So.
  destruct (rest_skipChars [h1; h2] _ (skipChar r1') C4 R4) as [C5' R5'].
  change (skipChars (List.length [h1; h2]) (skipChar r1'))
    with (skipChars 2 (skipChar r1')) in C5', R5'.
  assert (C5 : 0 <= currentChar r2) by (rewrite Sc; exact C5').
  assert (R5 : rest r2 = (post ++ [dquote]) ++ tail).
  { unfold rest. rewrite Ss, Sc, <- app_assoc. exact R5'. }
  pose proof (skipChars_moveTo (post ++ [dquote]) tail r2 C5 R5) as M5.
  set (r := skipChars (List.length (post ++ [dquote])) r2) in *.
  destruct (nextToken_scansTo TOKEN_STRING dquote lex' tail
              (List.length pre + S (List.length post + S fuel)) p r
              E C R ltac:(discriminate))
    as (q & Hq & Y & Rq & Lq & Oq & Nq & Pq & Vq).
  - rewrite scanToken_dquote. unfold readString.
    rewrite (readStringLoop_plain pre _ (entered p) _ C1 R1 Fa).
    fold r1. rewrite (readStringLoop_backslash _ r1 P1). cbv zeta.
    fold r1'. rewrite P3.
    rewrite (readEscape_x h1 h2 _ (skipChar r1') C4 R4 H1 H2).
    fold v. fold r2.
    rewrite <- app_assoc in R5.
    rewrite (readStringLoop_plain post _ r2 _ C5 R5 Fb).
    destruct (rest_skipChars post _ r2 C5 R5) as [C6 R6].
    rewrite readStringLoop_quote
      by (rewrite (peekChar_rest _ C6), R6; reflexivity).
    rewrite <- skipChars_succ. unfold r.
    rewrite length_app, Nat.add_comm. reflexivity.
  - rewrite M5. cbn [source moveTo set_currentLine set_currentChar].
    rewrite Ss, M4. reflexivity.
  - rewrite M5.
    cbn [tokenStart moveTo set_currentLine set_currentChar].
    rewrite St, M4. reflexivity.
  - rewrite M5.
    cbn [currentChar moveTo set_currentLine set_currentChar].
    rewrite Sc, M4.
    cbn [currentChar moveTo set_currentLine set_currentChar set_console].
    unfold lex'. cbn [List.length]. repeat rewrite length_app.
    cbn [List.length]. lia.
  - rewrite M5.
    cbn [tokens moveTo set_currentLine set_currentChar].
    rewrite Sk, M4. reflexivity.
  - exists q. repeat (split; [assumption |]).
    assert (Fr : console r = console r2
                 /\ numParens r = numParens r2
                 /\ parens r = parens r2
                 /\ currentToken r = currentToken r2)
      by (rewrite M5; repeat split).
    destruct Fr as (Fo & Fn & Fp & Fv).
    rewrite Oq, Vq, Nq, Pq, Fo, Fn, Fp, Fv, So, Sn, Sp, M4.
    unfold r2. rewrite currentToken_set_cur_value.
    repeat split.
Qed.

Lemma hexadecimal_escapes_witness :
  exists q,
    nextToken 3 (initParser (dquote :: str "\x4f" ++ [dquote])) = Some q
    /\ scansTo TOKEN_STRING (dquote :: str "\x4f" ++ [dquote])
         (initParser (dquote :: str "\x4f" ++ [dquote])) q
    /\ Token.value (currentToken q) = VNumber (Num 64).
Proof.
  destruct (hexadecimal_escapes [] (ch "4") (ch "f") [] [] 0
              (initParser (dquote :: str "\x4f" ++ [dquote])))
    as (q & H & Y & _ & _ & V & _).
  - constructor.
  - constructor.
  - reflexivity.
  - reflexivity.
  - reflexivity.
  - cbn; lia.
  - reflexivity.
  - exists q. auto.
Defined.

(** ** Progress *)

Lemma nextTokenLoop_progress :
  forall fuel p q,
    nextTokenLoop fuel p = Some q ->
    (Token.type (currentToken q) = Some TOKEN_EOF
     /\ currentChar q = tokenStart q
     /\ peekChar q = Some 0)
    \/ (Token.type (currentToken q) <> Some TOKEN_EOF
        /\ tokenStart q < currentChar q).
Proof.
  induction fuel as [| f IH]; intros p q H; [discriminate |].
  cbn [nextTokenLoop] in H.
  destruct (negb (eqc (peekChar p) "000")) eqn:Z.
  - name_nextChar (set_tokenStart (currentChar p) p) c p1 F C.
    destruct F as [Fs Ft Fc Fp Fk Fy Fn]; simpl in *.
    destruct (scanToken f c p1) as [[k r] |] eqn:S; [| discriminate].
    apply scanToken_scanned in S.
    destruct k.
    + injection H as <-. right.
      inversion S as [| ty N Em | Fa]; subst.
      * destruct Em as [_ Et _ _ _ Ec _ Ety _ _].
        split; [congruence | lia].
      * destruct Fa as [_ Et _ _ _ Ec _ Ety _].
        split; [rewrite Ety; discriminate | lia].
    + exact (IH _ _ H).
  - injection H as <-. left.
    apply negb_false_iff, eqc_NUL in Z.
    destruct (makeToken_fields TOKEN_EOF (set_tokenStart (currentChar p) p))
      as (_ & Ft & Fc & _ & _ & _ & _ & _ & _ & Fk).
    rewrite Fk, Ft, Fc, peekChar_makeToken. repeat split. exact Z.
Qed.

(** X18.  Every call of [nextToken] made before the end-of-file token
    that returns has either made the end-of-file token, at a NUL and
    without moving on, or has moved the cursor on past the place where
    its token starts, which is at or after the cursor that it found: but
    for the end of file no call returns without consuming a character,
    and no token that is recorded has an empty span. *)
Theorem calls_make_progress fuel p q :
  isEOF (Token.type (currentToken p)) = false ->
  nextToken fuel p = Some q ->
  currentChar p <= tokenStart q
  /\ ((Token.type (currentToken q) = Some TOKEN_EOF
       /\ currentChar q = tokenStart q
       /\ peekChar q = Some 0)
      \/ (Token.type (currentToken q) <> Some TOKEN_EOF
          /\ tokenStart q < currentChar q
          /\ currentChar p < currentChar q)).
Proof.
  intros E H.
  pose proof (nextToken_cases fuel p q H) as [[E' _] | [_ Pr]];
    [congruence |].
  rewrite (nextToken_is_loop fuel p E) in H.
  destruct Pr as [_ _ _ _ Or _]. cbn [currentChar set_previous] in Or.
  split; [lia |].
  destruct (nextTokenLoop_progress _ _ _ H) as [L | [T L]];
    [left; exact L | right].
  repeat split; [exact T | lia | lia].
Qed.

Lemma calls_make_progress_witness :
  exists q,
    nextToken 5 (initParser (str "  ab ")) = Some q
    /\ 0 <= tokenStart q
    /\ currentChar (initParser (str "  ab ")) < currentChar q.
Proof.
  destruct (nextToken 5 (initParser (str "  ab "))) as [q |] eqn:H;
    [| vm_compute in H; discriminate].
  exists q. split; [reflexivity |].
  destruct (calls_make_progress 5 (initParser (str "  ab ")) q eq_refl H)
    as [S [[T _] | (_ & _ & L)]].
  - vm_compute in H. injection H as <-. vm_compute in T. discriminate T.
  - split; [exact S | exact L].
Defined.

(** ** An exponent without digits *)

Lemma readNumber_dangling ds frac e sign tail r f :
  0 <= currentChar r ->
  rest r = (ds ++ frac ++ e :: sign) ++ tail ->
  digits ds -> fractionPart frac ->
  e = ch "e" \/ e = ch "E" ->
  signPart sign ->
  isDigit (first tail) = false ->
  (sign = [] -> eqc (first tail) "-" = false) ->
  (List.length (ds ++ frac ++ e :: sign) < f)%nat ->
  readNumber f r
  = Some (makeNumber false
            (lexError (str "Unterminated scientific notation.")
               (skipChars (List.length (ds ++ frac ++ e :: sign)) r))).
Proof.
  intros C R D Hf He Hs T N L.
  rewrite !length_app in L. cbn [List.length] in L.
  rewrite <- !app_assoc in R.
  assert (X : isDigit (first ((e :: sign) ++ tail)) = false
              /\ (frac = [] ->
                  eqc (first ((e :: sign) ++ tail)) "."
                  && isDigit (second ((e :: sign) ++ tail)) = false)).
  { destruct He as [-> | ->]; split; reflexivity. }
  destruct X as [TB NB].
  assert (TA : isDigit (first (frac ++ (e :: sign) ++ tail)) = false).
  { destruct Hf as [-> | (d & fs & -> & _)]; [exact TB | reflexivity]. }
  unfold readNumber.
  rewrite (skipDigits_run ds (frac ++ (e :: sign) ++ tail) r f C R D TA)
    by lia.
  destruct (rest_skipChars ds (frac ++ (e :: sign) ++ tail) r C R)
    as [CA RA].
  etransitivity.
  { apply f_equal2 with (f := fun a b =>
        do p <- a;
        let '(m, p0) :=
          let '(m1, p1) := matchChar "e" p in
          if m1 then (true, p1) else matchChar "E" p1 in
        do p1 <- (if m then
                    let p1 := snd (matchChar "-" p0) in
                    let p2 :=
                      if negb (isDigit (peekChar p1))
                      then lexError
                             (str "Unterminated scientific notation.") p1
                      else p1 in
                    skipDigits b p2
                  else Some p0);
        Some (makeNumber false p1));
      [| reflexivity].
    exact (fraction_run frac ((e :: sign) ++ tail) _ f CA RA Hf TB NB
             ltac:(lia)). }
  cbv beta iota.
  destruct (rest_skipChars frac ((e :: sign) ++ tail) _ CA RA) as [CB RB].
  set (rB := skipChars (List.length frac) (skipChars (List.length ds) r))
    in *.
  rewrite (matchExponent_yes e (sign ++ tail) rB CB RB He).
  destruct (rest_skipChar e (sign ++ tail) rB CB RB) as [C1 R1].
  assert (Fin : forall r',
             0 <= currentChar r' -> rest r' = tail ->
             skipDigits f
               (if negb (isDigit (peekChar r'))
                then lexError (str "Unterminated scientific notation.") r'
                else r')
             = Some (lexError (str "Unterminated scientific notation.") r')).
  { intros r' Cr Rr. rewrite (peekChar_rest r' Cr), Rr, T. cbn [negb].
    destruct f as [| f']; [lia |]. unfold skipDigits. cbn [while].
    change (peekChar (lexError (str "Unterminated scientific notation.") r'))
      with (peekChar r').
    rewrite (peekChar_rest r' Cr), Rr, T. reflexivity. }
  destruct Hs as [-> | ->].
  - change ([] ++ tail) with tail in R1.
    rewrite (matchChar_no "-" _ C1) by (rewrite R1; exact (N eq_refl)).
    cbn [snd]. cbv zeta. rewrite (Fin _ C1 R1).
    unfold rB. rewrite <- skipChars_succ.
    rewrite <- !skipChars_add, !length_app. cbn [List.length].
    match goal with
    | |- Some (makeNumber false (lexError _ (skipChars ?a r)))
         = Some (makeNumber false (lexError _ (skipChars ?b r))) =>
        replace a with b by lia; reflexivity
    end.
  - change ([ch "-"] ++ tail) with (ch "-" :: tail) in R1.
    rewrite (matchChar_yes "-" _ _ C1 R1).
    destruct (rest_skipChar _ _ _ C1 R1) as [C2 R2].
    cbn [snd]. cbv zeta. rewrite (Fin _ C2 R2).
    unfold rB. rewrite <- !skipChars_succ.
    rewrite <- !skipChars_add, !length_app. cbn [List.length].
    match goal with
    | |- Some (makeNumber false (lexError _ (skipChars ?a r)))
         = Some (makeNumber false (lexError _ (skipChars ?b r))) =>
        replace a with b by lia; reflexivity
    end.
Qed.

Lemma digits_no_newline ds : digits ds -> newlines ds = 0.
Proof.
  unfold newlines. induction 1 as [| c s B _ IH]; [reflexivity |].
  cbn [count_occ]. destruct (Z.eq_dec c 10) as [-> | N]; [discriminate |].
  exact IH.
Qed.

(** X19.  An [e] or [E] right after a number always belongs to the
    number, and so does a minus after it.  When no digit follows, the
    call writes the message for an unterminated scientific notation and
    still makes the number token, whose lexeme ends with the [e] or the
    minus: in [1else] the number takes the [e] of [else]. *)
Theorem exponent_without_digits c ds frac e sign tail fuel p :
  isDigit (Some c) = true ->
  digits ds -> fractionPart frac ->
  e = ch "e" \/ e = ch "E" ->
  signPart sign ->
  isDigit (first tail) = false ->
  (sign = [] -> eqc (first tail) "-" = false) ->
  isEOF (Token.type (currentToken p)) = false ->
  0 <= currentChar p ->
  rest p = (c :: ds ++ frac ++ e :: sign) ++ tail ->
  exists q,
    nextToken (S (S (List.length (ds ++ frac ++ e :: sign) + fuel))) p
    = Some q
    /\ scansTo TOKEN_NUMBER (c :: ds ++ frac ++ e :: sign) p q
    /\ rest q = tail
    /\ console q =
       console p
       ++ [Warn (currentLine p) (str "Unterminated scientific notation.")]
    /\ numParens q = numParens p
    /\ parens q = parens p.
Proof.
  intros Hc D Hf He Hs T N E C R.
  assert (N0 : c <> 0) by (apply digit_range in Hc; lia).
  set (lex' := ds ++ frac ++ e :: sign) in *.
  destruct (rest_skipChar c (lex' ++ tail)
              (set_tokenStart (currentChar p) (set_previous (current p) p))
              C R) as [C' R'].
  change (skipChar (set_tokenStart (currentChar p)
                      (set_previous (current p) p)))
    with (entered p) in C', R'.
  pose proof (skipChars_entered c lex' tail p C R) as M.
  assert (NL : newlines (c :: lex') = 0).
  { rewrite newlines_cons by (apply digit_range in Hc; lia).
    unfold lex'. rewrite !newlines_app.
    rewrite (digits_no_newline ds D).
    assert (Nf : newlines frac = 0).
    { destruct Hf as [-> | (d & fs & -> & Df)]; [reflexivity |].
      rewrite newlines_cons by discriminate. apply digits_no_newline, Df. }
    rewrite Nf.
    destruct He as [-> | ->]; destruct Hs as [-> | ->]; reflexivity. }
  rewrite NL, Z.add_0_r in M. clear NL.
  set (r1 := lexError (str "Unterminated scientific notation.")
               (skipChars (List.length lex') (entered p))).
  set (v := VNumber (parseFloat (tokenStart r1))).
  destruct (sameScan_set_cur_value v r1) as [Ss St Sc Sl Sp Sn Sk So].
  destruct (nextToken_scansTo TOKEN_NUMBER c lex' tail
              (S (List.length lex' + fuel)) p (set_cur_value v r1)
              E C R N0)
    as (q & Hq & Y & Rq & Lq & Oq & Nq & Pq & _).
  - rewrite (scanToken_digit _ c _ Hc).
    + rewrite (readNumber_dangling ds frac e sign tail (entered p) _ C' R'
                 D Hf He Hs T N) by (fold lex'; lia).
      reflexivity.
    + intros Z0. rewrite (peekChar_rest _ C'), R'. unfold lex'.
      destruct ds as [| d ds].
      * destruct Hf as [-> | (d & fs & -> & _)]; [| reflexivity].
        destruct He as [-> | ->]; reflexivity.
      * inversion D as [| ? ? Dd _]; subst.
        rewrite <- app_comm_cons, first_app_cons, eqc_Some.
        apply Z.eqb_neq. apply digit_range in Dd.
        change (ch "x") with 120. lia.
  - rewrite Ss. unfold r1, lexError. rewrite M. reflexivity.
  - rewrite St. unfold r1, lexError. rewrite M. reflexivity.
  - rewrite Sc. unfold r1, lexError. rewrite M. reflexivity.
  - rewrite Sk. unfold r1, lexError. rewrite M. reflexivity.
  - exists q. repeat (split; [assumption |]).
    rewrite Oq, Nq, Pq, So, Sn, Sp. unfold r1, lexError. rewrite M.
    repeat split.
Qed.

Lemma exponent_without_digits_witness :
  exists q,
    nextToken 3 (initParser (str "1else")) = Some q
    /\ scansTo TOKEN_NUMBER (str "1e") (initParser (str "1else")) q
    /\ rest q = str "lse"
    /\ warnings q = [str "Unterminated scientific notation."].
Proof.
  destruct (exponent_without_digits (ch "1") [] [] (ch "e") [] (str "lse") 0
              (initParser (str "1else")))
    as (q & H & Y & R & O & _).
  - reflexivity.
  - constructor.
  - left. reflexivity.
  - left. reflexivity.
  - left. reflexivity.
  - reflexivity.
  - reflexivity.
  - reflexivity.
  - cbn; lia.
  - reflexivity.
  - exists q. repeat (split; [assumption |]).
    unfold warnings. rewrite O. reflexivity.
Defined.

(** ** The constructor *)

Lemma nextToken_at_EOF src fuel p :
  reachable src p ->
  isEOF (Token.type (currentToken p)) = true ->
  nextToken fuel p = Some p.
Proof.
  intros R E.
  assert (A : previous p = current p).
  { inversion R as [I | f p0 q0 _ H]; subst.
    - discriminate.
    - eapply previous_aliases_current, H. }
  unfold nextToken; cbv zeta.
  rewrite currentToken_set_previous, E, <- A.
  destruct p; reflexivity.
Qed.

Lemma nextTokens_at_EOF src fuel p :
  reachable src p ->
  isEOF (Token.type (currentToken p)) = true ->
  forall n, nextTokens n fuel p = Some p.
Proof.
  intros R E. induction n as [| n IH]; [reflexivity |].
  cbn [nextTokens]. rewrite (nextToken_at_EOF src fuel p R E). exact IH.
Qed.

Lemma nextTokens_plus :
  forall a b fuel p,
    nextTokens (a + b) fuel p =
    do p1 <- nextTokens a fuel p; nextTokens b fuel p1.
Proof.
  induction a as [| a IH]; intros b fuel p; [reflexivity |].
  cbn [Nat.add nextTokens].
  destruct (nextToken fuel p) as [p0 |]; [apply IH | reflexivity].
Qed.

Lemma nextTokenLoop_EOF_entry :
  forall fuel p q,
    nextTokenLoop fuel p = Some q ->
    isEOF (Token.type (currentToken q)) = true ->
    exists line, tokens q = tokens p ++ [Entry.mk TOKEN_EOF [] line].
Proof.
  induction fuel as [| f IH]; intros p q H E; [discriminate |].
  cbn [nextTokenLoop] in H.
  destruct (negb (eqc (peekChar p) "000")) eqn:Z.
  - name_nextChar (set_tokenStart (currentChar p) p) c p1 F C.
    destruct F as [Fs Ft Fc Fp Fk Fy Fn]; simpl in *.
    destruct (scanToken f c p1) as [[k r] |] eqn:S; [| discriminate].
    apply scanToken_scanned in S.
    destruct k.
    + injection H as <-. exfalso.
      inversion S as [| ty N Em | Fa]; subst.
      * destruct Em as [_ _ _ _ _ _ _ Ety _ _]. rewrite Ety in E.
        destruct ty; try discriminate. congruence.
      * destruct Fa as [_ _ _ _ _ _ _ Ety _]. rewrite Ety in E.
        discriminate.
    + inversion S as [[Fr _] | |]; subst.
      destruct Fr as [_ _ _ _ Fk' _ _].
      destruct (IH _ _ H E) as [line T]. exists line. congruence.
  - injection H as <-. eexists.
    rewrite makeToken_entry. unfold turnSpan.
    cbn [tokenStart currentChar set_tokenStart tokens source].
    rewrite Z.sub_diag, substr_zero. reflexivity.
Qed.

Lemma reachable_EOF_entry src q :
  reachable src q ->
  isEOF (Token.type (currentToken q)) = true ->
  exists l line, tokens q = l ++ [Entry.mk TOKEN_EOF [] line].
Proof.
  induction 1 as [| f p q R IH H]; intros E; [discriminate |].
  destruct (isEOF (Token.type (currentToken p))) eqn:Ep.
  - rewrite (nextToken_at_EOF src f p R Ep) in H. injection H as <-.
    exact (IH eq_refl).
  - rewrite (nextToken_is_loop f p Ep) in H.
    destruct (nextTokenLoop_EOF_entry _ _ _ H E) as [line T].
    exists (tokens p), line. exact T.
Qed.

(** X20.  The constructor tokenizes the whole of a source that reaches
    its end within 85 tokens.  When some number of calls of [nextToken],
    at most 85, has made the end-of-file token, the calls that are left
    change nothing: the constructor returns the state in which the
    end-of-file token was made, whose last recorded token is the
    end-of-file token. *)
Theorem constructor_stops_at_EOF src n fuel q :
  (n <= 85)%nat ->
  nextTokens n fuel (initParser src) = Some q ->
  isEOF (Token.type (currentToken q)) = true ->
  newParser fuel src = Some q
  /\ exists l line, tokens q = l ++ [Entry.mk TOKEN_EOF [] line].
Proof.
  intros L H E.
  assert (R : reachable src q)
    by (eapply nextTokens_reachable; [apply reach_init | exact H]).
  split; [| exact (reachable_EOF_entry src q R E)].
  unfold newParser.
  replace 85%nat with (n + (85 - n))%nat by lia.
  rewrite nextTokens_plus, H.
  apply (nextTokens_at_EOF src fuel q R E).
Qed.

Lemma constructor_stops_at_EOF_witness :
  exists q,
    newParser 3 (str "a+b" ++ [0]) = Some q
    /\ tokenTypes q = [TOKEN_NAME; TOKEN_PLUS; TOKEN_NAME; TOKEN_EOF].
Proof.
  destruct (nextTokens 4 3 (initParser (str "a+b" ++ [0]))) as [q |] eqn:H;
    [| vm_compute in H; discriminate].
  assert (E : isEOF (Token.type (currentToken q)) = true)
    by (vm_compute in H; injection H as <-; reflexivity).
  destruct (constructor_stops_at_EOF (str "a+b" ++ [0]) 4 3 q
              ltac:(lia) H E) as [N _].
  exists q. split; [exact N |].
  vm_compute in H. injection H as <-. reflexivity.
Defined.

(** ** Termination on sources that end with a NUL *)

Lemma inside_frame n src r q :
  inside n src r -> source q = source r ->
  currentChar r <= currentChar q <= n ->
  inside n src q.
Proof. intros [S C] Hs Hc. split; [congruence | lia]. Qed.

Lemma inside_same n src r q :
  inside n src r -> source q = source r -> currentChar q = currentChar r ->
  inside n src q.
Proof. intros [S C] Hs Hc. split; [congruence | lia]. Qed.

(** A character that is not NUL stands before the offset of the NUL. *)
Lemma inside_before n src r :
  guarded n src -> inside n src r ->
  eqc (peekChar r) "000" = false ->
  currentChar r < n.
Proof.
  intros G [S C] P.
  destruct (Z.eq_dec (currentChar r) n) as [E | E]; [| lia].
  unfold peekChar in P. rewrite S, E, (gd_nul n src G) in P. discriminate.
Qed.

Lemma inside_skipChar n src r :
  guarded n src -> inside n src r ->
  eqc (peekChar r) "000" = false ->
  inside n src (skipChar r).
Proof.
  intros G I P. pose proof (inside_before n src r G I P) as B.
  destruct I as [S C]. rewrite skipChar_moveTo. split; [exact S |].
  cbn [currentChar moveTo set_currentLine set_currentChar]. lia.
Qed.

Lemma inside_lexError n src m r :
  inside n src r -> inside n src (lexError m r).
Proof. intros I. exact I. Qed.

Lemma inside_makeToken n src ty r :
  inside n src r -> inside n src (makeToken ty r).
Proof.
  intros I.
  destruct (makeToken_fields ty r) as (Fs & _ & Fc & _).
  apply (inside_same n src r); assumption.
Qed.

Lemma inside_set_cur_value n src v r :
  inside n src r -> inside n src (set_cur_value v r).
Proof.
  intros I. destruct (sameScan_set_cur_value v r) as [Ss _ Sc _ _ _ _ _].
  apply (inside_same n src r); assumption.
Qed.

Lemma inside_makeNumber n src b r :
  inside n src r -> inside n src (makeNumber b r).
Proof.
  intros I. unfold makeNumber.
  destruct b; apply inside_makeToken, inside_set_cur_value, I.
Qed.

(** A loop over [nextChar] whose test fails on NUL ends at the NUL at the
    latest. *)
Lemma while_returns (test : option Z -> bool) n src :
  guarded n src ->
  test (Some 0) = false ->
  forall f r,
    inside n src r ->
    (Z.to_nat (n - currentChar r) < f)%nat ->
    exists q,
      while f (fun p => test (peekChar p)) skipChar r = Some q
      /\ inside n src q.
Proof.
  intros G T. induction f as [| f IH]; intros r I L; [lia |].
  cbn [while]. destruct (test (peekChar r)) eqn:P.
  - assert (Z0 : eqc (peekChar r) "000" = false).
    { destruct (peekChar r) as [c |]; [| reflexivity].
      rewrite eqc_Some. apply Z.eqb_neq. intros ->.
      change (ch "000") with 0 in P. congruence. }
    pose proof (inside_before n src r G I Z0) as B.
    apply IH; [apply inside_skipChar; assumption |].
    rewrite skipChar_moveTo.
    cbn [currentChar moveTo set_currentLine set_currentChar]. lia.
  - exists r. split; [reflexivity | exact I].
Qed.

Lemma peekChar_skipChar r : peekChar (skipChar r) = peekNextChar r.
Proof. rewrite skipChar_moveTo. reflexivity. Qed.

Lemma inside_matchChar n src a r :
  guarded n src -> inside n src r -> ch a <> 0 ->
  inside n src (snd (matchChar a r)).
Proof.
  intros G I N. unfold matchChar.
  destruct (eqc (peekChar r) a) eqn:P; cbn [negb snd]; [| exact I].
  apply inside_skipChar; [exact G | exact I |].
  destruct (peekChar r) as [c |]; [| reflexivity].
  rewrite eqc_Some in *. apply Z.eqb_eq in P. subst c.
  apply Z.eqb_neq. exact N.
Qed.

Lemma skipBlockCommentLoop_returns n src :
  guarded n src ->
  forall f k r,
    inside n src r ->
    (Z.to_nat (n - currentChar r) < f)%nat ->
    exists q, skipBlockCommentLoop f k r = Some q /\ inside n src q.
Proof.
  intros G. induction f as [| f IH]; intros k r I L; [lia |].
  rewrite skipBlockCommentLoop_S.
  destruct (0 <? k); [| exists r; split; [reflexivity | exact I]].
  destruct (eqc (peekChar r) "000") eqn:Z0.
  { eexists. split; [reflexivity | exact I]. }
  pose proof (inside_before n src r G I Z0) as B.
  pose proof (inside_skipChar n src r G I Z0) as I1.
  assert (C1 : currentChar (skipChar r) = currentChar r + 1)
    by (rewrite skipChar_moveTo; reflexivity).
  assert (Two : forall a b,
             ch b <> 0 ->
             eqc (peekChar r) a && eqc (peekNextChar r) b = true ->
             forall k',
             exists q,
               skipBlockCommentLoop f k' (skipChar (skipChar r)) = Some q
               /\ inside n src q).
  { intros a b Nb H k'. apply andb_prop in H as [_ H].
    assert (Z1 : eqc (peekChar (skipChar r)) "000" = false).
    { rewrite peekChar_skipChar.
      destruct (peekNextChar r) as [c |]; [| reflexivity].
      rewrite eqc_Some in *. apply Z.eqb_eq in H. subst c.
      apply Z.eqb_neq. exact Nb. }
    pose proof (inside_before n src _ G I1 Z1) as B1.
    apply IH; [apply inside_skipChar; assumption |].
    rewrite (skipChar_moveTo (skipChar r)).
    cbn [currentChar moveTo set_currentLine set_currentChar]. lia. }
  destruct (eqc (peekChar r) "/" && eqc (peekNextChar r) "*") eqn:O;
    [apply (Two "/"%char "*"%char); [discriminate | exact O] |].
  destruct (eqc (peekChar r) "*" && eqc (peekNextChar r) "/") eqn:Cl;
    [apply (Two "*"%char "/"%char); [discriminate | exact Cl] |].
  apply IH; [exact I1 | lia].
Qed.

(** [readHexDigit] consumes a character or puts it back. *)
Lemma readHexDigit_inside n src r :
  guarded n src -> inside n src r ->
  inside n src (snd (readHexDigit r))
  /\ (js_num_eqb (fst (readHexDigit r)) (Num (-1)) = false ->
      currentChar (snd (readHexDigit r)) = currentChar r + 1).
Proof.
  intros G I. unfold readHexDigit. rewrite nextChar_peek.
  assert (Hex : forall a b,
             ch a <> 0 -> 0 <= ch a ->
             gec (peekChar r) a && lec (peekChar r) b = true ->
             inside n src (skipChar r)).
  { intros a b Na Pa H. apply andb_prop in H as [H _].
    apply inside_skipChar; [exact G | exact I |].
    destruct (peekChar r) as [c |]; [| discriminate].
    unfold gec in H. apply Z.leb_le in H. rewrite eqc_Some.
    apply Z.eqb_neq. change (ch "000") with 0. lia. }
  assert (C1 : currentChar (skipChar r) = currentChar r + 1)
    by (rewrite skipChar_moveTo; reflexivity).
  destruct (gec (peekChar r) "0" && lec (peekChar r) "9") eqn:D;
    [split; [apply (Hex "0"%char "9"%char); [discriminate .. | exact D]
            | intros _; exact C1] |].
  destruct (gec (peekChar r) "a" && lec (peekChar r) "f") eqn:Lo;
    [split; [apply (Hex "a"%char "f"%char); [discriminate .. | exact Lo]
            | intros _; exact C1] |].
  destruct (gec (peekChar r) "A" && lec (peekChar r) "F") eqn:Up;
    [split; [apply (Hex "A"%char "F"%char); [discriminate .. | exact Up]
            | intros _; exact C1] |].
  cbn [fst snd]. split; [| discriminate].
  destruct I as [S C]. split; [rewrite skipChar_moveTo; exact S |].
  cbn [currentChar set_currentChar]. lia.
Qed.

Lemma readHexDigits_returns n src :
  guarded n src ->
  forall f r,
    inside n src r ->
    (Z.to_nat (n - currentChar r) < f)%nat ->
    exists q, readHexDigits f r = Some q /\ inside n src q.
Proof.
  intros G. induction f as [| f IH]; intros r I L; [lia |].
  rewrite readHexDigits_S.
  destruct (readHexDigit_inside n src r G I) as [I1 C1].
  destruct (readHexDigit r) as [d r1]. cbn [fst snd] in I1, C1.
  destruct (js_num_eqb d (Num (-1))) eqn:D; cbn [negb].
  - exists r1. split; [reflexivity | exact I1].
  - specialize (C1 eq_refl). apply IH; [exact I1 |].
    destruct I1 as [_ B]. lia.
Qed.

Lemma eqc_not_NUL c a :
  ch a <> 0 -> eqc c a = true -> eqc c "000" = false.
Proof.
  intros N H. destruct c as [z |]; [| reflexivity].
  rewrite eqc_Some in *. apply Z.eqb_eq in H. subst z.
  apply Z.eqb_neq. exact N.
Qed.

Lemma readHexNumber_returns n src f r :
  guarded n src -> inside n src r ->
  eqc (peekChar r) "x" = true ->
  (Z.to_nat (n - currentChar r) < f)%nat ->
  exists q, readHexNumber f r = Some q /\ inside n src q.
Proof.
  intros G I X L. unfold readHexNumber.
  assert (Z0 : eqc (peekChar r) "000" = false)
    by (apply (eqc_not_NUL _ "x"); [discriminate | exact X]).
  pose proof (inside_skipChar n src r G I Z0) as I1.
  destruct (readHexDigits_returns n src G f (skipChar r) I1) as (q & H & Iq).
  { rewrite skipChar_moveTo.
    cbn [currentChar moveTo set_currentLine set_currentChar]. lia. }
  rewrite H. eexists. split; [reflexivity |].
  apply inside_makeNumber, Iq.
Qed.

Lemma skipDigits_returns n src f r :
  guarded n src -> inside n src r ->
  (Z.to_nat (n - currentChar r) < f)%nat ->
  exists q,
    skipDigits f r = Some q /\ inside n src q
    /\ currentChar r <= currentChar q.
Proof.
  intros G I L.
  destruct (while_returns isDigit n src G eq_refl f r I L) as (q & H & Iq).
  exists q. split; [exact H |]. split; [exact Iq |].
  apply advances_skipDigits in H. destruct H as [_ H]. exact H.
Qed.

Lemma readNumber_returns n src f r :
  guarded n src -> inside n src r ->
  (Z.to_nat (n - currentChar r) < f)%nat ->
  exists q, readNumber f r = Some q /\ inside n src q.
Proof.
  intros G I L. unfold readNumber.
  destruct (skipDigits_returns n src f r G I L) as (r1 & -> & I1 & C1).
  assert (F2 : exists r2,
             (if eqc (peekChar r1) "." && isDigit (peekNextChar r1)
              then skipDigits f (skipChar r1) else Some r1) = Some r2
             /\ inside n src r2 /\ currentChar r1 <= currentChar r2).
  { destruct (eqc (peekChar r1) "." && isDigit (peekNextChar r1)) eqn:Fr.
    - apply andb_prop in Fr as [Fr _].
      assert (Z0 : eqc (peekChar r1) "000" = false)
        by (apply (eqc_not_NUL _ "."); [discriminate | exact Fr]).
      pose proof (inside_skipChar n src r1 G I1 Z0) as I2.
      pose proof (inside_before n src r1 G I1 Z0) as B.
      assert (C2 : currentChar (skipChar r1) = currentChar r1 + 1)
        by (rewrite skipChar_moveTo; reflexivity).
      destruct (skipDigits_returns n src f (skipChar r1) G I2)
        as (r2 & H & I3 & C3); [lia |].
      exists r2. split; [exact H |]. split; [exact I3 | lia].
    - exists r1. split; [reflexivity |]. split; [exact I1 | lia]. }
  destruct F2 as (r2 & -> & I2 & C2).
  set (me := let '(m1, p1) := matchChar "e" r2 in
             if m1 then (true, p1) else matchChar "E" p1).
  assert (I3 : inside n src (snd me)
               /\ currentChar r2 <= currentChar (snd me)).
  { unfold me.
    pose proof (inside_matchChar n src "e" r2 G I2 ltac:(discriminate)) as A.
    pose proof (advances_matchChar "e" r2) as [_ A'].
    destruct (matchChar "e" r2) as [m1 p1]. cbn [snd] in A, A'.
    destruct m1; [split; assumption |].
    pose proof (inside_matchChar n src "E" p1 G A ltac:(discriminate)) as B.
    pose proof (advances_matchChar "E" p1) as [_ B'].
    split; [exact B | lia]. }
  destruct me as [m r3]. cbn [snd] in I3. destruct I3 as [I3 C3].
  destruct m.
  - pose proof (inside_matchChar n src "-" r3 G I3 ltac:(discriminate)) as I4.
    pose proof (advances_matchChar "-" r3) as [_ C4].
    set (r4 := snd (matchChar "-" r3)) in *.
    assert (I5 : inside n src
                   (if negb (isDigit (peekChar r4))
                    then lexError (str "Unterminated scientific notation.") r4
                    else r4))
      by (destruct (negb (isDigit (peekChar r4))); exact I4).
    destruct (skipDigits_returns n src f _ G I5) as (r5 & H & I6 & _).
    { destruct (negb (isDigit (peekChar r4))); unfold lexError;
        cbn [currentChar set_console]; lia. }
    cbv zeta. rewrite H. eexists. split; [reflexivity |].
    apply inside_makeNumber, I6.
  - eexists. split; [reflexivity |]. apply inside_makeNumber, I3.
Qed.

Lemma nameChar_NUL : nameChar (Some 0) = false.
Proof. reflexivity. Qed.

Lemma readName_returns n src f ty r :
  guarded n src -> inside n src r ->
  (Z.to_nat (n - currentChar r) < f)%nat ->
  exists q, readName f ty r = Some q /\ inside n src q.
Proof.
  intros G I L. unfold readName.
  destruct (while_returns nameChar n src G nameChar_NUL f r I L)
    as (q & H & Iq).
  unfold nameChar in H at 1. rewrite H.
  eexists. split; [reflexivity |]. apply inside_makeToken, Iq.
Qed.

(** [readHexEscape] stays at or before the NUL, and steps back over one
    character at most. *)
Lemma readHexEscapeLoop_inside n src :
  guarded n src ->
  forall k d v r,
    inside n src r -> 1 <= currentChar r ->
    source (snd (readHexEscapeLoop k d v r)) = src
    /\ currentChar r - 1 <= currentChar (snd (readHexEscapeLoop k d v r))
       <= n.
Proof.
  intros G. induction k as [| k IH]; intros d v r I P.
  - destruct I as [S C]. cbn [readHexEscapeLoop snd]. split; [exact S | lia].
  - rewrite readHexEscapeLoop_S.
    destruct (eqc (peekChar r) dquoteChar || eqc (peekChar r) "000").
    + destruct I as [S C]. cbv zeta. cbn [snd].
      split; [exact S |].
      unfold lexError. cbn [currentChar set_currentChar set_console]. lia.
    + destruct (readHexDigit_inside n src r G I) as [I1 C1].
      pose proof (advances_readHexDigit r) as [_ A1].
      destruct (readHexDigit r) as [digit r1]. cbn [fst snd] in I1, C1, A1.
      destruct (js_num_eqb digit (Num (-1))).
      * destruct I1 as [S1 B1]. cbn [snd].
        split; [exact S1 |].
        unfold lexError. cbn [currentChar set_console]. lia.
      * destruct (IH d (js_bitor (js_mul v (Num 16)) digit) r1 I1) as [S2 B2];
          [lia |].
        split; [exact S2 | lia].
Qed.

Lemma readEscape_inside n src e r :
  guarded n src -> inside n src r -> 1 <= currentChar r ->
  source (readEscape e r) = src
  /\ currentChar r - 1 <= currentChar (readEscape e r) <= n.
Proof.
  intros G I P. unfold readEscape.
  assert (V : forall v,
             source (set_cur_value v r) = src
             /\ currentChar r - 1 <= currentChar (set_cur_value v r) <= n).
  { intros v. destruct (inside_set_cur_value n src v r I) as [S C].
    destruct (sameScan_set_cur_value v r) as [_ _ Sc _ _ _ _ _].
    split; [exact S | lia]. }
  destruct (eqc e "t"); [apply V |].
  destruct (eqc e "v"); [apply V |].
  destruct (eqc e "x").
  - unfold readHexEscape.
    destruct (readHexEscapeLoop_inside n src G 2 (str "byte") (Num 0) r I P)
      as [S B].
    destruct (readHexEscapeLoop 2 (str "byte") (Num 0) r) as [v q].
    cbn [snd] in S, B.
    destruct (sameScan_set_cur_value (VNumber v) q) as [Ss _ Sc _ _ _ _ _].
    split; [congruence | lia].
  - destruct I as [S C]. split; [exact S |].
    unfold lexError. cbn [currentChar set_console]. lia.
Qed.

(** After a character that is not the one before the NUL, one more
    character can be consumed. *)
Lemma inside_second n src r a :
  guarded n src -> inside n src r ->
  eqc (peekChar r) a = true ->
  charAt src (n - 1) <> Some (ch a) ->
  ch a <> 0 ->
  currentChar r + 2 <= n.
Proof.
  intros G I P Q N.
  assert (Z0 : eqc (peekChar r) "000" = false)
    by (apply (eqc_not_NUL _ a); assumption).
  pose proof (inside_before n src r G I Z0) as B.
  destruct (Z.eq_dec (currentChar r) (n - 1)) as [E | E]; [| lia].
  exfalso. apply Q. destruct I as [S _].
  unfold peekChar in P. rewrite S, E in P.
  destruct (charAt src (n - 1)) as [c |]; [| discriminate].
  rewrite eqc_Some in P. apply Z.eqb_eq in P. congruence.
Qed.

Lemma readStringLoop_returns n src :
  guarded n src ->
  forall f r,
    inside n src r ->
    (Z.to_nat (n - currentChar r) < f)%nat ->
    exists ty q, readStringLoop f r = Some (ty, q) /\ inside n src q.
Proof.
  intros G. induction f as [| f IH]; intros r I L; [lia |].
  cbn [readStringLoop]. rewrite nextChar_peek.
  assert (C1 : currentChar (skipChar r) = currentChar r + 1)
    by (rewrite skipChar_moveTo; reflexivity).
  assert (S1 : source (skipChar r) = src)
    by (rewrite skipChar_moveTo; exact (proj1 I)).
  destruct (eqc (peekChar r) dquoteChar) eqn:Q.
  { do 2 eexists. split; [reflexivity |].
    apply inside_skipChar; [exact G | exact I |].
    apply (eqc_not_NUL _ dquoteChar); [discriminate | exact Q]. }
  destruct (eqc (peekChar r) "000") eqn:Z0.
  { do 2 eexists. split; [reflexivity |].
    destruct I as [S C]. split; [exact S1 |].
    unfold lexError. cbn [currentChar set_currentChar set_console]. lia. }
  pose proof (inside_before n src r G I Z0) as B.
  pose proof (inside_skipChar n src r G I Z0) as I1.
  assert (Tail : forall p2,
             inside n src p2 -> currentChar p2 = currentChar r + 1 ->
             exists ty q,
               (if eqc (peekChar r) "\" then
                  let p3 := set_console (console p2 ++ [Log 123]) p2 in
                  let '(e, p4) := nextChar p3 in
                  readStringLoop f (readEscape e p4)
                else readStringLoop f p2) = Some (ty, q)
               /\ inside n src q).
  { intros p2 I2 C2. destruct (eqc (peekChar r) "\") eqn:Bs.
    - pose proof (inside_second n src r "\" G I Bs (gd_backslash n src G)
                    ltac:(discriminate)) as Two.
      cbv zeta. rewrite nextChar_peek.
      set (p3 := set_console (console p2 ++ [Log 123]) p2).
      assert (I4 : inside n src (skipChar p3)).
      { rewrite skipChar_moveTo. destruct I2 as [S2 B2].
        split; [exact S2 |].
        cbn [currentChar moveTo set_currentLine set_currentChar p3
               set_console]. lia. }
      assert (C4 : currentChar (skipChar p3) = currentChar r + 2).
      { rewrite skipChar_moveTo.
        cbn [currentChar moveTo set_currentLine set_currentChar p3
               set_console]. lia. }
      destruct (readEscape_inside n src (peekChar p3) (skipChar p3) G I4)
        as [S5 B5]; [destruct I as [_ C]; lia |].
      apply IH; [split; [exact S5 | destruct I as [_ C]; lia] | lia].
    - apply IH; [exact I2 | lia]. }
  destruct (eqc (peekChar r) "%") eqn:Pc.
  - destruct (numParens (skipChar r) <? MAX_INTERPOLATION_NESTING).
    + pose proof (inside_second n src r "%" G I Pc (gd_percent n src G)
                    ltac:(discriminate)) as Two.
      rewrite nextChar_peek. do 2 eexists. split; [reflexivity |].
      assert (I2 : inside n src (skipChar (skipChar r))).
      { rewrite (skipChar_moveTo (skipChar r)). split; [exact S1 |].
        cbn [currentChar moveTo set_currentLine set_currentChar].
        destruct I as [_ C]. lia. }
      destruct (negb (eqc (peekChar (skipChar r)) "(")); exact I2.
    + apply Tail; [exact I1 | exact C1].
  - apply Tail; [exact I1 | exact C1].
Qed.

Lemma readString_returns n src f r :
  guarded n src -> inside n src r ->
  (Z.to_nat (n - currentChar r) < f)%nat ->
  exists q, readString f r = Some q /\ inside n src q.
Proof.
  intros G I L. unfold readString.
  destruct (readStringLoop_returns n src G f r I L) as (ty & q & -> & Iq).
  eexists. split; [reflexivity |]. apply inside_makeToken, Iq.
Qed.

Lemma inside_twoCharToken n src a two one r :
  guarded n src -> inside n src r -> ch a <> 0 ->
  inside n src (twoCharToken a two one r).
Proof.
  intros G I N. unfold twoCharToken.
  pose proof (inside_matchChar n src a r G I N) as Im.
  destruct (matchChar a r) as [m p]. apply inside_makeToken, Im.
Qed.

Lemma inside_error n src m r :
  inside n src r ->
  inside n src (set_cur_length 0 (set_cur_type TOKEN_ERROR (lexError m r))).
Proof.
  intros I. destruct (error_fields m r) as (Fs & Fc & _).
  apply (inside_same n src r); assumption.
Qed.

Lemma scanToken_returns n src f c r :
  guarded n src -> inside n src r ->
  (Z.to_nat (n - currentChar r) < f)%nat ->
  exists k q, scanToken f c r = Some (k, q) /\ inside n src q.
Proof.
  intros G I L. unfold scanToken.
  repeat match goal with
    | |- exists k q, (if ?b then _ else _) = _ /\ _ =>
        let E := fresh "E" in destruct b eqn:E
    | |- exists k q, (let p := _ in _) = _ /\ _ => cbv zeta
    | |- exists k q, (let '(m, p) := matchChar ?a ?r in _) = _ /\ _ =>
        let Im := fresh "Im" in
        let Cm := fresh "Cm" in
        let m := fresh "m" in
        let p := fresh "p" in
        pose proof (inside_matchChar n src a r G ltac:(assumption)
                      ltac:(discriminate)) as Im;
        pose proof (advances_matchChar a r) as [_ Cm];
        destruct (matchChar a r) as [m p]; cbn [snd] in Im, Cm
    end.
  all: try (do 2 eexists; split; [reflexivity |];
            first [ apply inside_makeToken;
                    first [ assumption
                          | match goal with
                            | |- inside _ _ (if ?b then _ else _) =>
                                destruct b; exact I
                            end
                          | exact I ]
                  | apply inside_twoCharToken;
                    [assumption | assumption | discriminate]
                  | apply inside_error; assumption ]).
  all: try match goal with
         | |- exists k q, Some (_, set_cur_length 0 (set_cur_type _
                                  (if ?b then _ else _))) = _ /\ _ =>
             do 2 eexists; split; [reflexivity |];
             destruct b; apply inside_error; exact I
         | |- exists k q, (do p <- readString ?f ?x; _) = _ /\ _ =>
             let q := fresh "q" in
             let Hq := fresh "Hq" in
             let Iq := fresh "Iq" in
             destruct (readString_returns n src f x G)
               as (q & Hq & Iq);
             [ first [exact I | assumption] | first [exact L | lia]
             | rewrite Hq; do 2 eexists; split; [reflexivity | exact Iq] ]
         | |- exists k q, (do p <- readName ?f ?ty ?x; _) = _ /\ _ =>
             let q := fresh "q" in
             let Hq := fresh "Hq" in
             let Iq := fresh "Iq" in
             destruct (readName_returns n src f ty x G)
               as (q & Hq & Iq);
             [ first [exact I | assumption] | first [exact L | lia]
             | rewrite Hq; do 2 eexists; split; [reflexivity | exact Iq] ]
         | |- exists k q, (do p <- readNumber ?f ?x; _) = _ /\ _ =>
             let q := fresh "q" in
             let Hq := fresh "Hq" in
             let Iq := fresh "Iq" in
             destruct (readNumber_returns n src f x G)
               as (q & Hq & Iq);
             [ first [exact I | assumption] | first [exact L | lia]
             | rewrite Hq; do 2 eexists; split; [reflexivity | exact Iq] ]
         | X : eqc (peekChar ?x) "x" = true
           |- exists k q, (do p <- readHexNumber ?f ?x; _) = _ /\ _ =>
             let q := fresh "q" in
             let Hq := fresh "Hq" in
             let Iq := fresh "Iq" in
             destruct (readHexNumber_returns n src f x G I X L)
               as (q & Hq & Iq);
             rewrite Hq; do 2 eexists; split; [reflexivity | exact Iq]
         | |- exists k q, (do p <- skipBlockComment ?f ?x; _) = _ /\ _ =>
             let q := fresh "q" in
             let Hq := fresh "Hq" in
             let Iq := fresh "Iq" in
             unfold skipBlockComment;
             destruct (skipBlockCommentLoop_returns n src G f 1 x)
               as (q & Hq & Iq);
             [ first [exact I | assumption] | first [exact L | lia]
             | rewrite Hq; do 2 eexists; split; [reflexivity | exact Iq] ]
         | |- exists k q, (do p <- skipLineComment ?f ?x; _) = _ /\ _ =>
             let q := fresh "q" in
             let Hq := fresh "Hq" in
             let Iq := fresh "Iq" in
             unfold skipLineComment;
             destruct (while_returns inLine n src G eq_refl f x)
               as (q & Hq & Iq);
             [ first [exact I | assumption] | first [exact L | lia]
             | unfold inLine in Hq at 1; rewrite Hq; do 2 eexists;
               split; [reflexivity | exact Iq] ]
         | |- exists k q, (do p <- while ?f _ skipChar ?x; _) = _ /\ _ =>
             let q := fresh "q" in
             let Hq := fresh "Hq" in
             let Iq := fresh "Iq" in
             destruct (while_returns blank n src G eq_refl f x)
               as (q & Hq & Iq);
             [ first [exact I | assumption] | first [exact L | lia]
             | unfold blank in Hq at 1; rewrite Hq; do 2 eexists;
               split; [reflexivity | exact Iq] ]
         end.
Qed.

Lemma nextTokenLoop_returns n src :
  guarded n src ->
  forall f p,
    inside n src p ->
    (Z.to_nat (n - currentChar p) + 1 < f)%nat ->
    exists q, nextTokenLoop f p = Some q /\ inside n src q.
Proof.
  intros G. induction f as [| f IH]; intros p I L; [lia |].
  cbn [nextTokenLoop].
  destruct (negb (eqc (peekChar p) "000")) eqn:Z.
  - apply negb_true_iff in Z.
    pose proof (inside_before n src p G I Z) as B.
    rewrite nextChar_peek. fold (turned p).
    assert (It : inside n src (turned p)).
    { apply (inside_skipChar n src (set_tokenStart (currentChar p) p) G I Z). }
    assert (Ct : currentChar (turned p) = currentChar p + 1)
      by (rewrite turned_moveTo; reflexivity).
    destruct (scanToken_returns n src f
                (peekChar (set_tokenStart (currentChar p) p)) (turned p)
                G It) as (k & q & H & Iq); [lia |].
    rewrite H. destruct k.
    + exists q. split; [reflexivity | exact Iq].
    + apply scanToken_scanned in H.
      inversion H as [[_ A] | |]; subst.
      apply IH; [exact Iq |]. destruct Iq as [_ Cq]. lia.
  - eexists. split; [reflexivity |].
    apply inside_makeToken. exact I.
Qed.

Lemma nextToken_returns n src f p :
  guarded n src -> inside n src p ->
  (Z.to_nat (n - currentChar p) + 1 < f)%nat ->
  exists q, nextToken f p = Some q /\ inside n src q.
Proof.
  intros G I L. unfold nextToken; cbv zeta.
  destruct (isEOF (Token.type (currentToken (set_previous (current p) p)))).
  - eexists. split; [reflexivity | exact I].
  - apply (nextTokenLoop_returns n src G f (set_previous (current p) p) I L).
Qed.

Lemma guarded_nonneg n src : guarded n src -> 0 <= n.
Proof.
  intros [N _ _]. unfold charAt in N.
  destruct (n <? 0) eqn:E; [discriminate | apply Z.ltb_ge in E; exact E].
Qed.

Lemma reachable_inside n src p :
  guarded n src -> reachable src p -> inside n src p.
Proof.
  intros G. pose proof (guarded_nonneg n src G) as N.
  induction 1 as [| f p q R IH H].
  - split; [reflexivity | cbn; lia].
  - destruct (nextToken_returns n src (Z.to_nat n + 2) p G IH)
      as (q' & H' & Iq).
    { destruct IH as [_ C]. lia. }
    apply (nextToken_fuel _ (Nat.max f (Z.to_nat n + 2))) in H; [| lia].
    apply (nextToken_fuel _ (Nat.max f (Z.to_nat n + 2))) in H'; [| lia].
    congruence.
Qed.

Lemma reaches_EOF n src :
  guarded n src ->
  forall m p,
    reachable src p ->
    (Z.to_nat (n - currentChar p) < m)%nat ->
    exists k q,
      (k <= m)%nat
      /\ nextTokens k (Z.to_nat n + 2) p = Some q
      /\ isEOF (Token.type (currentToken q)) = true.
Proof.
  intros G. induction m as [| m IH]; intros p R L; [lia |].
  destruct (isEOF (Token.type (currentToken p))) eqn:E.
  { exists 0%nat, p. split; [lia |]. split; [reflexivity | exact E]. }
  pose proof (reachable_inside n src p G R) as I.
  destruct (nextToken_returns n src (Z.to_nat n + 2) p G I)
    as (q1 & H & I1).
  { destruct I as [_ C]. lia. }
  destruct (isEOF (Token.type (currentToken q1))) eqn:E1.
  { exists 1%nat, q1. split; [lia |]. cbn [nextTokens]. rewrite H.
    split; [reflexivity | exact E1]. }
  assert (P : currentChar p < currentChar q1).
  { pose proof (nextToken_cases _ p q1 H) as [[E' _] | [_ Pr]];
      [congruence |].
    destruct Pr as [_ _ _ _ Or _]. cbn [currentChar set_previous] in Or.
    rewrite (nextToken_is_loop _ p E) in H.
    destruct (nextTokenLoop_progress _ _ _ H) as [[T _] | [_ T]].
    - rewrite T in E1. discriminate.
    - lia. }
  destruct (IH q1 (reach_next src _ p q1 R H)) as (k & q & Lk & Hk & Ek).
  { destruct I1 as [_ C1]. lia. }
  exists (S k), q. split; [lia |]. cbn [nextTokens]. rewrite H.
  split; [exact Hk | exact Ek].
Qed.

(** X21.  On a source that holds a NUL, neither a backslash nor a [%]
    standing right before it, the tokenizer does not run away: in every
    state that calls of [nextToken] reach, the cursor stands at or
    before the NUL, and a call returns, for which fuel of the offset of
    the NUL plus 2 is enough; and the calls reach the end-of-file token,
    after at most as many of them as the offset of the NUL plus 1. *)
Theorem guarded_sources_reach_EOF n src :
  guarded n src ->
  (forall p,
      reachable src p ->
      currentChar p <= n
      /\ exists q, nextToken (Z.to_nat n + 2) p = Some q)
  /\ exists k q,
      (k <= Z.to_nat n + 1)%nat
      /\ nextTokens k (Z.to_nat n + 2) (initParser src) = Some q
      /\ isEOF (Token.type (currentToken q)) = true.
Proof.
  intros G. pose proof (guarded_nonneg n src G) as N. split.
  - intros p R. pose proof (reachable_inside n src p G R) as I.
    split; [destruct I as [_ C]; lia |].
    destruct (nextToken_returns n src (Z.to_nat n + 2) p G I)
      as (q & H & _); [destruct I as [_ C]; lia |].
    exists q. exact H.
  - apply (reaches_EOF n src G (Z.to_nat n + 1) (initParser src)
             (reach_init src)).
    cbn [currentChar initParser]. lia.
Qed.

Lemma guarded_sources_reach_EOF_witness :
  exists k q,
    (k <= 4)%nat
    /\ nextTokens k 5 (initParser (str "a+b" ++ [0])) = Some q
    /\ isEOF (Token.type (currentToken q)) = true.
Proof.
  apply (proj2 (guarded_sources_reach_EOF 3 (str "a+b" ++ [0])
                  ltac:(constructor; [reflexivity | discriminate ..]))).
Defined.

(** X22.  The constructor returns on every source of this kind whose NUL
    stands within the first 84 characters: [new Parser(source)] ends in
    a state whose current token is the end-of-file token and whose last
    recorded token is the end-of-file token. *)
Theorem constructor_returns_on_guarded_sources n src :
  guarded n src ->
  n < 85 ->
  exists q,
    newParser (Z.to_nat n + 2) src = Some q
    /\ isEOF (Token.type (currentToken q)) = true
    /\ exists l line, tokens q = l ++ [Entry.mk TOKEN_EOF [] line].
Proof.
  intros G L. pose proof (guarded_nonneg n src G) as N.
  destruct (reaches_EOF n src G (Z.to_nat n + 1) (initParser src)
              (reach_init src)) as (k & q & Lk & H & E).
  { cbn [currentChar initParser]. lia. }
  assert (R : reachable src q)
    by (eapply nextTokens_reachable; [apply reach_init | exact H]).
  exists q. split; [| split; [exact E |]].
  - unfold newParser.
    replace 85%nat with (k + (85 - k))%nat by lia.
    rewrite nextTokens_plus, H.
    apply (nextTokens_at_EOF src _ q R E).
  - exact (reachable_EOF_entry src q R E).
Qed.

Lemma constructor_returns_on_guarded_sources_witness :
  exists q,
    newParser 5 (str "a+b" ++ [0]) = Some q
    /\ isEOF (Token.type (currentToken q)) = true.
Proof.
  destruct (constructor_returns_on_guarded_sources 3 (str "a+b" ++ [0])
              ltac:(constructor; [reflexivity | discriminate ..])
              ltac:(lia))
    as (q & H & E & _).
  exists q. split; [exact H | exact E].
Defined.

(** ** The interpolation stack *)

Lemma array_set_nat_same :
  forall i a v, nth_error (array_set_nat a i v) i = Some (Some v).
Proof.
  induction i as [| i IH]; intros [| x a] v; cbn; auto.
Qed.

Lemma array_set_nat_other :
  forall i a v j,
    i <> j ->
    match nth_error (array_set_nat a i v) j with
    | Some x => x
    | None => None
    end
    = match nth_error a j with Some x => x | None => None end.
Proof.
  induction i as [| i IH]; intros [| x a] v [| j] N; cbn;
    try reflexivity; try contradiction.
  - destruct j; reflexivity.
  - rewrite (IH [] v j) by congruence. destruct j; reflexivity.
  - apply IH. congruence.
Qed.

Lemma array_get_set_same a i v :
  0 <= i -> array_get (array_set a i v) i = Some v.
Proof.
  intros P. unfold array_get, array_set.
  replace (i <? 0) with false by (symmetry; apply Z.ltb_ge; exact P).
  rewrite array_set_nat_same. reflexivity.
Qed.

Lemma array_get_set_other a i v j :
  0 <= i -> 0 <= j -> i <> j ->
  array_get (array_set a i v) j = array_get a j.
Proof.
  intros Pi Pj N. unfold array_get, array_set.
  replace (i <? 0) with false by (symmetry; apply Z.ltb_ge; exact Pi).
  replace (j <? 0) with false by (symmetry; apply Z.ltb_ge; exact Pj).
  apply array_set_nat_other. lia.
Qed.

Lemma keeps_refl r : keeps r r.
Proof. split; reflexivity. Qed.

Lemma keeps_trans r q s : keeps r q -> keeps q s -> keeps r s.
Proof. intros [A B] [A' B']. split; congruence. Qed.

Lemma keeps_skipChar r : keeps r (skipChar r).
Proof. rewrite skipChar_moveTo. split; reflexivity. Qed.

Lemma keeps_matchChar a r : keeps r (snd (matchChar a r)).
Proof.
  unfold matchChar. destruct (negb (eqc (peekChar r) a)); cbn [snd];
    [apply keeps_refl | apply keeps_skipChar].
Qed.

Lemma keeps_while cond :
  forall f r q, while f cond skipChar r = Some q -> keeps r q.
Proof.
  induction f as [| f IH]; intros r q H; [discriminate |].
  cbn [while] in H. destruct (cond r).
  - eapply keeps_trans; [apply keeps_skipChar | apply IH, H].
  - injection H as <-. apply keeps_refl.
Qed.

Lemma keeps_skipBlockCommentLoop :
  forall f k r q, skipBlockCommentLoop f k r = Some q -> keeps r q.
Proof.
  induction f as [| f IH]; intros k r q H; [discriminate |].
  rewrite skipBlockCommentLoop_S in H.
  destruct (0 <? k); [| injection H as <-; apply keeps_refl].
  destruct (eqc (peekChar r) "000");
    [injection H as <-; split; reflexivity |].
  assert (K2 : keeps r (skipChar (skipChar r)))
    by (eapply keeps_trans; apply keeps_skipChar).
  destruct (eqc (peekChar r) "/" && eqc (peekNextChar r) "*");
    [| destruct (eqc (peekChar r) "*" && eqc (peekNextChar r) "/")];
    apply IH in H;
    (eapply keeps_trans; [| exact H]);
    first [exact K2 | apply keeps_skipChar].
Qed.

Lemma keeps_readHexDigit r : keeps r (snd (readHexDigit r)).
Proof.
  unfold readHexDigit. rewrite nextChar_peek.
  pose proof (keeps_skipChar r) as K.
  destruct (gec (peekChar r) "0" && lec (peekChar r) "9"); [exact K |].
  destruct (gec (peekChar r) "a" && lec (peekChar r) "f"); [exact K |].
  destruct (gec (peekChar r) "A" && lec (peekChar r) "F"); [exact K |].
  exact K.
Qed.

Lemma keeps_readHexDigits :
  forall f r q, readHexDigits f r = Some q -> keeps r q.
Proof.
  induction f as [| f IH]; intros r q H; [discriminate |].
  rewrite readHexDigits_S in H.
  pose proof (keeps_readHexDigit r) as K.
  destruct (readHexDigit r) as [d r1]. cbn [snd] in K.
  destruct (negb (js_num_eqb d (Num (-1)))).
  - eapply keeps_trans; [exact K | apply IH, H].
  - injection H as <-. exact K.
Qed.

Lemma keeps_makeToken ty r : keeps r (makeToken ty r).
Proof.
  destruct (makeToken_fields ty r) as (_ & _ & _ & _ & _ & Fn & Fp & _).
  split; assumption.
Qed.

Lemma keeps_set_cur_value v r : keeps r (set_cur_value v r).
Proof.
  destruct (sameScan_set_cur_value v r) as [_ _ _ _ Sp Sn _ _].
  split; assumption.
Qed.

Lemma keeps_makeNumber b r : keeps r (makeNumber b r).
Proof.
  unfold makeNumber. destruct b;
    (eapply keeps_trans; [apply keeps_set_cur_value | apply keeps_makeToken]).
Qed.

Lemma keeps_lexError m r : keeps r (lexError m r).
Proof. split; reflexivity. Qed.

Lemma keeps_readHexNumber f r q :
  readHexNumber f r = Some q -> keeps r q.
Proof.
  unfold readHexNumber. intros H.
  destruct (readHexDigits f (skipChar r)) as [r1 |] eqn:E; [| discriminate].
  injection H as <-. apply keeps_readHexDigits in E.
  eapply keeps_trans; [apply keeps_skipChar |].
  eapply keeps_trans; [exact E | apply keeps_makeNumber].
Qed.

Lemma keeps_readNumber f r q : readNumber f r = Some q -> keeps r q.
Proof.
  unfold readNumber. intros H.
  destruct (skipDigits f r) as [r1 |] eqn:E1; [| discriminate].
  apply keeps_while in E1.
  destruct (if eqc (peekChar r1) "." && isDigit (peekNextChar r1)
            then skipDigits f (skipChar r1) else Some r1)
    as [r2 |] eqn:E2; [| discriminate].
  assert (K2 : keeps r1 r2).
  { destruct (eqc (peekChar r1) "." && isDigit (peekNextChar r1)).
    - apply keeps_while in E2.
      eapply keeps_trans; [apply keeps_skipChar | exact E2].
    - injection E2 as <-. apply keeps_refl. }
  clear E2.
  set (me := let '(m1, p1) := matchChar "e" r2 in
             if m1 then (true, p1) else matchChar "E" p1) in H.
  assert (K3 : keeps r2 (snd me)).
  { unfold me. pose proof (keeps_matchChar "e" r2) as A.
    destruct (matchChar "e" r2) as [m1 p1]. cbn [snd] in A.
    destruct m1; [exact A |].
    eapply keeps_trans; [exact A | apply keeps_matchChar]. }
  destruct me as [m r3]. cbn [snd] in K3.
  assert (K : keeps r r3)
    by (eapply keeps_trans; [exact E1 |];
        eapply keeps_trans; [exact K2 | exact K3]).
  destruct m.
  - cbv zeta in H.
    set (r4 := snd (matchChar "-" r3)) in H.
    assert (K4 : keeps r3 r4) by apply keeps_matchChar.
    destruct (skipDigits f _) as [r5 |] eqn:E5 in H; [| discriminate].
    injection H as <-. apply keeps_while in E5.
    eapply keeps_trans; [exact K |].
    eapply keeps_trans; [exact K4 |].
    eapply keeps_trans; [| apply keeps_makeNumber].
    eapply keeps_trans; [| exact E5].
    destruct (negb (isDigit (peekChar r4)));
      [apply keeps_lexError | apply keeps_refl].
  - injection H as <-.
    eapply keeps_trans; [exact K | apply keeps_makeNumber].
Qed.

Lemma keeps_readName f ty r q : readName f ty r = Some q -> keeps r q.
Proof.
  unfold readName. intros H.
  destruct (while f _ skipChar r) as [r1 |] eqn:E in H; [| discriminate].
  injection H as <-. apply keeps_while in E.
  eapply keeps_trans; [exact E | apply keeps_makeToken].
Qed.

Lemma keeps_readHexEscapeLoop :
  forall k d v r, keeps r (snd (readHexEscapeLoop k d v r)).
Proof.
  induction k as [| k IH]; intros d v r; [apply keeps_refl |].
  rewrite readHexEscapeLoop_S.
  destruct (eqc (peekChar r) dquoteChar || eqc (peekChar r) "000");
    [split; reflexivity |].
  pose proof (keeps_readHexDigit r) as K.
  destruct (readHexDigit r) as [digit r1]. cbn [snd] in K.
  destruct (js_num_eqb digit (Num (-1))).
  - cbn [snd]. eapply keeps_trans; [exact K | apply keeps_lexError].
  - eapply keeps_trans; [exact K | apply IH].
Qed.

Lemma keeps_readEscape e r : keeps r (readEscape e r).
Proof.
  unfold readEscape.
  destruct (eqc e "t"); [apply keeps_set_cur_value |].
  destruct (eqc e "v"); [apply keeps_set_cur_value |].
  destruct (eqc e "x"); [| apply keeps_lexError].
  unfold readHexEscape.
  pose proof (keeps_readHexEscapeLoop 2 (str "byte") (Num 0) r) as K.
  destruct (readHexEscapeLoop 2 (str "byte") (Num 0) r) as [v q].
  cbn [snd] in K.
  eapply keeps_trans; [exact K | apply keeps_set_cur_value].
Qed.

Lemma stackOK_keeps r q : stackOK r -> keeps r q -> stackOK q.
Proof.
  intros [N S] [Kp Kn]. split; [lia |].
  intros i Hi. rewrite Kp. apply S. lia.
Qed.

(** Pushing a level whose counter is 1. *)
Lemma stackOK_push r q :
  stackOK r ->
  parens q = array_set (parens r) (numParens r) (Num 1) ->
  numParens q = numParens r + 1 ->
  stackOK q.
Proof.
  intros [N S] Hp Hn. split; [lia |].
  intros i Hi. rewrite Hp.
  destruct (Z.eq_dec i (numParens r)) as [-> | D].
  - exists 1. rewrite array_get_set_same by exact N. split; [reflexivity | lia].
  - rewrite array_get_set_other by lia. apply S. lia.
Qed.

Lemma stackOK_readStringLoop :
  forall f r ty q,
    stackOK r -> readStringLoop f r = Some (ty, q) -> stackOK q.
Proof.
  induction f as [| f IH]; intros r ty q S H; [discriminate |].
  cbn [readStringLoop] in H. rewrite nextChar_peek in H.
  pose proof (stackOK_keeps r _ S (keeps_skipChar r)) as S1.
  destruct (eqc (peekChar r) dquoteChar); [injection H as <- <-; exact S1 |].
  destruct (eqc (peekChar r) "000");
    [injection H as <- <-; exact S1 |].
  assert (Tail : forall p2,
             stackOK p2 ->
             (if eqc (peekChar r) "\" then
                let p3 := set_console (console p2 ++ [Log 123]) p2 in
                let '(e, p4) := nextChar p3 in
                readStringLoop f (readEscape e p4)
              else readStringLoop f p2) = Some (ty, q) ->
             stackOK q).
  { intros p2 S2 H2. destruct (eqc (peekChar r) "\").
    - cbv zeta in H2. rewrite nextChar_peek in H2.
      apply IH in H2; [exact H2 |].
      eapply stackOK_keeps; [| apply keeps_readEscape].
      eapply stackOK_keeps; [| apply keeps_skipChar].
      exact S2.
    - apply IH in H2; assumption. }
  destruct (eqc (peekChar r) "%").
  - destruct (numParens (skipChar r) <? MAX_INTERPOLATION_NESTING).
    + rewrite nextChar_peek in H. injection H as <- <-.
      pose proof (stackOK_keeps _ _ S1 (keeps_skipChar (skipChar r))) as S2.
      eapply (stackOK_push
                (if negb (eqc (peekChar (skipChar r)) "(")
                 then lexError (str "Expect '(' after '%%'.")
                        (skipChar (skipChar r))
                 else skipChar (skipChar r))).
      * destruct (negb (eqc (peekChar (skipChar r)) "(")); exact S2.
      * destruct (negb (eqc (peekChar (skipChar r)) "(")); reflexivity.
      * destruct (negb (eqc (peekChar (skipChar r)) "(")); reflexivity.
    + eapply Tail; [| exact H]. exact S1.
  - apply (Tail _ S1 H).
Qed.

Lemma stackOK_readString f r q :
  stackOK r -> readString f r = Some q -> stackOK q.
Proof.
  unfold readString. intros S H.
  destruct (readStringLoop f r) as [[ty r1] |] eqn:E; [| discriminate].
  injection H as <-. apply stackOK_readStringLoop in E; [| exact S].
  eapply stackOK_keeps; [exact E | apply keeps_makeToken].
Qed.

Lemma keeps_error m r :
  keeps r (set_cur_length 0 (set_cur_type TOKEN_ERROR (lexError m r))).
Proof.
  unfold set_cur_length, set_cur_type, keeps.
  autorewrite with parser. split; reflexivity.
Qed.

Lemma keeps_twoCharToken a two one r : keeps r (twoCharToken a two one r).
Proof.
  unfold twoCharToken. pose proof (keeps_matchChar a r) as K.
  destruct (matchChar a r) as [m p]. cbn [snd] in K.
  eapply keeps_trans; [exact K | apply keeps_makeToken].
Qed.

(** A left parenthesis inside an interpolation is counted. *)
Lemma stackOK_left_paren r :
  stackOK r ->
  stackOK
    (if 0 <? numParens r then
       set_parens
         (array_set (parens r) (numParens r - 1)
            (js_add (elemNumber (array_get (parens r) (numParens r - 1)))
               (Num 1))) r
     else r).
Proof.
  intros [N S]. destruct (0 <? numParens r) eqn:E; [| split; assumption].
  apply Z.ltb_lt in E. split; [exact N |].
  cbn [parens numParens set_parens]. intros i Hi.
  destruct (S (numParens r - 1)) as (k & Hk & Pk); [lia |].
  destruct (Z.eq_dec i (numParens r - 1)) as [-> | D].
  - rewrite array_get_set_same by lia. rewrite Hk.
    exists (k + 1). split; [reflexivity | lia].
  - rewrite array_get_set_other by lia. apply S. exact Hi.
Qed.

(** A right parenthesis that does not end the interpolation leaves a
    counter that is still at least 1. *)
Lemma stackOK_decrement r :
  stackOK r ->
  0 < numParens r ->
  js_num_eqb
    (js_sub (elemNumber (array_get (parens r) (numParens r - 1))) (Num 1))
    (Num 0) = false ->
  stackOK
    (set_parens
       (array_set (parens r) (numParens r - 1)
          (js_sub (elemNumber (array_get (parens r) (numParens r - 1)))
             (Num 1))) r).
Proof.
  intros [N S] P Z. split; [exact N |].
  cbn [parens numParens set_parens]. intros i Hi.
  destruct (S (numParens r - 1)) as (k & Hk & Pk); [lia |].
  rewrite Hk in Z |- *. cbn [elemNumber js_sub js_num_eqb] in Z |- *.
  apply Z.eqb_neq in Z.
  destruct (Z.eq_dec i (numParens r - 1)) as [-> | D].
  - rewrite array_get_set_same by lia.
    exists (k - 1). split; [reflexivity | lia].
  - rewrite array_get_set_other by lia. apply S. exact Hi.
Qed.

(** The levels below the one that a right parenthesis ends. *)
Lemma stackOK_pop r v :
  stackOK r ->
  0 < numParens r ->
  stackOK
    (set_numParens (numParens r - 1)
       (set_parens (array_set (parens r) (numParens r - 1) v) r)).
Proof.
  intros [N S] P. split; [cbn [numParens set_numParens]; lia |].
  cbn [parens numParens set_parens set_numParens]. intros i Hi.
  rewrite array_get_set_other by lia. apply S. lia.
Qed.

(** Every case of the [switch] keeps the stack in order. *)
Lemma stackOK_scanToken f c r k q :
  stackOK r -> scanToken f c r = Some (k, q) -> stackOK q.
Proof.
  intros S H. unfold scanToken in H.
  repeat match type of H with
    | (if 0 <? numParens r then _ else _) = _ =>
        let N := fresh "N" in
        destruct (0 <? numParens r) eqn:N; [apply Z.ltb_lt in N |]
    | (if js_num_eqb ?v (Num 0) then _ else _) = _ =>
        let Z := fresh "Z" in destruct (js_num_eqb v (Num 0)) eqn:Z
    | (if ?b then _ else _) = _ => destruct b
    | (let p := _ in _) = _ => cbv zeta in H
    | (let '(_, _) := matchChar ?a ?x in _) = _ =>
        let Sp := fresh "Sp" in
        pose proof (stackOK_keeps x _ ltac:(assumption) (keeps_matchChar a x))
          as Sp;
        destruct (matchChar a x) as [? ?]; cbn [snd] in Sp
    | match ?e with Some _ => _ | None => _ end = _ =>
        let E := fresh "E" in
        destruct e eqn:E; [| discriminate]
    | Some _ = Some _ => injection H as <- <-
    end.
  all: try match goal with
         | S0 : stackOK ?x
           |- stackOK (makeToken _ (if 0 <? numParens ?x then _ else ?x)) =>
             eapply stackOK_keeps;
             [apply (stackOK_left_paren x S0) | apply keeps_makeToken]
         | S0 : stackOK ?x, Z : js_num_eqb _ (Num 0) = false
           |- stackOK (makeToken _ (set_parens _ ?x)) =>
             eapply stackOK_keeps;
             [apply (stackOK_decrement x S0); assumption
             | apply keeps_makeToken]
         | |- stackOK (makeToken _ _) =>
             eapply stackOK_keeps; [| apply keeps_makeToken]; assumption
         | |- stackOK (twoCharToken _ _ _ _) =>
             eapply stackOK_keeps; [| apply keeps_twoCharToken]; assumption
         | S0 : stackOK ?x,
           E : readString _ (set_numParens _ (set_parens _ ?x)) = Some ?q
           |- stackOK ?q =>
             apply stackOK_readString in E; [exact E |];
             apply (stackOK_pop x _ S0); assumption
         | E : readString _ _ = Some ?q |- stackOK ?q =>
             apply stackOK_readString in E; assumption
         | E : readName _ _ _ = Some ?q |- stackOK ?q =>
             apply keeps_readName in E; eapply stackOK_keeps; eassumption
         | E : readNumber _ _ = Some ?q |- stackOK ?q =>
             apply keeps_readNumber in E; eapply stackOK_keeps; eassumption
         | E : readHexNumber _ _ = Some ?q |- stackOK ?q =>
             apply keeps_readHexNumber in E;
             eapply stackOK_keeps; eassumption
         | E : skipLineComment _ _ = Some ?q |- stackOK ?q =>
             apply keeps_while in E; eapply stackOK_keeps; eassumption
         | E : skipBlockComment _ _ = Some ?q |- stackOK ?q =>
             apply keeps_skipBlockCommentLoop in E;
             eapply stackOK_keeps; eassumption
         | E : while _ _ skipChar _ = Some ?q |- stackOK ?q =>
             apply keeps_while in E; eapply stackOK_keeps; eassumption
         | |- stackOK (set_cur_length 0 (set_cur_type _ (if _ then _ else _))) =>
             match goal with
             | |- stackOK (set_cur_length 0 (set_cur_type _
                             (if ?b then _ else _))) =>
                 destruct b;
                 (eapply stackOK_keeps; [| apply keeps_error]; assumption)
             end
         end.
Qed.

Lemma stackOK_nextTokenLoop :
  forall f p q, stackOK p -> nextTokenLoop f p = Some q -> stackOK q.
Proof.
  induction f as [| f IH]; intros p q S H; [discriminate |].
  cbn [nextTokenLoop] in H.
  destruct (negb (eqc (peekChar p) "000")).
  - rewrite nextChar_peek in H.
    destruct (scanToken f _ _) as [[k r] |] eqn:E in H; [| discriminate].
    apply stackOK_scanToken in E;
      [| exact (stackOK_keeps p _ S
                  (keeps_skipChar (set_tokenStart (currentChar p) p)))].
    destruct k; [injection H as <-; exact E | exact (IH r q E H)].
  - injection H as <-.
    exact (stackOK_keeps p _ S
             (keeps_makeToken TOKEN_EOF (set_tokenStart (currentChar p) p))).
Qed.

Lemma stackOK_nextToken f p q :
  stackOK p -> nextToken f p = Some q -> stackOK q.
Proof.
  unfold nextToken; cbv zeta. intros S H.
  destruct (isEOF (Token.type (currentToken (set_previous (current p) p)))).
  - injection H as <-. exact S.
  - exact (stackOK_nextTokenLoop f (set_previous (current p) p) q S H).
Qed.

(** X23.  The interpolation stack is never read where it was not
    written.  In every state that calls of [nextToken] reach, each level
    in use holds a number that is at least 1, the count of the left
    parentheses of that level that are still unmatched; so a right
    parenthesis met at a positive depth ends the interpolation exactly
    when the counter of the top level is 1. *)
Theorem interpolation_counters_are_positive src p :
  reachable src p ->
  stackOK p
  /\ (0 < numParens p ->
      (closesInterpolation p = true
       <-> array_get (parens p) (numParens p - 1) = Some (Num 1))).
Proof.
  intros R.
  assert (S : stackOK p).
  { induction R as [| f p q R IH H].
    - split; [cbn; lia |]. cbn [numParens initParser]. intros i Hi. lia.
    - exact (stackOK_nextToken f p q IH H). }
  split; [exact S |].
  intros P. destruct S as [_ S].
  destruct (S (numParens p - 1)) as (k & Hk & Pk); [lia |].
  unfold closesInterpolation. rewrite Hk.
  replace (0 <? numParens p) with true by (symmetry; apply Z.ltb_lt; exact P).
  cbn [andb elemNumber js_sub js_num_eqb]. split.
  - intros H. apply Z.eqb_eq in H. do 2 f_equal. lia.
  - intros H. injection H as ->. reflexivity.
Qed.

Lemma interpolation_counters_are_positive_witness :
  exists q,
    nextTokens 2 10 (initParser interpolated) = Some q
    /\ stackOK q
    /\ closesInterpolation q = true.
Proof.
  destruct (nextTokens 2 10 (initParser interpolated)) as [q |] eqn:H;
    [| vm_compute in H; discriminate].
  exists q. split; [reflexivity |].
  destruct (interpolation_counters_are_positive interpolated q) as [S _].
  - eapply nextTokens_reachable; [apply reach_init | exact H].
  - split; [exact S |].
    vm_compute in H. injection H as <-. reflexivity.
Defined.

(** ** Interpolation at full depth *)

Lemma readStringLoop_percent_deep f r :
  peekChar r = Some (ch "%") ->
  MAX_INTERPOLATION_NESTING <= numParens r ->
  readStringLoop (S f) r =
  readStringLoop f
    (lexError (str "Interpolation may only nest 8 levels deep.")
       (skipChar r)).
Proof.
  intros P N. cbn [readStringLoop]. rewrite nextChar_peek, P.
  change (eqc (Some (ch "%")) dquoteChar) with false.
  change (eqc (Some (ch "%")) "000") with false.
  change (eqc (Some (ch "%")) "%") with true.
  change (eqc (Some (ch "%")) "\") with false.
  cbv iota.
  assert (Ns : numParens (skipChar r) = numParens r)
    by (rewrite skipChar_moveTo; reflexivity).
  rewrite Ns.
  replace (numParens r <? MAX_INTERPOLATION_NESTING) with false
    by (symmetry; apply Z.ltb_ge; exact N).
  reflexivity.
Qed.

(** X24.  A [%] in a string met while the interpolation stack is full
    opens nothing: the call writes the message that interpolation may
    only nest 8 levels deep, passes over the [%] as over any other
    character of the string and reads on to the closing quote; the
    string token holds the whole literal, and the stack is as it was. *)
Theorem interpolation_too_deep pre post tail fuel p :
  Forall (fun c => stringChar c = true) pre ->
  Forall (fun c => stringChar c = true) post ->
  MAX_INTERPOLATION_NESTING <= numParens p ->
  isEOF (Token.type (currentToken p)) = false ->
  0 <= currentChar p ->
  rest p = (dquote :: pre ++ [ch "%"] ++ post ++ [dquote]) ++ tail ->
  exists q,
    nextToken (S (List.length pre + S (List.length post + S fuel))) p
    = Some q
    /\ scansTo TOKEN_STRING (dquote :: pre ++ [ch "%"] ++ post ++ [dquote])
         p q
    /\ rest q = tail
    /\ console q =
       console p
       ++ [Warn (currentLine p + newlines pre)
             (str "Interpolation may only nest 8 levels deep.")]
    /\ numParens q = numParens p
    /\ parens q = parens p.
Proof.
  intros Fa Fb D E C R.
  set (lex' := pre ++ [ch "%"] ++ post ++ [dquote]) in *.
  destruct (rest_skipChar dquote (lex' ++ tail)
              (set_tokenStart (currentChar p) (set_previous (current p) p))
              C R) as [C1 R1].
  change (skipChar (set_tokenStart (currentChar p)
                      (set_previous (current p) p)))
    with (entered p) in C1, R1.
  unfold lex' in R1. rewrite <- !app_assoc in R1.
  destruct (rest_skipChars pre _ (entered p) C1 R1) as [C2 R2].
  pose proof (skipChars_moveTo pre _ (entered p) C1 R1) as M1.
  rewrite entered_moveTo in M1 at 2 3 4.
  assert (NL : eqc (peekChar p) "010" = false)
    by (rewrite (peekChar_rest p C), R; reflexivity).
  rewrite NL, Z.add_0_r in M1.
  rewrite moveTo_moveTo, currentChar_moveTo, currentLine_moveTo in M1.
  set (base := set_tokenStart (currentChar p) (set_previous (current p) p))
    in *.
  set (r1 := skipChars (List.length pre) (entered p)) in *.
  assert (P1 : peekChar r1 = Some (ch "%"))
    by (rewrite (peekChar_rest _ C2), R2; reflexivity).
  set (msg := str "Interpolation may only nest 8 levels deep.").
  set (r2 := lexError msg (skipChar r1)).
  assert (S2 : r2 =
               set_console (console p ++ [Warn (currentLine p + newlines pre)
                                            msg])
                 (moveTo (currentChar p + 1 + Z.of_nat (List.length pre) + 1)
                    (currentLine p + newlines pre) base)).
  { unfold r2. rewrite skipChar_moveTo, P1.
    change (eqc (Some (ch "%")) "010") with false. rewrite Z.add_0_r.
    rewrite M1. reflexivity. }
  assert (C5 : 0 <= currentChar r2 /\ rest r2 = (post ++ [dquote]) ++ tail).
  { rewrite <- app_assoc. exact (rest_skipChar (ch "%") _ r1 C2 R2). }
  destruct C5 as [C5 R5].
  pose proof (skipChars_moveTo (post ++ [dquote]) tail r2 C5 R5) as M5.
  set (r := skipChars (List.length (post ++ [dquote])) r2) in *.
  destruct (nextToken_scansTo TOKEN_STRING dquote lex' tail
              (List.length pre + S (List.length post + S fuel)) p r
              E C R ltac:(discriminate))
    as (q & Hq & Y & Rq & Lq & Oq & Nq & Pq & Vq).
  - rewrite scanToken_dquote. unfold readString.
    rewrite (readStringLoop_plain pre _ (entered p) _ C1 R1 Fa).
    fold r1. rewrite (readStringLoop_percent_deep _ r1 P1).
    2:{ rewrite M1. exact D. }
    fold msg. fold r2.
    rewrite <- app_assoc in R5.
    rewrite (readStringLoop_plain post _ r2 _ C5 R5 Fb).
    destruct (rest_skipChars post _ r2 C5 R5) as [C6 R6].
    rewrite readStringLoop_quote
      by (rewrite (peekChar_rest _ C6), R6; reflexivity).
    rewrite <- skipChars_succ. unfold r.
    rewrite length_app, Nat.add_comm. reflexivity.
  - rewrite M5, S2. reflexivity.
  - rewrite M5, S2. reflexivity.
  - rewrite M5, S2.
    cbn [currentChar moveTo set_currentLine set_currentChar set_console].
    unfold lex'. cbn [List.length]. repeat rewrite length_app.
    cbn [List.length]. lia.
  - rewrite M5, S2. reflexivity.
  - exists q. repeat (split; [assumption |]).
    rewrite Oq, Nq, Pq, M5, S2. repeat split.
Qed.

Lemma interpolation_too_deep_witness :
  exists q8 q,
    nextTokens 8 10 (initParser nineDeep) = Some q8
    /\ nextToken 10 q8 = Some q
    /\ scansTo TOKEN_STRING (dquote :: str "%(x)" ++ [dquote]) q8 q
    /\ numParens q = 8.
Proof.
  destruct (nextTokens 8 10 (initParser nineDeep)) as [q8 |] eqn:H;
    [| vm_compute in H; discriminate].
  assert (F : numParens q8 = 8
              /\ isEOF (Token.type (currentToken q8)) = false
              /\ currentChar q8 = 24
              /\ rest q8 =
                 (dquote :: [] ++ [ch "%"] ++ str "(x)" ++ [dquote])
                 ++ List.concat (repeat (str ")" ++ [dquote]) 8)
                 ++ str " + 1").
  { vm_compute in H. injection H as <-. repeat split. }
  destruct F as (Fn & Fe & Fc & Fr).
  destruct (interpolation_too_deep [] (str "(x)")
              (List.concat (repeat (str ")" ++ [dquote]) 8) ++ str " + 1")
              4 q8)
    as (q & Hq & Y & _ & _ & N & _).
  - constructor.
  - repeat constructor.
  - rewrite Fn. unfold MAX_INTERPOLATION_NESTING. lia.
  - exact Fe.
  - rewrite Fc. lia.
  - exact Fr.
  - exists q8, q. split; [reflexivity |].
    split; [exact Hq |]. split; [exact Y | congruence].
Defined.

(** ** A [\x] escape cut short by the closing quote *)

Lemma hexChar_stringChar h : hexChar (Some h) = true -> stringChar h = true.
Proof.
  intros H. unfold hexChar, gec, lec in H. unfold stringChar.
  rewrite !eqc_Some.
  change (ch "0") with 48 in *. change (ch "9") with 57 in *.
  change (ch "a") with 97 in *. change (ch "f") with 102 in *.
  change (ch "A") with 65 in *. change (ch "F") with 70 in *.
  change (ch dquoteChar) with 34. change (ch "000") with 0.
  change (ch "%") with 37. change (ch "\") with 92.
  assert (R : 48 <= h <= 57 \/ 97 <= h <= 102 \/ 65 <= h <= 70).
  { apply orb_prop in H as [H | H]; [apply orb_prop in H as [H | H] |];
      apply andb_prop in H as [A B]; lia. }
  repeat (apply andb_true_intro; split); apply negb_true_iff, Z.eqb_neq; lia.
Qed.

(** [readHexEscape] when the quote comes before the second digit: the
    message, and the cursor one character back. *)
Lemma readHexEscape_incomplete d hs t r :
  0 <= currentChar r ->
  rest r = hs ++ dquote :: t ->
  hs = [] \/ (exists h, hs = [h] /\ hexChar (Some h) = true) ->
  readHexEscape 2 d r =
  (Num (match hs with [] => 0 | h :: _ => hexDigitValue h end),
   moveTo (currentChar r + Z.of_nat (List.length hs) - 1) (currentLine r)
     (lexError (str "Incomplete " ++ d ++ str " escape sequence.") r)).
Proof.
  intros C R [-> | (h & -> & H)]; unfold readHexEscape.
  - change ([] ++ dquote :: t) with (dquote :: t) in R.
    rewrite readHexEscapeLoop_S, (peekChar_rest r C), R.
    cbn [first hd_error]. change (eqc (Some dquote) dquoteChar) with true.
    cbn [orb]. cbv zeta. f_equal.
    unfold lexError, moveTo.
    destruct r as [s0 ts cc cl cur prev oa ob pa np tk co].
    unfold set_currentLine, set_currentChar, set_console.
    cbn [source tokenStart currentChar currentLine current previous objA
           objB parens numParens tokens console List.length].
    f_equal. lia.
  - change ([h] ++ dquote :: t) with (h :: dquote :: t) in R.
    assert (P1 : peekChar r = Some h)
      by (rewrite (peekChar_rest r C), R; reflexivity).
    destruct (rest_skipChar h (dquote :: t) r C R) as [C1 R1].
    destruct (readHexDigit_value r h P1 H) as (d1 & E1 & N1 & V1 & B1).
    rewrite readHexEscapeLoop_S, P1, (hexChar_not_end h H), E1, N1.
    rewrite readHexEscapeLoop_S, (peekChar_rest _ C1), R1.
    cbn [first hd_error]. change (eqc (Some dquote) dquoteChar) with true.
    cbn [orb]. cbv zeta.
    unfold js_bitor. rewrite V1.
    change (js_mul (Num 0) (Num 16)) with (Num 0).
    change (ToInt32 (Num 0)) with 0. rewrite Z.lor_0_l.
    f_equal. rewrite skipChar_moveTo, P1.
    replace (eqc (Some h) "010") with false.
    2:{ symmetry. rewrite eqc_Some. apply Z.eqb_neq.
        intros ->. discriminate H. }
    unfold lexError, moveTo.
    destruct r as [s0 ts cc cl cur prev oa ob pa np tk co].
    unfold set_currentLine, set_currentChar, set_console.
    cbn [source tokenStart currentChar currentLine current previous objA
           objB parens numParens tokens console List.length].
    rewrite Z.add_0_r. reflexivity.
Qed.

Lemma regroup (A : Type) (a b l c : A) pre mid tail :
  (a :: pre ++ [b] ++ (mid ++ [l]) ++ [c]) ++ tail
  = (a :: pre ++ [b] ++ mid) ++ [l; c] ++ tail.
Proof.
  change (a :: ((pre ++ b :: ((mid ++ [l]) ++ [c])) ++ tail)
          = a :: ((pre ++ b :: mid) ++ l :: c :: tail)).
  apply f_equal.
  induction pre as [| x pre IH].
  - change (b :: (((mid ++ [l]) ++ [c]) ++ tail)
            = b :: (mid ++ l :: c :: tail)).
    apply f_equal.
    induction mid as [| y mid IH]; [reflexivity |].
    change (y :: (((mid ++ [l]) ++ [c]) ++ tail)
            = y :: (mid ++ l :: c :: tail)).
    apply f_equal, IH.
  - change (x :: ((pre ++ b :: ((mid ++ [l]) ++ [c])) ++ tail)
            = x :: ((pre ++ b :: mid) ++ l :: c :: tail)).
    apply f_equal, IH.
Qed.

Lemma lexError_set_console m K r :
  lexError m (set_console K r)
  = set_console (K ++ [Warn (currentLine r) m]) r.
Proof. reflexivity. Qed.

Lemma moveTo_set_console c l K r :
  moveTo c l (set_console K r) = set_console K (moveTo c l r).
Proof. reflexivity. Qed.

Lemma currentChar_set_console K r :
  currentChar (set_console K r) = currentChar r.
Proof. reflexivity. Qed.

Lemma currentLine_set_console K r :
  currentLine (set_console K r) = currentLine r.
Proof. reflexivity. Qed.

Lemma incomplete_message :
  str "Incomplete " ++ str "byte" ++ str " escape sequence."
  = str "Incomplete byte escape sequence.".
Proof. vm_compute. reflexivity. Qed.

(** X25.  A [\x] escape that the closing quote cuts short, before its
    first or its second digit, is reported as incomplete and does not
    take the quote with it: [readHexEscape] steps back over the
    character before the quote, which is then read again as a character
    of the string, and the string ends at its quote.  The string token
    holds the whole literal; the value of the current token is the
    number read so far, 0 or the value of the one digit. *)
Theorem incomplete_hexadecimal_escape pre hs tail fuel p :
  Forall (fun c => stringChar c = true) pre ->
  hs = [] \/ (exists h, hs = [h] /\ hexChar (Some h) = true) ->
  isEOF (Token.type (currentToken p)) = false ->
  0 <= currentChar p ->
  rest p = (dquote :: pre ++ [ch "\"; ch "x"] ++ hs ++ [dquote]) ++ tail ->
  exists q,
    nextToken (S (List.length pre + S (S (S fuel)))) p = Some q
    /\ scansTo TOKEN_STRING
         (dquote :: pre ++ [ch "\"; ch "x"] ++ hs ++ [dquote]) p q
    /\ rest q = tail
    /\ console q =
       console p
       ++ [Log 123;
           Warn (currentLine p + newlines pre)
             (str "Incomplete byte escape sequence.")]
    /\ Token.value (currentToken q) =
       VNumber (Num (match hs with [] => 0 | h :: _ => hexDigitValue h end))
    /\ numParens q = numParens p
    /\ parens q = parens p.
Proof.
  intros Fa Hh E C R.
  set (lex' := pre ++ [ch "\"; ch "x"] ++ hs ++ [dquote]) in *.
  assert (Hl : exists mid l,
             ch "x" :: hs = mid ++ [l] /\ stringChar l = true
             /\ l <> 10).
  { destruct Hh as [-> | (h & -> & H)].
    - exists [], (ch "x"). repeat split. discriminate.
    - exists [ch "x"], h. split; [reflexivity |].
      split; [apply hexChar_stringChar, H |].
      intros ->. discriminate H. }
  destruct Hl as (mid & l & Hm & Sl & Nl).
  assert (Lm : List.length mid = List.length hs).
  { apply (f_equal (@List.length Z)) in Hm.
    rewrite length_app in Hm. cbn [List.length] in Hm. lia. }
  destruct (rest_skipChar dquote (lex' ++ tail)
              (set_tokenStart (currentChar p) (set_previous (current p) p))
              C R) as [C1 R1].
  change (skipChar (set_tokenStart (currentChar p)
                      (set_previous (current p) p)))
    with (entered p) in C1, R1.
  unfold lex' in R1. rewrite <- !app_assoc in R1.
  destruct (rest_skipChars pre _ (entered p) C1 R1) as [C2 R2].
  pose proof (skipChars_moveTo pre _ (entered p) C1 R1) as M1.
  rewrite entered_moveTo in M1 at 2 3 4.
  assert (NL : eqc (peekChar p) "010" = false)
    by (rewrite (peekChar_rest p C), R; reflexivity).
  rewrite NL, Z.add_0_r in M1.
  rewrite moveTo_moveTo, currentChar_moveTo, currentLine_moveTo in M1.
  set (base := set_tokenStart (currentChar p) (set_previous (current p) p))
    in *.
  set (r1 := skipChars (List.length pre) (entered p)) in *.
  assert (P1 : peekChar r1 = Some (ch "\"))
    by (rewrite (peekChar_rest _ C2), R2; reflexivity).
  set (r1' := set_console (console (skipChar r1) ++ [Log 123])
                (skipChar r1)).
  assert (S1 : r1' =
               set_console (console p ++ [Log 123])
                 (moveTo (currentChar p + 1 + Z.of_nat (List.length pre) + 1)
                    (currentLine p + newlines pre) base)).
  { unfold r1'. rewrite skipChar_moveTo, P1.
    change (eqc (Some (ch "\")) "010") with false. rewrite Z.add_0_r.
    rewrite M1. reflexivity. }
  assert (C3 : 0 <= currentChar r1'
               /\ rest r1' = ch "x" :: hs ++ [dquote] ++ tail).
  { exact (rest_skipChar (ch "\") _ r1 C2 R2). }
  destruct C3 as [C3 R3].
  assert (P3 : peekChar r1' = Some (ch "x"))
    by (rewrite (peekChar_rest _ C3), R3; reflexivity).
  destruct (rest_skipChar (ch "x") _ r1' C3 R3) as [C4 R4].
  assert (S3 : skipChar r1' =
               set_console (console p ++ [Log 123])
                 (moveTo (currentChar p + Z.of_nat (List.length pre) + 3)
                    (currentLine p + newlines pre) base)).
  { rewrite skipChar_moveTo, P3, S1.
    change (eqc (Some (ch "x")) "010") with false.
    unfold moveTo, set_console, set_currentLine, set_currentChar.
    cbn [source tokenStart currentChar currentLine current previous objA
           objB parens numParens tokens console].
    rewrite Z.add_0_r. f_equal. lia. }
  set (msg := str "Incomplete byte escape sequence.").
  set (v := VNumber
              (Num (match hs with [] => 0 | h :: _ => hexDigitValue h end))).
  set (r4' := moveTo (currentChar (skipChar r1')
                      + Z.of_nat (List.length hs) - 1)
                (currentLine (skipChar r1'))
                (lexError msg (skipChar r1'))).
  assert (Esc : readEscape (Some (ch "x")) (skipChar r1')
                = set_cur_value v r4').
  { unfold readEscape.
    change (eqc (Some (ch "x")) "t") with false.
    change (eqc (Some (ch "x")) "v") with false.
    change (eqc (Some (ch "x")) "x") with true.
    cbv iota.
    rewrite (readHexEscape_incomplete (str "byte") hs tail _ C4 R4 Hh).
    rewrite incomplete_message. reflexivity. }
  assert (S4 : r4' =
               set_console
                 (console p
                  ++ [Log 123; Warn (currentLine p + newlines pre) msg])
                 (moveTo
                    (currentChar p + Z.of_nat (List.length pre) + 2
                     + Z.of_nat (List.length hs))
                    (currentLine p + newlines pre) base)).
  { unfold r4'. rewrite S3.
    rewrite lexError_set_console, moveTo_set_console, moveTo_moveTo.
    rewrite currentChar_set_console, currentLine_set_console.
    rewrite currentChar_moveTo, !currentLine_moveTo.
    rewrite <- app_assoc.
    replace (currentChar p + Z.of_nat (List.length pre) + 3
             + Z.of_nat (List.length hs) - 1)
      with (currentChar p + Z.of_nat (List.length pre) + 2
            + Z.of_nat (List.length hs)) by lia.
    reflexivity. }
  destruct (sameScan_set_cur_value v r4') as [Ss St Sc Sl' Sp Sn Sk So].
  set (r4 := set_cur_value v r4') in *.
  assert (R5 : rest r4 = [l; dquote] ++ tail).
  { unfold rest. rewrite Ss, Sc, S4.
    cbn [source currentChar moveTo set_currentLine set_currentChar
           set_console base set_tokenStart set_previous].
    replace (currentChar p + Z.of_nat (List.length pre) + 2
             + Z.of_nat (List.length hs))
      with (currentChar p
            + Z.of_nat (List.length (dquote :: pre ++ [ch "\"] ++ mid))).
    2:{ cbn [List.length]. rewrite !length_app. cbn [List.length]. lia. }
    apply (rest_after (dquote :: pre ++ [ch "\"] ++ mid) _ p 0 C).
    rewrite R. unfold lex'.
    change ([ch "\"; ch "x"] ++ hs ++ [dquote])
      with ([ch "\"] ++ (ch "x" :: hs) ++ [dquote]).
    rewrite Hm. apply regroup. }
  assert (C5 : 0 <= currentChar r4).
  { rewrite Sc, S4.
    cbn [currentChar moveTo set_currentLine set_currentChar set_console].
    lia. }
  pose proof (skipChars_moveTo [l; dquote] tail r4 C5 R5) as M5.
  assert (N5 : newlines [l; dquote] = 0)
    by (rewrite newlines_cons by exact Nl; reflexivity).
  rewrite N5, Z.add_0_r in M5. clear N5.
  set (r := skipChars (List.length [l; dquote]) r4) in *.
  destruct (nextToken_scansTo TOKEN_STRING dquote lex' tail
              (List.length pre + S (S (S fuel))) p r
              E C R ltac:(discriminate))
    as (q & Hq & Y & Rq & Lq & Oq & Nq & Pq & Vq).
  - rewrite scanToken_dquote. unfold readString.
    rewrite (readStringLoop_plain pre _ (entered p) _ C1 R1 Fa).
    fold r1. rewrite (readStringLoop_backslash _ r1 P1). cbv zeta.
    fold r1'. rewrite P3, Esc. fold r4.
    rewrite (readStringLoop_char _ r4 l)
      by (rewrite ?(peekChar_rest _ C5), ?R5; auto).
    destruct (rest_skipChar l (dquote :: tail) r4 C5 R5) as [C6 R6].
    rewrite readStringLoop_quote
      by (rewrite (peekChar_rest _ C6), R6; reflexivity).
    reflexivity.
  - rewrite M5. cbn [source moveTo set_currentLine set_currentChar].
    rewrite Ss, S4. reflexivity.
  - rewrite M5. cbn [tokenStart moveTo set_currentLine set_currentChar].
    rewrite St, S4. reflexivity.
  - rewrite M5. cbn [currentChar moveTo set_currentLine set_currentChar].
    rewrite Sc, S4.
    cbn [currentChar moveTo set_currentLine set_currentChar set_console].
    unfold lex'. cbn [List.length]. repeat rewrite length_app.
    cbn [List.length]. lia.
  - rewrite M5. cbn [tokens moveTo set_currentLine set_currentChar].
    rewrite Sk, S4. reflexivity.
  - exists q. repeat (split; [assumption |]).
    assert (Fr : console r = console r4
                 /\ numParens r = numParens r4
                 /\ parens r = parens r4
                 /\ currentToken r = currentToken r4)
      by (rewrite M5; repeat split).
    destruct Fr as (Fo & Fn & Fp & Fv).
    rewrite Oq, Vq, Nq, Pq, Fo, Fn, Fp, Fv, So, Sn, Sp, S4.
    unfold r4. rewrite currentToken_set_cur_value.
    repeat split.
Qed.

Lemma incomplete_hexadecimal_escape_witness :
  exists q,
    nextToken 4 (initParser (dquote :: str "\x4" ++ [dquote])) = Some q
    /\ scansTo TOKEN_STRING (dquote :: str "\x4" ++ [dquote])
         (initParser (dquote :: str "\x4" ++ [dquote])) q
    /\ warnings q = [str "Incomplete byte escape sequence."]
    /\ Token.value (currentToken q) = VNumber (Num 4).
Proof.
  destruct (incomplete_hexadecimal_escape [] [ch "4"] [] 0
              (initParser (dquote :: str "\x4" ++ [dquote])))
    as (q & H & Y & _ & O & V & _).
  - constructor.
  - right. exists (ch "4"). split; reflexivity.
  - reflexivity.
  - cbn; lia.
  - reflexivity.
  - exists q. split; [exact H |]. split; [exact Y |].
    split; [unfold warnings; rewrite O; reflexivity | exact V].
Defined.

(** * The closing parenthesis and the line numbers, on the states that the
    tokenizer reaches *)

(** ** C4: the closing parenthesis *)







(** ** C6: line numbers *)














(** *** Hexadecimal digits *)








(** *** Where a hexadecimal literal or escape starts *)






(** *** Strings *)




(** *** Names and numbers *)



(** *** The [switch] and the loop of [nextToken] *)







(** *** The token that a call makes *)









(** *** Lines and lexemes *)





